(** * astrbot_plugin_fake_ai_watermark: the fetch and compositing core in Rocq

    A shallow embedding of the plugin's modules,

    - [utils/file_utils.py]     (format detection, extensions, size limits, base64),
    - [core/image_processor.py] (loading, safety gate, watermark placement, compositing),
    - [utils/network_utils.py]  (URL safety check, pinned resolver, bounded download),
    - [main.py]                 (the command a message carries),

    followed by the properties the specification states about them and by
    further properties of the same code.

    Conventions.  Python [int] is [Z]; [bytes] is [list byte]; [str] is
    [string], the bytes of its UTF-8 form (in main.py, which takes
    messages apart character by character, the list of its code points);
    [float] is the kernel's binary64 [float].  [Optional[T]] is
    [option T].  Objects that Python code mutates in place (PIL images) live
    in a store indexed by object identity; effects on the outside world
    (logging, DNS, HTTP) are recorded in an event trace.  Functions of the
    Python standard library and of third-party packages ([urlparse],
    [ipaddress], [aiohttp], PIL's pixel kernels) are not part of the
    repository: they enter as fields of an environment record, and the
    theorems hold for every environment. *)

From Stdlib Require Import ZArith Lia Bool List Ascii String.
From Stdlib.Strings Require Import Byte.
From Stdlib Require Import Floats Uint63.
From stdpp Require Import base option list gmap strings pretty.

Local Open Scope string_scope.
Local Open Scope list_scope.
Local Open Scope Z_scope.

(* ===================================================================== *)
(** * Python primitives *)
(* ===================================================================== *)

Module Py.

(** [bytes] objects. *)
Definition bytes := list byte.

(** [b"..."] literals. *)
Definition b (s : string) : bytes := list_byte_of_string s.

Definition byte_eqb (x y : byte) : bool := Byte.eqb x y.

(** [x == y] on [bytes]. *)
Fixpoint bytes_eqb (x y : bytes) : bool :=
  match x, y with
  | [], [] => true
  | a :: x', c :: y' => byte_eqb a c && bytes_eqb x' y'
  | _, _ => false
  end.

(** [x in l] for a list of [bytes]. *)
Definition bytes_in (x : bytes) (l : list bytes) : bool :=
  existsb (bytes_eqb x) l.

(** [len(x)] as a Python int. *)
Definition len {A} (x : list A) : Z := Z.of_nat (length x).

(** [data[i:j]] for [0 <= i <= j]: slicing clips at the end of the data. *)
Definition slice {A} (i j : nat) (x : list A) : list A :=
  take (j - i) (drop i x).

(** ** Exceptions *)

(** The exception classes the modelled code can meet.  [Unbound] is not a
    Python exception: it marks a reference to an object that was never
    created, a state no Python program reaches. *)
Inductive exn : Type :=
| ValueError
| OverflowError
| ZeroDivisionError
| OtherError (name : string)
| Unbound.

(** A computation that returns or raises. *)
Inductive outcome (A : Type) : Type :=
| Return (a : A)
| Raise (e : exn).
Arguments Return {A} a.
Arguments Raise {A} e.

Definition obind {A B} (m : outcome A) (k : A -> outcome B) : outcome B :=
  match m with
  | Return a => k a
  | Raise e => Raise e
  end.

(** ** Floats *)

(** [float(n)] for an int [n], as Python converts the int operand of a mixed
    [int * float] or [int / float]: the nearest binary64 value, ties to
    even, and [OverflowError] when that is not finite.  Below 2^63 in
    magnitude this is the kernel's own conversion of a machine integer. *)
Definition float_of_int (n : Z) : outcome float :=
  if (0 <=? n) && (n <? 9223372036854775808) then
    Return (of_uint63 (of_Z n))
  else if (-9223372036854775808 <? n) && (n <? 0) then
    Return (- of_uint63 (of_Z (- n)))%float
  else
    let f := SF2Prim (binary_normalize prec emax n 0 false) in
    if PrimFloat.is_infinity f then Raise OverflowError else Return f.

(** [int(f)] for a float [f]: truncation toward zero; [ValueError] on nan,
    [OverflowError] on an infinity. *)
Definition int_of_float (f : float) : outcome Z :=
  match Prim2SF f with
  | S754_zero _ => Return 0
  | S754_finite s m e =>
      let v := Z.shiftl (Z.pos m) e in
      Return (if s then - v else v)
  | S754_infinity _ => Raise OverflowError
  | S754_nan => Raise ValueError
  end.

(** [n * c] for an int [n] and a float [c]. *)
Definition int_mul_float (n : Z) (c : float) : outcome float :=
  obind (float_of_int n) (fun f => Return (f * c)%float).

(** [n / c] for an int [n] and a float [c] (true division). *)
Definition int_div_float (n : Z) (c : float) : outcome float :=
  obind (float_of_int n) (fun f =>
    if PrimFloat.is_zero c then Raise ZeroDivisionError else Return (f / c)%float).

(** [floor(f)] for a float [f]: the largest integer not above it.  The
    code never calls it; it is what the specification's "floor" means, to
    compare [int_of_float] with. *)
Definition float_floor (f : float) : outcome Z :=
  match Prim2SF f with
  | S754_zero _ => Return 0
  | S754_finite s m e => Return (Z.shiftl (if s then Z.neg m else Z.pos m) e)
  | S754_infinity _ => Raise OverflowError
  | S754_nan => Raise ValueError
  end.

(** A float that is not negative (nor a negative zero or infinity). *)
Definition sign_clear (x : spec_float) : Prop :=
  match x with
  | S754_zero s | S754_infinity s | S754_finite s _ _ => s = false
  | S754_nan => True
  end.


(** [a / b] for two ints: the quotient rounded to the nearest binary64
    value, ties to even, as CPython's true division of ints computes it;
    [ZeroDivisionError] for a zero divisor, [OverflowError] when the
    quotient is too large for a float.  A zero dividend gives a zero with
    the sign of the quotient. *)
Definition int_truediv (a b : Z) : outcome float :=
  if b =? 0 then Raise ZeroDivisionError
  else
    let sa := a <? 0 in
    let sb := b <? 0 in
    match a with
    | 0 => Return (SF2Prim (S754_zero sb))
    | _ =>
        let f := SF2Prim (SFdiv prec emax
                            (S754_finite sa (Z.to_pos (Z.abs a)) 0)
                            (S754_finite sb (Z.to_pos (Z.abs b)) 0)) in
        if PrimFloat.is_infinity f then Raise OverflowError else Return f
    end.

(** [f / n] for a float [f] and an int [n]. *)
Definition float_div_int (f : float) (n : Z) : outcome float :=
  obind (float_of_int n) (fun g =>
    if PrimFloat.is_zero g then Raise ZeroDivisionError else Return (f / g)%float).

End Py.

(* ===================================================================== *)
(** * Python strings *)
(* ===================================================================== *)

Module PyStr.

(** [s.startswith(p)]. *)
Definition startswith (s p : string) : bool := String.prefix p s.

(** [s.endswith(p)]. *)
Definition endswith (s p : string) : bool :=
  let n := String.length s in
  let k := String.length p in
  (k <=? n)%nat && String.eqb (substring (n - k) k s) p.

(** [s[i:]].  Strings are held as their UTF-8 bytes and Python counts code
    points; the code only slices off characters it has just matched, all of
    them ASCII, so the two counts agree wherever this is used. *)
Definition slice_from (i : nat) (s : string) : string :=
  substring i (String.length s - i) s.

(** [s[1:-1]], with the same proviso. *)
Definition slice_inner (s : string) : string :=
  substring 1 (String.length s - 2) s.

End PyStr.

(* ===================================================================== *)
(** * The world outside the repository *)
(* ===================================================================== *)

Module Lib.
Import Py.

#[export] Instance exn_eq_dec : EqDecision exn.
Proof. solve_decision. Defined.

(** The exception classes the network code names. *)
Definition gaierror : exn := OtherError "socket.gaierror".
Definition TimeoutError : exn := OtherError "asyncio.TimeoutError".
Definition CancelledError : exn := OtherError "asyncio.CancelledError".

(** What [urllib.parse.urlparse] returns, as far as the plugin reads it. *)
Record ParseResult : Type := mkParseResult {
  scheme : string;
  hostname : option string;
  path : string;
  query : string;
}.

(** An address object of [ipaddress], as far as the plugin reads it. *)
Record IPAddress : Type := mkIPAddress {
  version : Z;
  is_private : bool;
  is_loopback : bool;
  is_link_local : bool;
}.

(** Address families a resolver is asked for. *)
Inductive Family : Type := AF_UNSPEC | AF_INET | AF_INET6.

#[export] Instance Family_eq_dec : EqDecision Family.
Proof. solve_decision. Defined.

(** One entry of a [getaddrinfo] answer: the plugin reads the host of its
    socket address, [entry[4][0]]. *)
Record AddrInfo : Type := mkAddrInfo {
  sockaddr_host : string;
}.

(** One entry of a resolver's answer, as aiohttp's resolvers return it. *)
Inductive Proto : Type := IPPROTO_TCP | IPPROTO_other (n : Z).
Inductive Flags : Type := AI_NUMERICHOST | AI_other (n : Z).

Record ResolveResult : Type := mkResolveResult {
  rr_hostname : string;
  rr_host : string;
  rr_port : Z;
  rr_family : Family;
  rr_proto : Proto;
  rr_flags : Flags;
}.

(** An HTTP response: its status, and the chunks its body is read in,
    possibly cut short by an exception. *)
Record Response : Type := mkResponse {
  status : Z;
  body : list bytes;
  body_error : option exn;
}.

(** What aiohttp does while it serves one [session.get(url)], step by
    step.  It asks the resolver of the session's connector for the
    addresses of a host name, and goes on with the answer; it sends a
    request for a URL to an address: the first for the URL it was given,
    further ones when a server answers with a redirect, which
    [session.get] follows by default, up to a fixed number of them; it
    ends with a response or with an exception.  Which steps it takes is
    aiohttp's and the network's business; what the resolver answers is
    the plugin's ([FixedDNSResolver], below). *)
Inductive Client : Type :=
| Resolve (host : string) (port : Z) (family : Family)
          (k : outcome (list ResolveResult) -> Client)
| Send (url : string) (address : string) (k : Client)
| Finish (result : outcome Response).

(** ** Events *)

Inductive Severity : Type := DEBUG | INFO | WARNING | ERROR.

(** What happens in the outside world, in order: log records, DNS
    questions (the event loop's [getaddrinfo], aiohttp's default resolver),
    calls of [session.get] with the resolver pin and timeout of the
    session, the requests aiohttp sends during such a call with the
    addresses they go to, and the chunks read from a response. *)
Inductive Event : Type :=
| Logged (level : Severity) (msg : string)
| Getaddrinfo (host : string) (family : Family)
| Resolved (host : string) (port : Z) (family : Family)
| Request (url : string) (pin : string * string) (timeout : Z)
| Sent (url : string) (address : string)
| Received (chunk : bytes).

Definition Trace := list Event.

(** ** Library functions

    The functions of the standard library and of aiohttp the plugin calls.
    The pure ones depend on their arguments; the answers of the network
    depend on everything that happened before, so a name may resolve
    differently each time it is asked. *)
Record Env : Type := mkEnv {
  (** [urlparse(url)] *)
  urlparse : string -> outcome ParseResult;
  (** [ipaddress.ip_address(s)] for a string; [None] is its [ValueError] *)
  ip_address : string -> option IPAddress;
  (** [ipaddress.ip_address(n)] for an int *)
  ip_address_int : Z -> option IPAddress;
  (** [int(s)] for a string; [None] is its [ValueError] *)
  int_str : string -> option Z;
  (** [str(e)] for an exception *)
  str_exn : exn -> string;
  (** [re.search(pattern, s)]: the text of group 1 of the match, if any *)
  re_search : string -> string -> option string;
  (** [parse_qs(query)] *)
  parse_qs : string -> outcome (gmap string (list string));
  (** [s.lower()] *)
  str_lower : string -> string;
  (** [os.path.getsize(path)] *)
  getsize : string -> outcome Z;
  (** [format(x, spec)] for a float, as an f-string applies it *)
  format_float : string -> float -> string;
  (** [base64.b64decode(s, validate=True)] *)
  b64decode : string -> outcome bytes;
  (** [loop.getaddrinfo(host, None, family=..., type=SOCK_STREAM)] *)
  getaddrinfo : Trace -> string -> Family -> outcome (list AddrInfo);
  (** [DefaultResolver().resolve(host, port, family)] *)
  default_resolve : Trace -> string -> Z -> Family -> outcome (list ResolveResult);
  (** [session.get(url)] on a session with the given total timeout: what
      aiohttp does, redirects included, after what has happened so far *)
  session_get : Trace -> string -> Z -> Client;
}.

(** ** Computations with effects *)

Definition IO (A : Type) : Type := Trace -> outcome A * Trace.

#[export] Instance IO_ret : MRet IO := fun A a t => (Return a, t).
#[export] Instance IO_bind : MBind IO := fun A B k m t =>
  match m t with
  | (Return a, t') => k a t'
  | (Raise e, t') => (Raise e, t')
  end.

Definition of_outcome {A} (o : outcome A) : IO A := fun t => (o, t).

Definition throw {A} (e : exn) : IO A := fun t => (Raise e, t).

(** Something done to the outside world. *)
Definition emit (ev : Event) : IO unit := fun t => (Return tt, t ++ [ev]).

(** [logger.debug], [.info], [.warning], [.error]. *)
Definition logger (l : Severity) (msg : string) : IO unit := emit (Logged l msg).

(** A call to the outside: it is recorded, and answered from what has
    happened so far. *)
Definition call {A} (ev : Event) (answer : Trace -> outcome A) : IO A :=
  fun t => (answer t, t ++ [ev]).

(** [try: m  except C as e: h e], for the class [C] of the exceptions that
    satisfy [caught]. *)
Definition try_catch {A} (m : IO A) (caught : exn -> bool) (h : exn -> IO A) : IO A :=
  fun t =>
    match m t with
    | (Raise e, t') => if caught e then h e t' else (Raise e, t')
    | r => r
    end.

(** [except Exception]: of the exceptions of the model, all are instances
    of [Exception] but the cancellation of the running task. *)
Definition Exception (e : exn) : bool := negb (bool_decide (e = CancelledError)).

(** ** An environment for the examples

    A small table standing in for the libraries and the network, to run
    the model on concrete inputs: one public host that serves a two-chunk
    image, a 404 and a redirect to another host, the loopback address, and
    one 12 MiB file. *)
Definition example_urls : list (string * ParseResult) :=
  [ ("ftp://cdn.example.com/a.gif", mkParseResult "ftp" (Some "cdn.example.com") "/a.gif" "");
    ("http://db.internal/a.gif", mkParseResult "http" (Some "db.internal") "/a.gif" "");
    ("http://2130706433/a.gif", mkParseResult "http" (Some "2130706433") "/a.gif" "");
    ("http://cdn.example.com/a.gif", mkParseResult "http" (Some "cdn.example.com") "/a.gif" "");
    ("http://cdn.example.com/missing", mkParseResult "http" (Some "cdn.example.com") "/missing" "");
    ("http://cdn.example.com/moved", mkParseResult "http" (Some "cdn.example.com") "/moved" "");
    ("http://cdn.example.com/photo.JPG?format=png",
     mkParseResult "http" (Some "cdn.example.com") "/photo.JPG" "format=png");
    ("http://cdn.example.com/render?format=png",
     mkParseResult "http" (Some "cdn.example.com") "/render" "format=png");
    ("big.gif", mkParseResult "" None "big.gif" "") ].

(** A client that asks for the address of [host], sends the request for
    [url] to the first address of the answer, and goes on with [k]. *)
Definition example_exchange (url host : string) (k : Client) : Client :=
  Resolve host 80 AF_UNSPEC (fun answer =>
    match answer with
    | Return (r :: _) => Send url (rr_host r) k
    | _ => Finish (Raise (OtherError "aiohttp.ClientConnectorError"))
    end).

Definition example_env : Env := {|
  urlparse url :=
    match list_find (fun e => fst e = url) example_urls with
    | Some (_, e) => Return (snd e)
    | None => Raise ValueError
    end;
  ip_address s :=
    if String.eqb s "93.184.216.34" then Some (mkIPAddress 4 false false false)
    else if String.eqb s "127.0.0.1" then Some (mkIPAddress 4 true true false)
    else None;
  ip_address_int n := Some (mkIPAddress 4 (n =? 2130706433) (n =? 2130706433) false);
  int_str s := if String.eqb s "2130706433" then Some 2130706433 else None;
  str_exn _ := "error";
  re_search _ s :=
    if String.eqb s "/a.gif" then Some "gif"
    else if String.eqb s "/photo.JPG" then Some "JPG"
    else if String.eqb s "big.gif" then Some "gif"
    else None;
  parse_qs q :=
    if String.eqb q "format=png" then Return {["format" := ["png"]]}
    else Return ∅;
  str_lower s := if String.eqb s "JPG" then "jpg" else s;
  getsize p :=
    if String.eqb p "big.gif" then Return (12 * 1024 * 1024)
    else Raise (OtherError "FileNotFoundError");
  format_float _ _ := "12.0";
  b64decode s :=
    if String.eqb s "R0lG" then Return (b "GIF")
    else Raise (OtherError "binascii.Error");
  getaddrinfo _ host family :=
    if String.eqb host "cdn.example.com" && bool_decide (family = AF_INET)
    then Return [mkAddrInfo "93.184.216.34"]
    else Raise gaierror;
  default_resolve _ host port family :=
    if String.eqb host "files.example.net"
    then Return [mkResolveResult host "192.168.0.7" port family IPPROTO_TCP (AI_other 0)]
    else Return [];
  session_get _ url _ :=
    if String.eqb url "http://cdn.example.com/a.gif"
    then example_exchange url "cdn.example.com"
           (Finish (Return (mkResponse 200 [b "GIF89a"; b "..."] None)))
    else if String.eqb url "http://cdn.example.com/missing"
    then example_exchange url "cdn.example.com"
           (Finish (Return (mkResponse 404 [b "not found"] None)))
    else if String.eqb url "http://cdn.example.com/moved"
    then example_exchange url "cdn.example.com"
           (example_exchange "http://files.example.net/a.gif" "files.example.net"
              (Finish (Return (mkResponse 200 [b "GIF89a"] None))))
    else Finish (Raise (OtherError "aiohttp.ClientError"));
|}.

End Lib.

(* ===================================================================== *)
(** * utils/file_utils.py *)
(* ===================================================================== *)

Module FileUtils.
Import Py.

(** The entries of [FileUtils.MAGIC_BYTES]. *)
Definition MAGIC_gif : list bytes := [b "GIF87a"; b "GIF89a"].
Definition MAGIC_png : bytes :=
  [x89; x50; x4e; x47; x0d; x0a; x1a; x0a].
Definition MAGIC_jpeg : bytes := [xff; xd8; xff].
Definition MAGIC_webp_riff : bytes := b "RIFF".
Definition MAGIC_webp_tag : bytes := b "WEBP".
Definition MAGIC_bmp : bytes := b "BM".

(** [FileUtils.detect_image_format_by_magic] (file_utils.py:117-134). *)
Definition detect_image_format_by_magic (data : bytes) : option string :=
  if len data <? 12 then None
  else if bytes_in (slice 0 6 data) MAGIC_gif then Some ".gif"
  else if bytes_eqb (slice 0 8 data) MAGIC_png then Some ".png"
  else if bytes_eqb (slice 0 3 data) MAGIC_jpeg then Some ".jpg"
  else if bytes_eqb (slice 0 4 data) MAGIC_webp_riff
          && bytes_eqb (slice 8 12 data) MAGIC_webp_tag then Some ".webp"
  else if bytes_eqb (slice 0 2 data) MAGIC_bmp then Some ".bmp"
  else None.


(** ** Extensions, sizes and base64 *)

Import PyStr Lib.

(** Class constants of [FileUtils] (file_utils.py:20-27). *)
Definition SUPPORTED_FORMATS : list string :=
  [".png"; ".jpg"; ".jpeg"; ".bmp"; ".webp"; ".gif"].
Definition DEFAULT_IMAGE_SIZE_LIMIT : Z := 10 * 1024 * 1024.
Definition DEFAULT_GIF_SIZE_LIMIT : Z := 15 * 1024 * 1024.

Section WithEnv.
Context (E : Env).

(** The loop of [get_file_extension] over the query parameters
    (file_utils.py:48-57); [query_params[param_name][0]] raises
    [IndexError] on an empty list. *)
Fixpoint query_extension (query_params : gmap string (list string))
    (param_names : list string) : outcome (option string) :=
  match param_names with
  | [] => Return None
  | param_name :: rest =>
      match query_params !! param_name with
      | Some [] => Raise (OtherError "IndexError")
      | Some (value :: _) =>
          let param_value := str_lower E value in
          if startswith param_value "." then
            if bool_decide (param_value ∈ SUPPORTED_FORMATS) then Return (Some param_value)
            else query_extension query_params rest
          else
            let ext := ("." ++ param_value)%string in
            if bool_decide (ext ∈ SUPPORTED_FORMATS) then Return (Some ext)
            else query_extension query_params rest
      | None => query_extension query_params rest
      end
  end.

(** [FileUtils.get_file_extension] (file_utils.py:37-60).  None of the
    library functions it calls is a coroutine, so [except Exception] stops
    whatever they raise. *)
Definition get_file_extension (url_or_path : string) : option string :=
  match
    obind (urlparse E url_or_path) (fun parsed =>
    let path := path parsed in
    let from_path :=
      match re_search E "\.([a-zA-Z0-9]+)$" path with
      | Some group1 =>
          let ext := ("." ++ str_lower E group1)%string in
          if bool_decide (ext ∈ SUPPORTED_FORMATS) then Some ext else None
      | None => None
      end in
    match from_path with
    | Some ext => Return (Some ext)
    | None =>
        obind (parse_qs E (query parsed)) (fun query_params =>
        query_extension query_params ["format"; "type"; "ext"])
    end)
  with
  | Return r => r
  | Raise _ => None
  end.

(** [FileUtils.is_image_url] (file_utils.py:62-65). *)
Definition is_image_url (url : string) : bool :=
  match get_file_extension url with
  | None | Some "" => false
  | Some ext => bool_decide (ext ∈ SUPPORTED_FORMATS)
  end.

(** [FileUtils.validate_image_size] (file_utils.py:85-100). *)
Definition validate_image_size (file_path : string) : bool * string :=
  match
    obind (getsize E file_path) (fun file_size =>
    let ext := get_file_extension file_path in
    let max_size :=
      if bool_decide (ext = Some ".gif") then DEFAULT_GIF_SIZE_LIMIT
      else DEFAULT_IMAGE_SIZE_LIMIT in
    let max_size_mb := if bool_decide (ext = Some ".gif") then 15 else 10 in
    if file_size >? max_size then
      obind (int_truediv file_size 1024) (fun q =>
      obind (float_div_int q 1024) (fun file_size_mb =>
      Return (false, ("文件过大（" ++ format_float E ".1f" file_size_mb
                      ++ "MB），最大允许：" ++ pretty max_size_mb ++ "MB")%string)))
    else Return (true, ""))
  with
  | Return r => r
  | Raise e => (false, ("无法获取文件大小: " ++ str_exn E e)%string)
  end.

(** [FileUtils.is_base64_image] (file_utils.py:102-104), on a [str]. *)
Definition is_base64_image (data : string) : bool :=
  startswith data "base64://".

(** [FileUtils.decode_base64_image] (file_utils.py:106-114). *)
Definition decode_base64_image (base64_data : string) : IO (option bytes) :=
  try_catch
    (let base64_data :=
       if startswith base64_data "base64://"
       then slice_from (String.length "base64://") base64_data
       else base64_data in
     data ← of_outcome (b64decode E base64_data);
     mret (Some data))
    Exception
    (fun e =>
       logger ERROR ("Base64解码失败: " ++ str_exn E e)%string;;
       mret None).

End WithEnv.

End FileUtils.

(* ===================================================================== *)
(** * The part of PIL the image processor uses *)
(* ===================================================================== *)

Module PIL.
Import Py.

(** Image modes.  The processor tells ["RGB"] and ["RGBA"] apart from
    everything else. *)
Inductive Mode : Type :=
| RGB
| RGBA
| OtherMode (name : string).

#[global] Instance Mode_eq_dec : EqDecision Mode.
Proof. solve_decision. Defined.

(** The content of a [PIL.Image.Image]: mode, size, and the pixels in row
    order, each a list of band values. *)
Record Image : Type := mkImage {
  mode : Mode;
  width : Z;
  height : Z;
  pixels : list (list Z);
}.

#[global] Instance Image_eq_dec : EqDecision Image.
Proof. solve_decision. Defined.

Definition size (im : Image) : Z * Z := (width im, height im).

(** PIL's pixel kernels are C code outside the repository: conversion from
    modes other than RGB/RGBA, Lanczos resampling (which also rejects some
    sizes), and masked paste with its clipping.  Each returns pixel data;
    the mode and size of the resulting image are fixed by the operation
    that calls it.  The last field is what [Image.point] makes of a
    lookup-table entry that does not fit a C [int]: a byte got from the
    wrapped value or an [OverflowError], depending on the build. *)
Record Kernels : Type := mkKernels {
  convert_pixels : Mode -> Mode -> list (list Z) -> list (list Z);
  resample_lanczos : Image -> Z * Z -> outcome (list (list Z));
  paste_pixels : Image -> Image -> Z * Z -> Image -> list (list Z);
  lut_overflow : Z -> outcome Z;
}.

(** Object identities, and the store of image objects with the log the
    processor writes to. *)
Definition ref := positive.

Inductive Level : Type := INFO | WARNING | ERROR.

Record World : Type := mkWorld {
  store : gmap ref Image;
  logs : list (Level * string);
}.

(** Stateful computations that return or raise. *)
Definition M (A : Type) : Type := World -> outcome A * World.

#[global] Instance M_ret : MRet M := fun A a w => (Return a, w).
#[global] Instance M_bind : MBind M := fun A B k m w =>
  match m w with
  | (Return a, w') => k a w'
  | (Raise e, w') => (Raise e, w')
  end.

Definition raise {A} (e : exn) : M A := fun w => (Raise e, w).

Definition lift {A} (o : outcome A) : M A := fun w => (o, w).

Definition log (l : Level) (msg : string) : M unit :=
  fun w => (Return tt, mkWorld (store w) (logs w ++ [(l, msg)])).

(** Reading the content of an object. *)
Definition deref (r : ref) : M Image := fun w =>
  match store w !! r with
  | Some im => (Return im, w)
  | None => (Raise Unbound, w)
  end.

(** Creating a new object: its identity is one no object has yet. *)
Definition alloc (im : Image) : M ref := fun w =>
  let r := fresh (dom (store w)) in
  (Return r, mkWorld (<[r := im]> (store w)) (logs w)).

(** Overwriting an object in place. *)
Definition assign (r : ref) (im : Image) : M unit := fun w =>
  match store w !! r with
  | Some _ => (Return tt, mkWorld (<[r := im]> (store w)) (logs w))
  | None => (Raise Unbound, w)
  end.

Section Operations.
Context (K : Kernels).

(** *** What each operation computes *)

(** The content [Image.convert(m)] produces.  Between RGB and RGBA the
    alpha band is dropped or added opaque. *)
Definition convert_image (m : Mode) (im : Image) : Image :=
  if decide (mode im = m) then im
  else match mode im, m with
       | RGBA, RGB => mkImage RGB (width im) (height im) (take 3 <$> pixels im)
       | RGB, RGBA => mkImage RGBA (width im) (height im) ((fun px => px ++ [255]) <$> pixels im)
       | from, _ => mkImage m (width im) (height im) (convert_pixels K from m (pixels im))
       end.

(** The content [Image.resize(sz, LANCZOS)] produces: the same content when
    the size does not change, resampled pixels otherwise. *)
Definition resize_image (sz : Z * Z) (im : Image) : outcome Image :=
  if decide (size im = sz) then Return im
  else obind (resample_lanczos K im sz) (fun px =>
       Return (mkImage (mode im) (fst sz) (snd sz) px)).

(** The alpha band of an RGBA image, as a single-band image. *)
Definition getchannel_A_image (im : Image) : outcome Image :=
  match mode im with
  | RGBA => Return (mkImage (OtherMode "L") (width im) (height im)
                            ((fun px => [nth 3 px 0]) <$> pixels im))
  | _ => Raise ValueError
  end.

(** [f] tabulated over [0..255], as [Image.point] does before it touches
    the image: it raises if [f] does anywhere. *)
Definition lookup_table (f : Z -> outcome Z) : outcome (list Z) :=
  foldr (fun i acc => obind (f i) (fun v => obind acc (fun l => Return (v :: l))))
        (Return []) (seqZ 0 256).

(** The byte a table entry becomes for a band of 8-bit pixels: the entry
    clipped to [0..255]. *)
Definition INT_MIN : Z := - 2 ^ 31.
Definition INT_MAX : Z := 2 ^ 31 - 1.

Definition table_byte (v : Z) : outcome Z :=
  if (INT_MIN <=? v) && (v <=? INT_MAX) then Return (Z.max 0 (Z.min 255 v))
  else lut_overflow K v.

Definition table_bytes (lut : list Z) : outcome (list Z) :=
  foldr (fun v acc => obind (table_byte v) (fun c => obind acc (fun l => Return (c :: l))))
        (Return []) lut.

(** The content [Image.point(f)] produces for an image of 8-bit bands. *)
Definition point_image (f : Z -> outcome Z) (im : Image) : outcome Image :=
  obind (lookup_table f) (fun lut =>
  obind (table_bytes lut) (fun lut =>
  Return (mkImage (mode im) (width im) (height im)
            ((fun px : list Z => (fun v => nth (Z.to_nat v) lut 0) <$> px) <$> pixels im)))).

(** An RGBA image with its alpha band replaced by the band of [a]. *)
Definition putalpha_image (im a : Image) : outcome Image :=
  match mode im with
  | RGBA => Return (mkImage RGBA (width im) (height im)
                      (zip_with (fun px apx => take 3 px ++ take 1 apx) (pixels im) (pixels a)))
  | _ => Raise ValueError
  end.

(** [im] after [src] was pasted into it at [box] through [mask]. *)
Definition paste_image (im src : Image) (box : Z * Z) (mask : Image) : Image :=
  mkImage (mode im) (width im) (height im) (paste_pixels K im src box mask).

(** *** The operations on objects *)

(** [im.copy()]: a new object with the same content. *)
Definition copy (r : ref) : M ref :=
  im ← deref r; alloc im.

(** [im.convert(m)]: always a new object. *)
Definition convert (r : ref) (m : Mode) : M ref :=
  im ← deref r; alloc (convert_image m im).

(** [im.resize(sz, Image.Resampling.LANCZOS)]: a new object. *)
Definition resize (r : ref) (sz : Z * Z) : M ref :=
  im ← deref r; c ← lift (resize_image sz im); alloc c.

(** [im.getchannel("A")]: a new object. *)
Definition getchannel_A (r : ref) : M ref :=
  im ← deref r; c ← lift (getchannel_A_image im); alloc c.

(** [im.point(f)]: a new object. *)
Definition point (r : ref) (f : Z -> outcome Z) : M ref :=
  im ← deref r; c ← lift (point_image f im); alloc c.

(** [im.putalpha(alpha)]: [im] is modified in place. *)
Definition putalpha (r alpha : ref) : M unit :=
  im ← deref r; a ← deref alpha; c ← lift (putalpha_image im a); assign r c.

(** [im.paste(src, box, mask)]: [im] is modified in place. *)
Definition paste (r src : ref) (box : Z * Z) (mask : ref) : M unit :=
  im ← deref r; s ← deref src; m ← deref mask;
  assign r (paste_image im s box m).

End Operations.

(** ** Image files *)

(** An image as [Image.open] leaves it: mode and size are read from the
    header, the pixel data is decoded when it is first needed, and that
    can fail. *)
Record ImageFile : Type := mkImageFile {
  file_mode : Mode;
  file_width : Z;
  file_height : Z;
  file_pixels : outcome (list (list Z));
}.

(** The image object before its pixel data is loaded. *)
Definition unloaded (f : ImageFile) : Image :=
  mkImage (file_mode f) (file_width f) (file_height f) [].

(** [ImageFile.load], which every operation on the pixels starts with. *)
Definition load (f : ImageFile) : outcome Image :=
  obind (file_pixels f) (fun px =>
  Return (mkImage (file_mode f) (file_width f) (file_height f) px)).

(** An image whose pixel data is in memory, seen as a file that needs no
    decoding. *)
Definition loaded (im : Image) : ImageFile :=
  mkImageFile (mode im) (width im) (height im) (Return (pixels im)).

(** The file system and PIL's decoders. *)
Record Files : Type := mkFiles {
  (** [str(directory / name)] *)
  joinpath : string -> string -> string;
  (** [path.exists()] *)
  path_exists : string -> bool;
  (** [Image.open(path)] *)
  open_path : string -> outcome ImageFile;
  (** [Image.open(BytesIO(data))] *)
  open_bytes : bytes -> outcome ImageFile;
  (** [str(e)] for an exception *)
  str_exn : exn -> string;
}.

(** [try: m  except Exception as e: h e].  It stops every exception, also
    [Unbound], which the blocks it guards cannot raise: they read only
    objects they have just created. *)
Definition try_except {A} (m : M A) (h : exn -> M A) : M A := fun w =>
  match m w with
  | (Raise e, w') => h e w'
  | r => r
  end.

End PIL.

(* ===================================================================== *)
(** * core/image_processor.py *)
(* ===================================================================== *)

Module ImageProcessor.
Import Py PIL.

(** Class constants of [ImageProcessor] (image_processor.py:18-25).  The
    two ratios are the binary64 values Python reads the literals [0.13]
    and [0.03] as. *)
Definition MAX_IMAGE_PIXELS : Z := 10000 * 10000.
Definition WARNING_PIXELS : Z := 5000 * 5000.
Definition LARGE_IMAGE_MARGIN : Z := 64.
Definition SMALL_IMAGE_MARGIN : Z := 32.
Definition LARGE_IMAGE_THRESHOLD : Z := 1024.
Definition ALPHA_THRESHOLD : Z := 10.
Definition DOUBAO_SIZE_RATIO : float := 0x1.0a3d70a3d70a4p-3%float.
Definition DOUBAO_MARGIN_RATIO : float := 0x1.eb851eb851eb8p-6%float.

(** [ImageProcessor.check_image_safety] (image_processor.py:51-57). *)
Definition check_image_safety (img : Image) : M (bool * string) :=
  let pixels := width img * height img in
  if pixels >? MAX_IMAGE_PIXELS then
    mret (false, ("图像尺寸过大（" ++ pretty pixels ++ "像素），安全限制: "
                  ++ pretty MAX_IMAGE_PIXELS ++ "像素")%string)
  else
    (if pixels >? WARNING_PIXELS then
       log WARNING ("处理大图像: " ++ pretty pixels ++ "像素 ("
                    ++ pretty (width img) ++ "x" ++ pretty (height img) ++ ")")%string
     else mret tt);;
    mret (true, "").

(** [ImageProcessor._calculate_gemini_position] (image_processor.py:80-88). *)
Definition _calculate_gemini_position (img_width img_height : Z) (watermark : Image)
  : Z * Z :=
  let '(wm_width, wm_height) := size watermark in
  let margin :=
    if (img_width >? LARGE_IMAGE_THRESHOLD) && (img_height >? LARGE_IMAGE_THRESHOLD)
    then LARGE_IMAGE_MARGIN
    else SMALL_IMAGE_MARGIN in
  let x := img_width - margin - wm_width in
  let y := img_height - margin - wm_height in
  (x, y).

(** The function [_apply_opacity] maps over the alpha band
    (image_processor.py:76): [int(255 * opacity) if v > ALPHA_THRESHOLD else 0]. *)
Definition opacity_lambda (opacity : float) (v : Z) : outcome Z :=
  if v >? ALPHA_THRESHOLD
  then obind (int_mul_float 255 opacity) int_of_float
  else Return 0.

(** [ImageProcessor._calculate_doubao_margin] (image_processor.py:122-125). *)
Definition _calculate_doubao_margin (img_width img_height : Z) : outcome (Z * Z) :=
  obind (obind (int_mul_float img_width DOUBAO_MARGIN_RATIO) int_of_float) (fun margin_x =>
  obind (obind (int_mul_float img_height DOUBAO_MARGIN_RATIO) int_of_float) (fun margin_y =>
  Return (margin_x, margin_y))).

(** [ImageProcessor._calculate_doubao_position] (image_processor.py:127-132). *)
Definition _calculate_doubao_position (img_width img_height wm_width wm_height : Z)
  : outcome (Z * Z) :=
  obind (obind (int_mul_float img_width DOUBAO_MARGIN_RATIO) int_of_float) (fun margin_right =>
  obind (obind (int_mul_float img_height DOUBAO_MARGIN_RATIO) int_of_float) (fun margin_bottom =>
  let x := img_width - margin_right - wm_width in
  let y := img_height - margin_bottom - wm_height in
  Return (x, y))).

Section Processor.
(** The pixel kernels of PIL, and the constant [DOUBAN_ASPECT_RATIO] that
    image_processor.py imports from the package's [constants] module. *)
Context (K : Kernels) (DOUBAN_ASPECT_RATIO : float).

(** [ImageProcessor._apply_opacity] (image_processor.py:73-78); both
    callers pass an RGBA image. *)
Definition _apply_opacity (watermark : ref) (opacity : float) : M ref :=
  alpha ← getchannel_A watermark;
  new_alpha ← point K alpha (opacity_lambda opacity);
  putalpha watermark new_alpha;;
  mret watermark.

(** [ImageProcessor.apply_gemini_watermark] (image_processor.py:90-115). *)
Definition apply_gemini_watermark (image watermark : ref) (opacity : float)
  : M (option ref) :=
  img ← deref image;
  '(is_safe, error_msg) ← check_image_safety img;
  if negb is_safe then
    log ERROR ("图片安全检查失败: " ++ error_msg)%string;;
    mret None
  else
    result ← copy image;
    res ← deref result;
    result ← (if decide (mode res ≠ RGBA) then convert K result RGBA else mret result);
    res ← deref result;
    let '(width, height) := size res in
    wm ← deref watermark;
    let '(wm_width, wm_height) := size wm in
    let '(x, y) := _calculate_gemini_position width height wm in
    if (x <? 0) || (y <? 0) then
      log WARNING "水印尺寸超过图片尺寸，跳过处理";;
      out ← convert K image RGB;
      mret (Some out)
    else
      resized_watermark ← resize K watermark (wm_width, wm_height);
      rw ← deref resized_watermark;
      resized_watermark ← (if decide (mode rw ≠ RGBA)
                           then convert K resized_watermark RGBA
                           else mret resized_watermark);
      resized_watermark ← _apply_opacity resized_watermark opacity;
      paste K result resized_watermark (x, y) resized_watermark;;
      out ← convert K result RGB;
      mret (Some out).

(** [ImageProcessor._calculate_doubao_size] (image_processor.py:117-120). *)
Definition _calculate_doubao_size (img_width img_height : Z) : outcome (Z * Z) :=
  obind (obind (int_mul_float img_width DOUBAO_SIZE_RATIO) int_of_float) (fun wm_width =>
  obind (obind (int_div_float wm_width DOUBAN_ASPECT_RATIO) int_of_float) (fun wm_height =>
  Return (wm_width, wm_height))).

(** [ImageProcessor.apply_doubao_watermark] (image_processor.py:134-158). *)
Definition apply_doubao_watermark (image : ref) (watermark : option ref) (opacity : float)
  : M (option ref) :=
  match watermark with
  | None =>
      log ERROR "水印素材为空";;
      mret None
  | Some watermark =>
      img ← deref image;
      '(is_safe, error_msg) ← check_image_safety img;
      if negb is_safe then
        log ERROR ("图片安全检查失败: " ++ error_msg)%string;;
        mret None
      else
        result ← copy image;
        res ← deref result;
        result ← (if decide (mode res ≠ RGBA) then convert K result RGBA else mret result);
        img ← deref image;
        '(wm_width, wm_height) ← lift (_calculate_doubao_size (width img) (height img));
        resized_watermark ← resize K watermark (wm_width, wm_height);
        rw ← deref resized_watermark;
        resized_watermark ← (if decide (mode rw ≠ RGBA)
                             then convert K resized_watermark RGBA
                             else mret resized_watermark);
        resized_watermark ← _apply_opacity resized_watermark opacity;
        img ← deref image;
        '(x, y) ← lift (_calculate_doubao_position (width img) (height img) wm_width wm_height);
        paste K result resized_watermark (x, y) resized_watermark;;
        out ← convert K result RGB;
        mret (Some out)
  end.

End Processor.

Section Loading.
Context (F : Files) (K : Kernels).

(** [ImageProcessor._get_watermark_path] (image_processor.py:31-32). *)
Definition _get_watermark_path (watermark_dir filename : string) : string :=
  joinpath F watermark_dir filename.

(** [ImageProcessor.load_watermark] (image_processor.py:34-49).  The two
    attributes of the processor are passed in, and the cache is returned
    with the result.  The file object [Image.open] creates is dropped at
    once and is not given an identity. *)
Definition load_watermark (watermark_dir : string) (_watermark_cache : gmap string ref)
    (filename : string) : M (option ref * gmap string ref) :=
  match _watermark_cache !! filename with
  | Some cached =>
      r ← copy cached;
      mret (Some r, _watermark_cache)
  | None =>
      let watermark_path := _get_watermark_path watermark_dir filename in
      if path_exists F watermark_path then
        try_except
          (f ← lift (open_path F watermark_path);
           im ← lift (load f);
           watermark ← alloc (convert_image K RGBA im);
           cached ← copy watermark;
           r ← copy watermark;
           mret (Some r, <[filename := cached]> _watermark_cache))
          (fun e =>
             log ERROR ("加载水印失败 " ++ filename ++ ": " ++ str_exn F e)%string;;
             mret (None, _watermark_cache))
      else
        log ERROR ("水印文件不存在: " ++ watermark_path)%string;;
        mret (None, _watermark_cache)
  end.

(** [ImageProcessor.preprocess_image] (image_processor.py:59-71).  The
    image it returns is the opened file, still unloaded, or the image
    [convert] made of it. *)
Definition preprocess_image (image_data : bytes) : M (option ImageFile) :=
  try_except
    (img ← lift (open_bytes F image_data);
     img ← (if negb (bool_decide (file_mode img ∈ [RGB; RGBA])) then
              im ← lift (load img);
              mret (loaded (convert_image K RGB im))
            else mret img);
     '(is_safe, error_msg) ← check_image_safety (unloaded img);
     if negb is_safe then
       log ERROR ("图片安全检查失败: " ++ error_msg)%string;;
       mret None
     else mret (Some img))
    (fun e =>
       log ERROR ("图片预处理失败: " ++ str_exn F e)%string;;
       mret None).

End Loading.

(** ** Concrete inputs for the examples *)

(** Stand-in pixel kernels for running the model on concrete images: they
    hand back pixel data they were given.  No statement below depends on
    what they return. *)
Definition example_kernels : Kernels :=
  mkKernels (fun _ _ px => px)
            (fun im _ => Return (pixels im))
            (fun im _ _ _ => pixels im)
            (fun _ => Raise OverflowError).

Definition rgb_1x1 : Image := mkImage RGB 1 1 [[10; 20; 30]].
Definition wm_2x1 : Image := mkImage RGBA 2 1 [[0; 0; 0; 255]; [0; 0; 0; 255]].

(** A 100x2 RGB image: wide and flat. *)
Definition rgb_100x2 : Image := mkImage RGB 100 2 (replicate 200 [1; 2; 3]).

(** A 40x40 RGB image. *)
Definition rgb_40x40 : Image := mkImage RGB 40 40 (replicate 1600 [1; 2; 3]).

(** Worlds holding an image as object 1 and the watermark as object 2. *)
Definition world_of (img wm : Image) : World :=
  mkWorld (<[1%positive := img]> (<[2%positive := wm]> ∅)) [].

(** A file system with one watermark file, and a decoder that knows two
    byte strings: an RGB image and a grey one. *)
Definition example_files : Files := {|
  joinpath dir name := (dir ++ "/" ++ name)%string;
  path_exists p := String.eqb p "watermark_PNG/gemini_48px.png";
  open_path p :=
    if String.eqb p "watermark_PNG/gemini_48px.png" then Return (loaded wm_2x1)
    else Raise (OtherError "FileNotFoundError");
  open_bytes data :=
    if bytes_eqb data (b "rgb") then Return (loaded rgb_1x1)
    else if bytes_eqb data (b "grey") then
      Return (mkImageFile (OtherMode "L") 1 1 (Return [[7]]))
    else Raise (OtherError "PIL.UnidentifiedImageError");
  str_exn _ := "error";
|}.

End ImageProcessor.

(* ===================================================================== *)
(** * utils/network_utils.py *)
(* ===================================================================== *)

Module NetworkUtils.
Import Py PyStr Lib.

(** [NetworkUtils.DANGEROUS_PATTERNS] (network_utils.py:49-77). *)
Definition DANGEROUS_PATTERNS : list string :=
  [ "localhost"; "127.0.0.1"; "0.0.0.0"; "::1"; "169.254."; "metadata.";
    ".internal"; ".local"; ".localdomain"; "10.";
    "172.16."; "172.17."; "172.18."; "172.19."; "172.20."; "172.21.";
    "172.22."; "172.23."; "172.24."; "172.25."; "172.26."; "172.27.";
    "172.28."; "172.29."; "172.30."; "172.31."; "192.168." ].

(** The attributes [NetworkUtils.__init__] sets (network_utils.py:79-83);
    [_session] stays [None] in every method modelled here. *)
Record Self : Type := mkSelf {
  timeout : Z;
  max_size : Z;
}.

(** [NetworkUtils()] with the defaults of [__init__]. *)
Definition default_self : Self := mkSelf 30 (10 * 1024 * 1024).

Section WithEnv.
Context (E : Env).

(** [FixedDNSResolver.resolve] (network_utils.py:22-43), for a resolver
    built on [_safe_resolutions]. *)
Definition resolve (_safe_resolutions : gmap string string)
    (hostname : string) (port : Z) (family : Family) : IO (list ResolveResult) :=
  match _safe_resolutions !! hostname with
  | Some safe_ip =>
      match ip_address E safe_ip with
      | None => mret []
      | Some ip_obj =>
          if bool_decide (family = AF_INET) && negb (version ip_obj =? 4) then mret []
          else if bool_decide (family = AF_INET6) && negb (version ip_obj =? 6) then mret []
          else mret [mkResolveResult hostname safe_ip port family IPPROTO_TCP AI_NUMERICHOST]
      end
  | None =>
      call (Resolved hostname port family)
           (fun t => default_resolve E t hostname port family)
  end.

(** [NetworkUtils._is_private_ip] (network_utils.py:93-98). *)
Definition _is_private_ip (ip_str : string) : bool :=
  match ip_address E ip_str with
  | Some ip => is_private ip || is_loopback ip || is_link_local ip
  | None => false
  end.

(** [NetworkUtils._is_ip_format] (network_utils.py:100-113). *)
Definition _is_ip_format (hostname : string) : bool :=
  match ip_address E hostname with
  | Some _ => true
  | None =>
      match int_str E hostname with
      | Some ip_int =>
          if (0 <=? ip_int) && (ip_int <=? 0xFFFFFFFF) then
            match ip_address_int E ip_int with
            | Some _ => true
            | None => false
            end
          else false
      | None => false
      end
  end.

(** [NetworkUtils._resolve_hostname] (network_utils.py:115-136).  The
    result of the inner blocks is [Some ip] where the Python returns. *)
Definition _resolve_hostname (hostname : string) : IO (option string) :=
  try_catch
    (found ← try_catch
       (addrinfo ← call (Getaddrinfo hostname AF_INET)
                        (fun t => getaddrinfo E t hostname AF_INET);
        match addrinfo with
        | a :: _ => mret (Some (sockaddr_host a))
        | [] => mret None
        end)
       (fun e => bool_decide (e = gaierror))
       (fun _ => mret None);
     match found with
     | Some ip => mret (Some ip)
     | None =>
         try_catch
           (addrinfo ← call (Getaddrinfo hostname AF_INET6)
                            (fun t => getaddrinfo E t hostname AF_INET6);
            match addrinfo with
            | a :: _ => mret (Some (sockaddr_host a))
            | [] => mret None
            end)
           (fun e => bool_decide (e = gaierror))
           (fun _ => mret None)
     end)
    (fun e => bool_decide (e = gaierror) || bool_decide (e = CancelledError) || Exception e)
    (fun e =>
       logger DEBUG ("DNS解析失败 " ++ hostname ++ ": " ++ str_exn E e)%string;;
       mret None).

(** The body of the loop over [DANGEROUS_PATTERNS]
    (network_utils.py:160-162): [clean_pattern], and the test for one
    pattern. *)
Definition clean_pattern (pattern : string) : string :=
  if startswith pattern "." then slice_from 1 pattern else pattern.

Definition matches (hostname pattern : string) : bool :=
  let clean_pattern := clean_pattern pattern in
  String.eqb hostname pattern
  || endswith hostname ("." ++ clean_pattern)%string
  || startswith hostname pattern.

(** [NetworkUtils._is_safe_url_with_ip] (network_utils.py:138-175). *)
Definition _is_safe_url_with_ip (url : string) : IO (option (string * string)) :=
  try_catch
    (parsed ← of_outcome (urlparse E url);
     if negb (bool_decide (scheme parsed ∈ ["http"; "https"])) then mret None
     else
       match hostname parsed with
       | None | Some "" => mret None
       | Some hostname =>
           if _is_ip_format hostname then
             if _is_private_ip hostname then mret None
             else mret (Some (hostname, hostname))
           else if startswith hostname "[" && endswith hostname "]"
                   && _is_ip_format (slice_inner hostname) then
             if _is_private_ip (slice_inner hostname) then mret None
             else mret (Some (slice_inner hostname, hostname))
           else if existsb (matches hostname) DANGEROUS_PATTERNS then mret None
           else
             resolved_ip ← _resolve_hostname hostname;
             match resolved_ip with
             | None | Some "" => mret None
             | Some resolved_ip =>
                 if _is_private_ip resolved_ip then mret None
                 else mret (Some (resolved_ip, hostname))
             end
       end)
    Exception
    (fun e =>
       logger WARNING ("URL安全检查失败 " ++ url ++ ": " ++ str_exn E e)%string;;
       mret None).

(** aiohttp at work on a session whose connector resolves through a
    [FixedDNSResolver] built on [_safe_resolutions]
    (network_utils.py:187-197): every name it asks about goes through
    [resolve], every request it sends is recorded. *)
Fixpoint run_client (_safe_resolutions : gmap string string) (c : Client) : IO Response :=
  match c with
  | Resolve host port family k =>
      fun t =>
        let '(answer, t') := resolve _safe_resolutions host port family t in
        run_client _safe_resolutions (k answer) t'
  | Send url address k =>
      emit (Sent url address);;
      run_client _safe_resolutions k
  | Finish result => of_outcome result
  end.

(** [session.get(url)] on the session [download_image] makes
    (network_utils.py:187-198), whose resolver pins [hostname] to
    [safe_ip]. *)
Definition pinned_get (url hostname safe_ip : string) (timeout : Z) : IO Response :=
  fun t =>
    run_client {[hostname := safe_ip]} (session_get E t url timeout)
               (t ++ [Request url (hostname, safe_ip) timeout]).

(** The loop of [download_image] over the chunks of the body
    (network_utils.py:203-211): [chunks] are those still to come, [err]
    the exception the stream ends with, if any. *)
Fixpoint read_chunks (self : Self) (buffer : bytes) (chunks : list bytes)
    (err : option exn) : IO (option bytes) :=
  match chunks with
  | chunk :: rest =>
      emit (Received chunk);;
      let buffer := buffer ++ chunk in
      if len buffer >? max_size self then
        logger ERROR ("图片超过大小限制: " ++ pretty (len buffer) ++ " bytes")%string;;
        mret None
      else read_chunks self buffer rest err
  | [] =>
      match err with
      | Some e => throw e
      | None =>
          logger INFO ("成功下载图片，大小: " ++ pretty (len buffer) ++ " bytes")%string;;
          mret (Some buffer)
      end
  end.

(** [NetworkUtils.download_image] (network_utils.py:177-218). *)
Definition download_image (self : Self) (url : string) : IO (option bytes) :=
  safe_info ← _is_safe_url_with_ip url;
  match safe_info with
  | None =>
      logger WARNING ("拒绝不安全的URL: " ++ url)%string;;
      mret None
  | Some (safe_ip, hostname) =>
      try_catch
        (response ← pinned_get url hostname safe_ip (timeout self);
         if negb (status response =? 200) then
           logger ERROR ("下载失败，状态码: " ++ pretty (status response))%string;;
           mret None
         else read_chunks self [] (body response) (body_error response))
        Exception
        (fun e =>
           if bool_decide (e = TimeoutError) then
             logger ERROR ("下载超时: " ++ url)%string;;
             mret None
           else
             logger ERROR ("下载图片失败 " ++ url ++ ": " ++ str_exn E e)%string;;
             mret None)
  end.

End WithEnv.

End NetworkUtils.

(* ===================================================================== *)
(** * main.py *)
(* ===================================================================== *)

Module Main.

(** The one function of main.py that works on the characters of a message
    takes it apart at white space, so here a [str] is held as what Python
    has it as: the sequence of its code points. *)
Definition str := list N.

(** A literal of ASCII characters. *)
Definition lit (s : string) : str := N_of_ascii <$> list_ascii_of_string s.

(** [c.isspace()]: the code points Python treats as white space. *)
Definition isspace (c : N) : bool :=
  ((9 <=? c) && (c <=? 13) || (28 <=? c) && (c <=? 32) || (c =? 133) || (c =? 160)
   || (c =? 5760) || (8192 <=? c) && (c <=? 8202) || (c =? 8232) || (c =? 8233)
   || (c =? 8239) || (c =? 8287) || (c =? 12288))%N.

Fixpoint takewhile (p : N -> bool) (s : str) : str :=
  match s with
  | c :: r => if p c then c :: takewhile p r else []
  | [] => []
  end.

Fixpoint dropwhile (p : N -> bool) (s : str) : str :=
  match s with
  | c :: r => if p c then dropwhile p r else s
  | [] => []
  end.

(** [prefix] is at the start of [s]. *)
Fixpoint has_prefix (s prefix : str) : bool :=
  match prefix, s with
  | [], _ => true
  | a :: p, c :: r => (a =? c)%N && has_prefix r p
  | _ :: _, [] => false
  end.

(** [needle in s]. *)
Fixpoint contains (needle s : str) : bool :=
  has_prefix s needle ||
  match s with
  | _ :: r => contains needle r
  | [] => false
  end.

(** [s.strip()]. *)
Definition strip (s : str) : str :=
  rev (dropwhile isspace (rev (dropwhile isspace s))).

(** [s.split(sep, 1)] for a separator of one character. *)
Definition split_once (sep : N) (s : str) : list str :=
  match dropwhile (fun c => negb (c =? sep)%N) s with
  | _ :: after => [takewhile (fun c => negb (c =? sep)%N) s; after]
  | [] => [s]
  end.

(** [s.split(None, maxsplit)]: runs of white space separate the parts and
    are dropped at the start; after [maxsplit] splits the rest is one
    part, with the white space at its end kept. *)
Fixpoint split_whitespace (maxsplit : nat) (s : str) : list str :=
  match dropwhile isspace s with
  | [] => []
  | c :: r =>
      match maxsplit with
      | O => [c :: r]
      | S n =>
          takewhile (fun c => negb (isspace c)) (c :: r)
          :: split_whitespace n (dropwhile (fun c => negb (isspace c)) (c :: r))
      end
  end.

(** [FakeAIWatermarkPlugin._extract_command] (main.py:50-58). *)
Definition _extract_command (message_str : str) : str :=
  if contains (lit " @") message_str then
    strip (nth 0 (split_once 64 message_str) [])
  else if has_prefix message_str (lit "@") then
    let parts := split_whitespace 2 message_str in
    if (2 <=? length parts)%nat then strip (nth 1 parts []) else message_str
  else message_str.

End Main.

(* ===================================================================== *)
(** * Properties of the Python primitives *)
(* ===================================================================== *)

Module PySpec.
Import Py.

(** ** Binary digits *)

Lemma digits2_pos_size (p : positive) : digits2_pos p = Pos.size p.
Proof. induction p; simpl; congruence. Qed.

Lemma digits2_bounds (p : positive) :
  2 ^ (Z.pos (digits2_pos p) - 1) <= Z.pos p < 2 ^ Z.pos (digits2_pos p).
Proof.
  rewrite digits2_pos_size.
  pose proof (Pos.size_gt p) as Hgt. pose proof (Pos.size_le p) as Hle.
  apply Pos2Z.pos_lt_pos in Hgt. apply Pos2Z.pos_le_pos in Hle.
  rewrite Pos2Z.inj_pow in Hgt, Hle. change (Z.pos p~0) with (2 * Z.pos p) in Hle.
  split; [|exact Hgt].
  remember (Z.pos (Pos.size p)) as s eqn:Es.
  assert (Hs : 0 < s) by lia.
  replace s with (s - 1 + 1) in Hle by lia.
  rewrite Z.pow_add_r in Hle by lia. lia.
Qed.

Lemma digits2_unique (p : positive) (d : Z) :
  2 ^ (d - 1) <= Z.pos p < 2 ^ d -> Z.pos (digits2_pos p) = d.
Proof.
  intros [Hlo Hhi]. pose proof (digits2_bounds p) as [Blo Bhi].
  remember (Z.pos (digits2_pos p)) as s eqn:Es.
  assert (Hs : 0 < s) by lia.
  assert (Hd : 0 < d).
  { destruct (Z_lt_le_dec 0 d) as [|Hc]; [assumption|].
    destruct (Z.eq_dec d 0) as [->|Hne]; [simpl in Hhi; lia|].
    rewrite Z.pow_neg_r in Hhi by lia. lia. }
  destruct (Z.lt_trichotomy s d) as [Hlt|[Heq|Hgt]]; [|exact Heq|].
  - assert (2 ^ s <= 2 ^ (d - 1)) by (apply Z.pow_le_mono_r; lia). lia.
  - assert (2 ^ d <= 2 ^ (s - 1)) by (apply Z.pow_le_mono_r; lia). lia.
Qed.

Lemma iter_xO (p d : positive) : Z.pos (Pos.iter xO p d) = Z.pos p * 2 ^ Z.pos d.
Proof.
  induction d as [|d IH] using Pos.peano_ind.
  - simpl. lia.
  - rewrite Pos.iter_succ, Pos2Z.inj_succ, Z.pow_succ_r by lia.
    change (Z.pos (Pos.iter xO p d)~0) with (2 * Z.pos (Pos.iter xO p d)). lia.
Qed.

(** ** Shifting right with round and sticky bits *)

Lemma iter_pos_nat {A} (f : A -> A) (p : positive) (x : A) :
  SpecFloat.iter_pos f p x = Nat.iter (Pos.to_nat p) f x.
Proof.
  revert x. induction p as [p IH|p IH|]; intros x.
  - change (SpecFloat.iter_pos f p~1 x) with (SpecFloat.iter_pos f p (SpecFloat.iter_pos f p (f x))).
    rewrite !IH, Pos2Nat.inj_xI, Nat.iter_succ_r.
    replace (2 * Pos.to_nat p)%nat with (Pos.to_nat p + Pos.to_nat p)%nat by lia.
    rewrite Nat.iter_add. reflexivity.
  - change (SpecFloat.iter_pos f p~0 x) with (SpecFloat.iter_pos f p (SpecFloat.iter_pos f p x)).
    rewrite !IH, Pos2Nat.inj_xO.
    replace (2 * Pos.to_nat p)%nat with (Pos.to_nat p + Pos.to_nat p)%nat by lia.
    rewrite Nat.iter_add. reflexivity.
  - reflexivity.
Qed.

Lemma shr_1_nonneg (m : Z) (r s : bool) :
  0 <= m ->
  shr_1 (Build_shr_record m r s) = Build_shr_record (m / 2) (Z.odd m) (r || s).
Proof.
  intros Hm. destruct m as [|p|p]; [reflexivity| |lia].
  destruct p as [p|p|]; simpl shr_1; f_equal.
  - rewrite Pos2Z.inj_xI. symmetry.
    replace (2 * Z.pos p + 1) with (1 + Z.pos p * 2) by lia.
    rewrite Z.div_add by lia. reflexivity.
  - rewrite Pos2Z.inj_xO. rewrite Z.mul_comm, Z.div_mul by lia. reflexivity.
Qed.

(** After [k+1] one-bit shifts of [m]: the quotient, the last bit shifted
    out, and whether anything below it was set. *)
Lemma shr_iter (m : Z) (k : nat) :
  0 <= m ->
  exists s : bool,
    Nat.iter (S k) shr_1 (Build_shr_record m false false) =
      Build_shr_record (m / 2 ^ Z.of_nat (S k)) (Z.odd (m / 2 ^ Z.of_nat k)) s /\
    (s = false <-> m mod 2 ^ Z.of_nat k = 0).
Proof.
  intros Hm. induction k as [|k (s & E & Hs)].
  - exists false. rewrite Nat.iter_succ. change (Nat.iter 0 shr_1 ?x) with x.
    rewrite shr_1_nonneg by exact Hm.
    change (Z.of_nat 1) with 1. change (Z.of_nat 0) with 0.
    rewrite Z.pow_1_r, Z.pow_0_r, Z.div_1_r, Z.mod_1_r. split; [reflexivity|tauto].
  - rewrite Nat.iter_succ, E.
    assert (Hq : 0 <= m / 2 ^ Z.of_nat (S k)) by (apply Z.div_pos; lia).
    rewrite shr_1_nonneg by exact Hq.
    exists (Z.odd (m / 2 ^ Z.of_nat k) || s). split.
    + f_equal. rewrite Z.div_div by lia.
      rewrite (Nat2Z.inj_succ (S k)), Z.pow_succ_r by lia. f_equal. lia.
    + rewrite (Nat2Z.inj_succ k), Z.pow_succ_r by lia.
      set (t := 2 ^ Z.of_nat k) in *. assert (Ht : 0 < t) by (unfold t; lia).
      rewrite orb_false_iff, Hs.
      pose proof (Z.div_mod m t ltac:(lia)) as Edm.
      pose proof (Z.mod_pos_bound m t Ht) as Bm.
      pose proof (Z.div_mod (m / t) 2 ltac:(lia)) as Edm2.
      pose proof (Z.mod_pos_bound (m / t) 2 ltac:(lia)) as Bm2.
      rewrite <- Z.negb_even, negb_false_iff, Z.even_spec.
      split.
      * intros [[h Hh] Hz].
        replace m with (h * (2 * t)) by lia. apply Z.mod_mul. lia.
      * intros Hz.
        apply Z.mod_divide in Hz; [|lia]. destruct Hz as [h Hh].
        assert (Hm1 : m mod t = 0).
        { rewrite Hh. replace (h * (2 * t)) with (h * 2 * t) by lia. apply Z.mod_mul. lia. }
        split; [|exact Hm1].
        exists h. rewrite Hh. replace (h * (2 * t)) with (h * 2 * t) by lia.
        rewrite Z.div_mul by lia. lia.
Qed.

(** Rounding [m / 2^n] to nearest: the result is the quotient or one more,
    and one more whenever the remainder is above half. *)
Lemma shr_round (m : Z) (n : positive) :
  0 <= m ->
  let mrs := SpecFloat.iter_pos shr_1 n (Build_shr_record m false false) in
  let M1 := round_nearest_even (shr_m mrs) (loc_of_shr_record mrs) in
  m / 2 ^ Z.pos n <= M1 <= m / 2 ^ Z.pos n + 1 /\
  (2 ^ Z.pos n < 2 * (m mod 2 ^ Z.pos n) -> M1 = m / 2 ^ Z.pos n + 1).
Proof.
  intros Hm mrs M1. unfold M1, mrs. clear M1 mrs.
  rewrite iter_pos_nat.
  destruct (Pos2Nat.is_succ n) as [k Ek]. rewrite Ek.
  destruct (shr_iter m k Hm) as (s & E & Hs). rewrite E.
  assert (En : Z.pos n = Z.of_nat (S k)) by lia.
  rewrite En. clear E.
  rewrite (Nat2Z.inj_succ k), Z.pow_succ_r by lia.
  set (t := 2 ^ Z.of_nat k) in *. assert (Ht : 0 < t) by (unfold t; lia).
  rewrite (Z.mul_comm 2 t).
  rewrite Z.rem_mul_r by lia.
  rewrite <- (Z.div_div m t 2) by lia.
  pose proof (Zmod_odd (m / t)) as Hodd.
  pose proof (Z.mod_pos_bound m t Ht) as Bm.
  set (q := m / t / 2) in *.
  destruct (Z.odd (m / t)); destruct s;
    cbv beta iota delta [shr_m loc_of_shr_record round_nearest_even]; rewrite Hodd.
  - split; [lia|reflexivity].
  - split.
    + destruct (Z.even q); lia.
    + assert (m mod t = 0) by (apply Hs; reflexivity). lia.
  - split; [lia|]. lia.
  - split; [lia|]. lia.
Qed.

(** A 53-bit mantissa in range is left as it is. *)
Lemma binary_round_aux_canonical (m : positive) (e : Z) :
  Z.pos (digits2_pos m) = 53 -> -1074 <= e <= 971 ->
  binary_round_aux prec emax false (Z.pos m) e loc_Exact = S754_finite false m e.
Proof.
  intros Hd He. unfold binary_round_aux.
  assert (Hshr : shr_fexp prec emax (Z.pos m) e loc_Exact =
                 (Build_shr_record (Z.pos m) false false, e)).
  { unfold shr_fexp, Zdigits2. rewrite Hd. unfold fexp, SpecFloat.emin, prec, emax.
    replace (Z.max (53 + e - 53) (3 - 1024 - 53) - e) with 0 by lia. reflexivity. }
  rewrite Hshr. cbv beta iota. simpl shr_m. simpl loc_of_shr_record.
  simpl round_nearest_even. rewrite Hshr. cbv beta iota. simpl shr_m.
  unfold prec, emax.
  destruct (Z.leb_spec e (1024 - 53)); [reflexivity|lia].
Qed.

(** Rounding a mantissa of [53 + n] bits: the result holds the nearest
    53-bit mantissa [M1], at exponent [e + n], or its half one higher. *)
Lemma binary_round_aux_nearest (m n : positive) (e : Z) :
  Z.pos (digits2_pos m) = 53 + Z.pos n ->
  -1074 <= e + Z.pos n -> e + Z.pos n + 1 <= 971 ->
  exists (m1 : positive) (e1 M1 : Z),
    binary_round_aux prec emax false (Z.pos m) e loc_Exact = S754_finite false m1 e1 /\
    ((e1 = e + Z.pos n /\ Z.pos m1 = M1) \/ (e1 = e + Z.pos n + 1 /\ 2 * Z.pos m1 = M1)) /\
    Z.pos m / 2 ^ Z.pos n <= M1 <= Z.pos m / 2 ^ Z.pos n + 1 /\
    (2 ^ Z.pos n < 2 * (Z.pos m mod 2 ^ Z.pos n) -> M1 = Z.pos m / 2 ^ Z.pos n + 1).
Proof.
  intros Hd Hlo Hhi. unfold binary_round_aux.
  assert (Hshr : shr_fexp prec emax (Z.pos m) e loc_Exact =
                 (SpecFloat.iter_pos shr_1 n (Build_shr_record (Z.pos m) false false), e + Z.pos n)).
  { unfold shr_fexp, Zdigits2. rewrite Hd. unfold fexp, SpecFloat.emin, prec, emax.
    replace (Z.max (53 + Z.pos n + e - 53) (3 - 1024 - 53) - e) with (Z.pos n) by lia.
    reflexivity. }
  rewrite Hshr. cbv beta iota.
  destruct (shr_round (Z.pos m) n ltac:(lia)) as [Hb Hup].
  set (M1 := round_nearest_even _ _) in *.
  pose proof (digits2_bounds m) as Bm. rewrite Hd in Bm.
  replace (53 + Z.pos n - 1) with (52 + Z.pos n) in Bm by lia.
  rewrite !Z.pow_add_r in Bm by lia.
  set (t := 2 ^ Z.pos n) in *. assert (Ht : 0 < t) by (unfold t; lia).
  assert (Hq : 2 ^ 52 <= Z.pos m / t < 2 ^ 53).
  { split; [apply Z.div_le_lower_bound; lia|apply Z.div_lt_upper_bound; lia]. }
  destruct (Z_lt_le_dec M1 (2 ^ 53)) as [Hlt|Hge].
  - (* no carry *)
    destruct M1 as [|m1|m1] eqn:EM; try lia.
    assert (Hd1 : Z.pos (digits2_pos m1) = 53) by (apply digits2_unique; lia).
    pose proof (binary_round_aux_canonical m1 (e + Z.pos n) Hd1 ltac:(lia)) as Hc.
    unfold binary_round_aux in Hc.
    assert (Hshr1 : shr_fexp prec emax (Z.pos m1) (e + Z.pos n) loc_Exact =
                   (Build_shr_record (Z.pos m1) false false, e + Z.pos n)).
    { unfold shr_fexp, Zdigits2. rewrite Hd1. unfold fexp, SpecFloat.emin, prec, emax.
      replace (Z.max (53 + (e + Z.pos n) - 53) (3 - 1024 - 53) - (e + Z.pos n)) with 0 by lia.
      reflexivity. }
    rewrite Hshr1. cbv beta iota. simpl shr_m. unfold prec, emax.
    destruct (Z.leb_spec (e + Z.pos n) (1024 - 53)); [|lia].
    exists m1, (e + Z.pos n), (Z.pos m1). repeat split; try lia; auto.
  - (* the mantissa rounded up to 2^53 *)
    assert (EM : M1 = 2 ^ 53) by lia.
    rewrite EM in *.
    assert (Hshr1 : shr_fexp prec emax (2 ^ 53) (e + Z.pos n) loc_Exact =
                   (Build_shr_record (2 ^ 52) false false, e + Z.pos n + 1)).
    { unfold shr_fexp. change (Zdigits2 (2 ^ 53)) with 54.
      unfold fexp, SpecFloat.emin, prec, emax.
      replace (Z.max (54 + (e + Z.pos n) - 53) (3 - 1024 - 53) - (e + Z.pos n)) with 1 by lia.
      reflexivity. }
    rewrite Hshr1. cbv beta iota. simpl shr_m. unfold prec, emax.
    change (2 ^ 52) with (Z.pos 4503599627370496).
    destruct (Z.leb_spec (e + Z.pos n + 1) (1024 - 53)); [|lia].
    exists 4503599627370496%positive, (e + Z.pos n + 1), (2 ^ 53).
    repeat split; try lia; auto.
Qed.

(** The float of a positive integer below 2^53: its 53-bit mantissa and
    exponent. *)
Lemma binary_normalize_int (p : positive) :
  Z.pos p < 2 ^ 53 ->
  exists (mn : positive) (a : Z),
    binary_normalize prec emax (Z.pos p) 0 false = S754_finite false mn (- a) /\
    Z.pos (digits2_pos mn) = 53 /\ 0 <= a <= 52 /\ Z.pos mn = Z.pos p * 2 ^ a.
Proof.
  intros Hp. pose proof (digits2_bounds p) as Bp.
  set (d := Z.pos (digits2_pos p)) in *.
  assert (Hd : 1 <= d <= 53).
  { split; [unfold d; lia|].
    destruct (Z_lt_le_dec 53 d) as [Hc|]; [|assumption].
    assert (2 ^ 53 <= 2 ^ (d - 1)) by (apply Z.pow_le_mono_r; lia). lia. }
  unfold binary_normalize, binary_round, shl_align. fold d.
  unfold fexp, SpecFloat.emin, prec, emax.
  replace (Z.max (d + 0 - 53) (3 - 1024 - 53) - 0) with (d - 53) by lia.
  destruct (d - 53) as [|x|x] eqn:Ex; try lia.
  - exists p, 0. change (- 0) with 0. split; [|split; [|split]]; try lia.
    apply binary_round_aux_canonical; lia.
  - replace (Z.max (d + 0 - 53) (3 - 1024 - 53)) with (- Z.pos x) by lia.
    assert (Hm : Z.pos (Pos.iter xO p x) = Z.pos p * 2 ^ Z.pos x) by apply iter_xO.
    assert (Hdig : Z.pos (digits2_pos (Pos.iter xO p x)) = 53).
    { apply digits2_unique. rewrite Hm.
      replace 53 with (d + Z.pos x) at 2 by lia.
      replace (53 - 1) with (d - 1 + Z.pos x) by lia.
      rewrite !Z.pow_add_r by lia.
      assert (0 < 2 ^ Z.pos x) by lia. nia. }
    exists (Pos.iter xO p x), (Z.pos x). split; [|split; [|split]]; try lia.
    apply binary_round_aux_canonical; lia.
Qed.

Lemma shiftl_neg_unique (m k T : Z) :
  0 <= T -> k * 2 ^ T <= m < (k + 1) * 2 ^ T -> Z.shiftl m (- T) = k.
Proof.
  intros HT Hb. rewrite Z.shiftl_opp_r, Z.shiftr_div_pow2 by lia.
  assert (0 < 2 ^ T) by lia.
  symmetry. apply (Z.div_unique m (2 ^ T) k (m - k * 2 ^ T)); lia.
Qed.

(** The integer part of the product of a positive integer [p] and a float
    constant [M * 2^ec].  [u] is the number of bits the product [p * M] has
    beyond 53; the hypothesis on [M1] says that the nearest 53-bit mantissa
    of [p * M] lies in [k * 2^T, (k+1) * 2^T), for [T = - ec - u]. *)
Lemma mul_trunc (p M : positive) (ec u k : Z) :
  Z.pos p < 2 ^ 53 ->
  Z.pos (digits2_pos M) = 53 ->
  Z.pos (digits2_pos (p * M)) = 53 + u ->
  1 <= - ec - u -> - ec - u <= 1074 ->
  (forall M1 : Z,
     Z.pos (p * M) / 2 ^ u <= M1 <= Z.pos (p * M) / 2 ^ u + 1 ->
     (2 ^ u < 2 * (Z.pos (p * M) mod 2 ^ u) -> M1 = Z.pos (p * M) / 2 ^ u + 1) ->
     k * 2 ^ (- ec - u) <= M1 < (k + 1) * 2 ^ (- ec - u)) ->
  exists (m1 : positive) (e1 : Z),
    SFmul prec emax (binary_normalize prec emax (Z.pos p) 0 false) (S754_finite false M ec)
      = S754_finite false m1 e1 /\
    Z.shiftl (Z.pos m1) e1 = k.
Proof.
  intros Hp HdM Hdpm HT1 HT2 Hnum.
  destruct (binary_normalize_int p Hp) as (mn & a & -> & Hdn & Ha & Emn).
  unfold SFmul. change (xorb false false) with false.
  (* digits of the product of the two mantissas *)
  assert (Hu : 0 <= u).
  { pose proof (digits2_bounds M) as BM. rewrite HdM in BM.
    pose proof (digits2_bounds (p * M)) as BP. rewrite Hdpm in BP.
    destruct (Z_lt_le_dec u 0) as [Hc|]; [|assumption].
    assert (2 ^ (53 + u) <= 2 ^ 52) by (apply Z.pow_le_mono_r; lia).
    rewrite Pos2Z.inj_mul in BP. nia. }
  assert (EP : Z.pos (mn * M) = Z.pos (p * M) * 2 ^ a).
  { rewrite !Pos2Z.inj_mul, Emn. ring. }
  assert (Hua : 1 <= u + a).
  { pose proof (digits2_bounds M) as BM. rewrite HdM in BM.
    pose proof (digits2_bounds mn) as Bn. rewrite Hdn in Bn.
    pose proof (digits2_bounds (p * M)) as BP. rewrite Hdpm in BP.
    destruct (Z_lt_le_dec (u + a) 1) as [Hc|]; [|lia].
    assert (u = 0 /\ a = 0) as [-> ->] by lia.
    rewrite Z.pow_0_r, Z.mul_1_r in Emn. rewrite Pos2Z.inj_mul in BP.
    simpl in BP.
    assert (2 ^ 52 * 2 ^ 52 <= Z.pos p * Z.pos M) by nia. simpl in *. lia. }
  destruct (u + a) as [|n|n] eqn:En; try lia.
  assert (HdP : Z.pos (digits2_pos (mn * M)) = 53 + Z.pos n).
  { apply digits2_unique. rewrite EP.
    pose proof (digits2_bounds (p * M)) as BP. rewrite Hdpm in BP.
    replace (53 + Z.pos n) with (53 + u + a) by lia.
    replace (53 + u + a - 1) with (53 + u - 1 + a) by lia.
    rewrite (Z.pow_add_r 2 (53 + u) a), (Z.pow_add_r 2 (53 + u - 1) a) by lia.
    assert (0 < 2 ^ a) by lia. nia. }
  destruct (binary_round_aux_nearest (mn * M) n (- a + ec) HdP ltac:(lia) ltac:(lia))
    as (m1 & e1 & M1 & -> & Hcase & Hb & Hup).
  exists m1, e1. split; [reflexivity|].
  (* the quotient and remainder, freed of the normalisation 2^a *)
  assert (Ht : 2 ^ Z.pos n = 2 ^ u * 2 ^ a) by (rewrite <- En, Z.pow_add_r by lia; ring).
  assert (Hpa : 0 < 2 ^ a) by lia. assert (Hpu : 0 < 2 ^ u) by lia.
  assert (Eq : Z.pos (mn * M) / 2 ^ Z.pos n = Z.pos (p * M) / 2 ^ u).
  { rewrite EP, Ht. apply Z.div_mul_cancel_r; lia. }
  assert (Er : Z.pos (mn * M) mod 2 ^ Z.pos n = (Z.pos (p * M) mod 2 ^ u) * 2 ^ a).
  { rewrite EP, Ht. apply Z.mul_mod_distr_r; lia. }
  rewrite Eq in Hb, Hup. rewrite Er, Ht in Hup.
  assert (HM1 : k * 2 ^ (- ec - u) <= M1 < (k + 1) * 2 ^ (- ec - u)).
  { apply Hnum; [exact Hb|]. intros Hhalf. apply Hup. nia. }
  set (T := - ec - u) in *.
  destruct Hcase as [[-> EM]|[-> EM]].
  - replace (- a + ec + Z.pos n) with (- T) by (unfold T; lia).
    apply shiftl_neg_unique; lia.
  - replace (- a + ec + Z.pos n + 1) with (- (T - 1)) by (unfold T; lia).
    apply shiftl_neg_unique; [lia|].
    replace (2 ^ T) with (2 * 2 ^ (T - 1)) in HM1
      by (rewrite <- Z.pow_succ_r by lia; f_equal; lia).
    lia.
Qed.

Lemma float_of_int_small (n : Z) :
  0 <= n < 9223372036854775808 -> float_of_int n = Return (of_uint63 (of_Z n)).
Proof.
  intros [H0 H1]. unfold float_of_int.
  rewrite (proj2 (Z.leb_le 0 n) H0), (proj2 (Z.ltb_lt _ _) H1). reflexivity.
Qed.

(** [int(n * c)] for a positive int [n] and a positive float constant
    [c = M * 2^ec], from the integer part of the rounded product. *)
Lemma int_mul_float_trunc (n M : positive) (ec k : Z) (c : float) :
  Z.pos n < 9223372036854775808 ->
  Prim2SF c = S754_finite false M ec ->
  (exists (m1 : positive) (e1 : Z),
     SFmul prec emax (binary_normalize prec emax (Z.pos n) 0 false) (S754_finite false M ec)
       = S754_finite false m1 e1 /\
     Z.shiftl (Z.pos m1) e1 = k) ->
  obind (int_mul_float (Z.pos n) c) int_of_float = Return k.
Proof.
  intros Hn Hc (m1 & e1 & Hmul & Hk).
  unfold int_mul_float. rewrite float_of_int_small by lia.
  cbv beta iota delta [obind].
  unfold int_of_float. rewrite FloatAxioms.mul_spec, of_uint63_spec, Hc.
  rewrite Uint63.of_Z_spec, Z.mod_small
    by (change wB with 9223372036854775808; lia).
  unfold SF64mul. rewrite Hmul. rewrite Hk. reflexivity.
Qed.

Lemma int_of_float_floor (f : float) :
  sign_clear (Prim2SF f) -> int_of_float f = float_floor f.
Proof.
  unfold int_of_float, float_floor. destruct (Prim2SF f); simpl; try reflexivity.
  intros ->. reflexivity.
Qed.

Lemma binary_round_aux_sign (sx : bool) (mx ex : Z) (lx : location) :
  match binary_round_aux prec emax sx mx ex lx with
  | S754_zero s | S754_infinity s | S754_finite s _ _ => s = sx
  | S754_nan => True
  end.
Proof.
  unfold binary_round_aux.
  destruct (shr_fexp prec emax mx ex lx) as [mrs' e'].
  destruct (shr_fexp prec emax _ e' loc_Exact) as [mrs'' e''].
  destruct (shr_m mrs''); [reflexivity| |exact I].
  destruct (e'' <=? emax - prec); reflexivity.
Qed.

Lemma of_uint63_sign_clear (i : int) : sign_clear (Prim2SF (of_uint63 i)).
Proof.
  rewrite of_uint63_spec. unfold binary_normalize.
  pose proof (to_Z_bounded i) as Hb.
  destruct (to_Z i) as [|p|p]; [reflexivity| |lia].
  unfold binary_round. destruct (shl_align _ _ _) as [mz ez].
  pose proof (binary_round_aux_sign false (Z.pos mz) ez loc_Exact) as H.
  unfold sign_clear. destruct (binary_round_aux _ _ _ _ _ _); exact H.
Qed.

Lemma positive_float_sign (c : float) :
  (0 <? c)%float = true ->
  exists s, Prim2SF c = s /\
    match s with
    | S754_infinity false | S754_finite false _ _ => True
    | _ => False
    end.
Proof.
  rewrite FloatAxioms.ltb_spec. change (Prim2SF 0) with (S754_zero false).
  unfold SFltb, SFcompare. intros H. exists (Prim2SF c). split; [reflexivity|].
  destruct (Prim2SF c) as [s|s| |s m e]; try discriminate; destruct s; try discriminate; exact I.
Qed.

Lemma div_sign_clear (x c : float) :
  sign_clear (Prim2SF x) -> (0 <? c)%float = true -> sign_clear (Prim2SF (x / c)).
Proof.
  intros Hx Hc. rewrite FloatAxioms.div_spec.
  destruct (positive_float_sign c Hc) as (s & -> & Hs).
  unfold SF64div, SFdiv.
  destruct (Prim2SF x) as [sx|sx| |sx mx ex]; simpl in Hx; subst;
    destruct s as [sy|sy| |sy my ey]; try destruct sy; try contradiction; try exact I;
    try reflexivity.
  destruct (SFdiv_core_binary prec emax (Z.pos mx) ex (Z.pos my) ey) as [[mz ez] lz].
  pose proof (binary_round_aux_sign (xorb false false) mz ez lz) as H.
  unfold sign_clear. destruct (binary_round_aux _ _ _ _ _ _); exact H.
Qed.

Lemma int_div_float_floor (n : Z) (c : float) :
  0 <= n < 9223372036854775808 -> (0 <? c)%float = true ->
  obind (int_div_float n c) int_of_float = obind (int_div_float n c) float_floor.
Proof.
  intros Hn Hc. unfold int_div_float. rewrite float_of_int_small by exact Hn.
  simpl. destruct (PrimFloat.is_zero c); [reflexivity|]. simpl.
  apply int_of_float_floor, div_sign_clear; [apply of_uint63_sign_clear|exact Hc].
Qed.

End PySpec.

(* ===================================================================== *)
(** * Properties of utils/file_utils.py *)
(* ===================================================================== *)

Module FileUtilsSpec.
Import Py FileUtils.

Lemma byte_eqb_eq (x y : byte) : byte_eqb x y = true <-> x = y.
Proof.
  unfold byte_eqb. split.
  - apply Byte.byte_dec_bl.
  - apply Byte.byte_dec_lb.
Qed.

Lemma bytes_eqb_eq (x y : bytes) : bytes_eqb x y = true <-> x = y.
Proof.
  revert y. induction x as [|a x IH]; intros [|c y]; simpl; try (split; congruence).
  rewrite andb_true_iff, byte_eqb_eq, IH. split.
  - intros [-> ->]; reflexivity.
  - intros [= -> ->]; auto.
Qed.

Lemma bytes_eqb_refl (x : bytes) : bytes_eqb x x = true.
Proof. apply bytes_eqb_eq; reflexivity. Qed.

(** A slice that lies inside [d] is untouched by whatever follows [d]. *)
Lemma slice_app_l {A} (i j : nat) (d t : list A) :
  (j <= length d)%nat -> slice i j (d ++ t) = slice i j d.
Proof.
  intros Hj. unfold slice.
  destruct (decide (i <= length d)%nat) as [Hi|Hi].
  - rewrite drop_app_le by exact Hi.
    rewrite take_app_le; [reflexivity|]. rewrite length_drop. lia.
  - replace (j - i)%nat with 0%nat by lia. reflexivity.
Qed.

(** A slice from the start of data that begins with [p] and has [p]'s
    length is [p]. *)
Lemma slice_prefix (p d : bytes) n :
  p `prefix_of` d -> n = length p -> slice 0 n d = p.
Proof.
  intros [k ->] ->. unfold slice. rewrite drop_0, Nat.sub_0_r.
  rewrite take_app_length. reflexivity.
Qed.

Lemma len_lt_12 {A} (d : list A) : (len d <? 12) = false <-> (12 <= length d)%nat.
Proof. unfold len. rewrite Z.ltb_ge. lia. Qed.

(** Data of at least twelve bytes, opened up to its first twelve. *)
Lemma twelve_bytes (d : bytes) :
  (12 <= length d)%nat ->
  exists b0 b1 b2 b3 b4 b5 b6 b7 b8 b9 b10 b11 rest,
    d = b0 :: b1 :: b2 :: b3 :: b4 :: b5 :: b6 :: b7 :: b8 :: b9 :: b10 :: b11 :: rest.
Proof.
  intros H.
  do 12 (destruct d as [|? d]; [simpl in H; lia|]).
  repeat eexists.
Qed.

(** Past the length guard, the detector reads nothing but [data[:12]]. *)
Lemma detect_reads_first_12 (d : bytes) :
  (12 <= length d)%nat ->
  detect_image_format_by_magic d = detect_image_format_by_magic (take 12 d).
Proof.
  intros H. destruct (twelve_bytes d H) as (b0&b1&b2&b3&b4&b5&b6&b7&b8&b9&b10&b11&rest&->).
  unfold detect_image_format_by_magic.
  rewrite (proj2 (len_lt_12 _)) by exact H.
  rewrite (proj2 (len_lt_12 _)) by (simpl; lia).
  reflexivity.
Qed.

Ltac open_prefix H :=
  let k := fresh "k" in
  destruct H as [k H]; simpl in H; injection H as -> ?; subst.

Lemma detect_gif87 (d : bytes) :
  (12 <= length d)%nat -> b "GIF87a" `prefix_of` d ->
  detect_image_format_by_magic d = Some ".gif".
Proof.
  intros H P. unfold detect_image_format_by_magic.
  rewrite (proj2 (len_lt_12 _)) by exact H.
  rewrite (slice_prefix _ _ 6 P eq_refl). reflexivity.
Qed.

Lemma detect_gif89 (d : bytes) :
  (12 <= length d)%nat -> b "GIF89a" `prefix_of` d ->
  detect_image_format_by_magic d = Some ".gif".
Proof.
  intros H P. unfold detect_image_format_by_magic.
  rewrite (proj2 (len_lt_12 _)) by exact H.
  rewrite (slice_prefix _ _ 6 P eq_refl). reflexivity.
Qed.

Lemma detect_png (d : bytes) :
  (12 <= length d)%nat -> [x89; x50; x4e; x47; x0d; x0a; x1a; x0a] `prefix_of` d ->
  detect_image_format_by_magic d = Some ".png".
Proof.
  intros H [k ->]. unfold detect_image_format_by_magic.
  rewrite (proj2 (len_lt_12 _)) by exact H. reflexivity.
Qed.

Lemma detect_jpeg (d : bytes) :
  (12 <= length d)%nat -> [xff; xd8; xff] `prefix_of` d ->
  detect_image_format_by_magic d = Some ".jpg".
Proof.
  intros H [k ->]. unfold detect_image_format_by_magic.
  rewrite (proj2 (len_lt_12 _)) by exact H.
  reflexivity.
Qed.

Lemma detect_webp (d : bytes) (s0 s1 s2 s3 : byte) :
  b "RIFF" ++ [s0; s1; s2; s3] ++ b "WEBP" `prefix_of` d ->
  detect_image_format_by_magic d = Some ".webp".
Proof.
  intros [k ->]. unfold detect_image_format_by_magic.
  rewrite (proj2 (len_lt_12 _)) by (rewrite length_app; simpl; lia).
  reflexivity.
Qed.

Lemma detect_bmp (d : bytes) :
  (12 <= length d)%nat -> b "BM" `prefix_of` d ->
  detect_image_format_by_magic d = Some ".bmp".
Proof.
  intros H [k ->]. unfold detect_image_format_by_magic.
  rewrite (proj2 (len_lt_12 _)) by exact H.
  reflexivity.
Qed.

(** C5.  Format detection is a function of the bytes alone (a Rocq
    function: total, and with no state to read).  Fewer than twelve bytes
    give no format; twelve or more that begin with a GIF, PNG, JPEG, WEBP
    or BMP signature give that format; and the answer depends on the first
    twelve bytes only, so nothing that follows them can change it. *)
Theorem C5_format_sniffing :
  (forall d : bytes, (length d < 12)%nat -> detect_image_format_by_magic d = None) /\
  (forall d : bytes, (12 <= length d)%nat ->
     (b "GIF87a" `prefix_of` d \/ b "GIF89a" `prefix_of` d ->
        detect_image_format_by_magic d = Some ".gif") /\
     ([x89; x50; x4e; x47; x0d; x0a; x1a; x0a] `prefix_of` d ->
        detect_image_format_by_magic d = Some ".png") /\
     ([xff; xd8; xff] `prefix_of` d ->
        detect_image_format_by_magic d = Some ".jpg") /\
     ((exists s0 s1 s2 s3, b "RIFF" ++ [s0; s1; s2; s3] ++ b "WEBP" `prefix_of` d) ->
        detect_image_format_by_magic d = Some ".webp") /\
     (b "BM" `prefix_of` d ->
        detect_image_format_by_magic d = Some ".bmp")) /\
  (forall d d' : bytes, (12 <= length d)%nat -> (12 <= length d')%nat ->
     take 12 d = take 12 d' ->
     detect_image_format_by_magic d = detect_image_format_by_magic d') /\
  (forall d t : bytes, (12 <= length d)%nat ->
     detect_image_format_by_magic (d ++ t) = detect_image_format_by_magic d).
Proof.
  split; [|split; [|split]].
  - intros d H. unfold detect_image_format_by_magic, len.
    destruct (Z.ltb_spec (Z.of_nat (length d)) 12); [reflexivity|lia].
  - intros d H. repeat split.
    + intros [P|P]; [apply detect_gif87|apply detect_gif89]; assumption.
    + apply detect_png, H.
    + apply detect_jpeg, H.
    + intros (s0 & s1 & s2 & s3 & P). apply (detect_webp d s0 s1 s2 s3 P).
    + apply detect_bmp, H.
  - intros d d' H H' E.
    rewrite (detect_reads_first_12 d H), (detect_reads_first_12 d' H'), E. reflexivity.
  - intros d t H.
    rewrite (detect_reads_first_12 (d ++ t)) by (rewrite length_app; lia).
    rewrite (detect_reads_first_12 d H).
    rewrite take_app_le by exact H. reflexivity.
Qed.

End FileUtilsSpec.

(* ===================================================================== *)
(** * Reasoning about the object store *)
(* ===================================================================== *)

Module PILSpec.
Import Py PIL.

Lemma bind_return {A B} (m : M A) (k : A -> M B) (w w' : World) (a : A) :
  m w = (Return a, w') -> (m ≫= k) w = k a w'.
Proof. intros E. unfold mbind, M_bind. rewrite E. reflexivity. Qed.

Lemma bind_raise {A B} (m : M A) (k : A -> M B) (w w' : World) (e : exn) :
  m w = (Raise e, w') -> (m ≫= k) w = (Raise e, w').
Proof. intros E. unfold mbind, M_bind. rewrite E. reflexivity. Qed.

Lemma bind_assoc {A B C} (m : M A) (k : A -> M B) (k' : B -> M C) (w : World) :
  ((m ≫= k) ≫= k') w = (m ≫= (fun a => k a ≫= k')) w.
Proof. unfold mbind, M_bind. destruct (m w) as [[a|e] w']; reflexivity. Qed.

Lemma bind_mret {A B} (a : A) (k : A -> M B) (w : World) : (mret a ≫= k) w = k a w.
Proof. reflexivity. Qed.

Lemma bind_lift_return {A B} (a : A) (k : A -> M B) (w : World) :
  (lift (Return a) ≫= k) w = k a w.
Proof. reflexivity. Qed.

Lemma bind_lift_raise {A B} (e : exn) (k : A -> M B) (w : World) :
  (lift (Raise e) ≫= k) w = (Raise e, w).
Proof. reflexivity. Qed.

Lemma bind_log {B} (l : Level) (msg : string) (k : unit -> M B) (w : World) :
  (log l msg ≫= k) w = k tt (mkWorld (store w) (logs w ++ [(l, msg)])).
Proof. reflexivity. Qed.

Lemma bind_deref {B} (r : ref) (k : Image -> M B) (w : World) (im : Image) :
  store w !! r = Some im -> (deref r ≫= k) w = k im w.
Proof. intros E. unfold mbind, M_bind, deref. rewrite E. reflexivity. Qed.

Lemma bind_assign {B} (r : ref) (im old : Image) (k : unit -> M B) (w : World) :
  store w !! r = Some old ->
  (assign r im ≫= k) w = k tt (mkWorld (<[r := im]> (store w)) (logs w)).
Proof. intros E. unfold mbind, M_bind, assign. rewrite E. reflexivity. Qed.

Lemma deref_run (r : ref) (w : World) (im : Image) :
  store w !! r = Some im -> deref r w = (Return im, w).
Proof. intros E. unfold deref. rewrite E. reflexivity. Qed.

Lemma lift_run {A} (o : outcome A) (w : World) : lift o w = (o, w).
Proof. reflexivity. Qed.

(** A new object takes an identity unused so far and leaves every other
    object as it was. *)
Lemma alloc_run (im : Image) (w : World) :
  exists r, store w !! r = None /\
    alloc im w = (Return r, mkWorld (<[r := im]> (store w)) (logs w)).
Proof.
  exists (fresh (dom (store w))). split; [|reflexivity].
  apply not_elem_of_dom, is_fresh.
Qed.

Lemma assign_run (r : ref) (im old : Image) (w : World) :
  store w !! r = Some old ->
  assign r im w = (Return tt, mkWorld (<[r := im]> (store w)) (logs w)).
Proof. intros E. unfold assign. rewrite E. reflexivity. Qed.

(** One step of a run: the computation at the head of the goal's run is
    brought to the front and executed, with the facts in the context. *)
Ltac mstep :=
  first
    [ rewrite bind_assoc
    | rewrite bind_mret
    | rewrite bind_lift_return
    | rewrite bind_lift_raise
    | rewrite bind_log
    | match goal with
      | E : ?o = Return _ |- context [lift ?o] => rewrite E
      | E : ?o = Raise _ |- context [lift ?o] => rewrite E
      | H : store ?w !! ?r = Some _ |- context [(deref ?r ≫= _) ?w] =>
          rewrite (bind_deref _ _ _ _ H)
      | E : alloc ?c ?w = (Return _, _) |- context [(alloc ?c ≫= _) ?w] =>
          rewrite (bind_return _ _ _ _ _ E)
      | H : store ?w !! ?r = Some _ |- context [(assign ?r _ ≫= _) ?w] =>
          rewrite (bind_assign _ _ _ _ _ H)
      end ].

Ltac mrun := repeat mstep.

Section Runs.
Context (K : Kernels).

Lemma copy_run (r : ref) (c : Image) (w : World) :
  store w !! r = Some c ->
  exists r', store w !! r' = None /\
    copy r w = (Return r', mkWorld (<[r' := c]> (store w)) (logs w)).
Proof.
  intros E. destruct (alloc_run c w) as (r' & Hr' & Ha).
  exists r'. split; [exact Hr'|].
  unfold copy. rewrite (bind_return _ _ _ _ _ (deref_run _ _ _ E)). exact Ha.
Qed.

Lemma convert_run (r : ref) (m : Mode) (c : Image) (w : World) :
  store w !! r = Some c ->
  exists r', store w !! r' = None /\
    convert K r m w =
      (Return r', mkWorld (<[r' := convert_image K m c]> (store w)) (logs w)).
Proof.
  intros E. destruct (alloc_run (convert_image K m c) w) as (r' & Hr' & Ha).
  exists r'. split; [exact Hr'|].
  unfold convert. rewrite (bind_return _ _ _ _ _ (deref_run _ _ _ E)). exact Ha.
Qed.

Lemma resize_run (r : ref) (sz : Z * Z) (c : Image) (w : World) :
  store w !! r = Some c ->
  match resize_image K sz c with
  | Return c' =>
      exists r', store w !! r' = None /\
        resize K r sz w = (Return r', mkWorld (<[r' := c']> (store w)) (logs w))
  | Raise e => resize K r sz w = (Raise e, w)
  end.
Proof.
  intros E. unfold resize.
  rewrite (bind_return _ _ _ _ _ (deref_run _ _ _ E)).
  destruct (resize_image K sz c) as [c'|e] eqn:Ec.
  - destruct (alloc_run c' w) as (r' & Hr' & Ha).
    exists r'. split; [exact Hr'|].
    rewrite (bind_return _ _ _ _ _ (lift_run _ _)). exact Ha.
  - rewrite (bind_raise _ _ _ _ _ (lift_run _ _)). reflexivity.
Qed.

Lemma paste_run (r src mask : ref) (box : Z * Z) (c s m : Image) (w : World) :
  store w !! r = Some c -> store w !! src = Some s -> store w !! mask = Some m ->
  paste K r src box mask w =
    (Return tt, mkWorld (<[r := paste_image K c s box m]> (store w)) (logs w)).
Proof.
  intros Er Es Em. unfold paste.
  rewrite (bind_return _ _ _ _ _ (deref_run _ _ _ Er)).
  rewrite (bind_return _ _ _ _ _ (deref_run _ _ _ Es)).
  rewrite (bind_return _ _ _ _ _ (deref_run _ _ _ Em)).
  apply (assign_run _ _ _ _ Er).
Qed.

Lemma convert_image_mode (m : Mode) (im : Image) : mode (convert_image K m im) = m.
Proof.
  unfold convert_image. case_decide as Hm; [exact Hm|].
  destruct (mode im), m; reflexivity.
Qed.

Lemma convert_image_size (m : Mode) (im : Image) :
  size (convert_image K m im) = size im.
Proof.
  unfold convert_image. case_decide; [reflexivity|].
  destruct (mode im), m; reflexivity.
Qed.

Lemma convert_image_same (m : Mode) (im : Image) :
  mode im = m -> convert_image K m im = im.
Proof. intros Hm. unfold convert_image. rewrite decide_True by exact Hm. reflexivity. Qed.

End Runs.

End PILSpec.

(* ===================================================================== *)
(** * Properties of core/image_processor.py *)
(* ===================================================================== *)

Module ImageProcessorSpec.
Import Py PIL ImageProcessor.

(** ** The safety gate *)

(** What a run of the gate on [img] did, read off its final world. *)
Definition gate_verdict (img : Image) (w : World) : option bool :=
  match fst (check_image_safety img w) with
  | Return (ok, _) => Some ok
  | Raise _ => None
  end.

Definition gate_new_logs (img : Image) (w : World) : list (Level * string) :=
  drop (length (logs w)) (logs (snd (check_image_safety img w))).

Definition is_warning (l : Level * string) : bool :=
  match fst l with WARNING => true | _ => false end.

Lemma check_image_safety_cases (img : Image) (w : World) :
  let pixels := width img * height img in
  (10000 * 10000 < pixels ->
     gate_verdict img w = Some false /\ gate_new_logs img w = []) /\
  (5000 * 5000 < pixels <= 10000 * 10000 ->
     gate_verdict img w = Some true /\
     exists msg, gate_new_logs img w = [(WARNING, msg)]) /\
  (pixels <= 5000 * 5000 ->
     gate_verdict img w = Some true /\ gate_new_logs img w = []).
Proof.
  intros pixels. unfold gate_verdict, gate_new_logs, check_image_safety.
  fold pixels. unfold MAX_IMAGE_PIXELS, WARNING_PIXELS.
  repeat split.
  - destruct (Z.gtb_spec pixels (10000 * 10000)); [reflexivity | lia].
  - destruct (Z.gtb_spec pixels (10000 * 10000)); [|lia].
    simpl. rewrite drop_all. reflexivity.
  - destruct (Z.gtb_spec pixels (10000 * 10000)); [lia|].
    destruct (Z.gtb_spec pixels (5000 * 5000)); [|lia]. reflexivity.
  - destruct (Z.gtb_spec pixels (10000 * 10000)); [lia|].
    destruct (Z.gtb_spec pixels (5000 * 5000)); [|lia].
    eexists. unfold mbind, M_bind, log. simpl. rewrite drop_app_length. reflexivity.
  - destruct (Z.gtb_spec pixels (10000 * 10000)); [lia|].
    destruct (Z.gtb_spec pixels (5000 * 5000)); [lia|]. reflexivity.
  - destruct (Z.gtb_spec pixels (10000 * 10000)); [lia|].
    destruct (Z.gtb_spec pixels (5000 * 5000)); [lia|].
    cbn. rewrite drop_all. reflexivity.
Qed.

(** C4.  The safety gate rejects exactly the images of more than
    10000*10000 pixels and accepts all others; between 5000*5000 (excluded)
    and 10000*10000 (included) it accepts and logs one warning.  So
    10001x10000 is rejected, 10000x10000 is accepted, and 5001x5000 is
    accepted with a warning. *)
Theorem C4_safety_gate :
  (forall (img : Image) (w : World),
     (gate_verdict img w = Some false <-> 10000 * 10000 < width img * height img) /\
     (gate_verdict img w = Some true <-> width img * height img <= 10000 * 10000) /\
     (5000 * 5000 < width img * height img <= 10000 * 10000 ->
        gate_verdict img w = Some true /\
        exists msg, gate_new_logs img w = [(WARNING, msg)]) /\
     store (snd (check_image_safety img w)) = store w) /\
  (forall m px w, gate_verdict (mkImage m 10001 10000 px) w = Some false) /\
  (forall m px w, gate_verdict (mkImage m 10000 10000 px) w = Some true) /\
  (forall m px w,
     gate_verdict (mkImage m 5001 5000 px) w = Some true /\
     exists msg, gate_new_logs (mkImage m 5001 5000 px) w = [(WARNING, msg)]).
Proof.
  split; [|repeat split].
  - intros img w.
    destruct (check_image_safety_cases img w) as (Hrej & Hwarn & Hok).
    cbv zeta in Hrej, Hwarn, Hok.
    assert (Hcase : 10000 * 10000 < width img * height img \/
                    5000 * 5000 < width img * height img <= 10000 * 10000 \/
                    width img * height img <= 5000 * 5000) by lia.
    repeat split.
    + intros Hv. destruct Hcase as [?|[Hc|Hc]]; [assumption| |].
      * destruct (Hwarn Hc) as [Hv' _]. congruence.
      * destruct (Hok Hc) as [Hv' _]. congruence.
    + intros Hc. apply Hrej, Hc.
    + intros Hv. destruct Hcase as [Hc|[Hc|Hc]]; [|lia|lia].
      destruct (Hrej Hc) as [Hv' _]. congruence.
    + intros Hle. destruct Hcase as [Hc|[Hc|Hc]]; [lia| |].
      * apply Hwarn, Hc.
      * apply Hok, Hc.
    + apply Hwarn; assumption.
    + apply Hwarn; assumption.
    + unfold check_image_safety.
      destruct (_ >? MAX_IMAGE_PIXELS); [reflexivity|].
      destruct (_ >? WARNING_PIXELS); reflexivity.
  - destruct (check_image_safety_cases (mkImage m 5001 5000 px) w) as (_ & Hwarn & _).
    apply Hwarn. simpl. lia.
Qed.

(** ** The compositing functions as functions of image content

    What [apply_gemini_watermark] and [apply_doubao_watermark] return and
    log, written over the content of the two images they are given.  The
    run lemmas below show that the functions on objects compute exactly
    this, in every world. *)

Definition gate_result (img : Image) : bool * string :=
  let pixels := width img * height img in
  if pixels >? MAX_IMAGE_PIXELS then
    (false, ("图像尺寸过大（" ++ pretty pixels ++ "像素），安全限制: "
             ++ pretty MAX_IMAGE_PIXELS ++ "像素")%string)
  else (true, "").

Definition gate_logs (img : Image) : list (Level * string) :=
  let pixels := width img * height img in
  if pixels >? MAX_IMAGE_PIXELS then []
  else if pixels >? WARNING_PIXELS then
    [(WARNING, ("处理大图像: " ++ pretty pixels ++ "像素 ("
                ++ pretty (width img) ++ "x" ++ pretty (height img) ++ ")")%string)]
  else [].

Definition rejection_log (img : Image) : Level * string :=
  (ERROR, ("图片安全检查失败: " ++ snd (gate_result img))%string).

Definition skip_log : Level * string :=
  (WARNING, "水印尺寸超过图片尺寸，跳过处理").

(** The content of a watermark after [_apply_opacity]. *)
Definition with_opacity (K : Kernels) (opacity : float) (c : Image) : outcome Image :=
  obind (getchannel_A_image c) (fun alpha =>
  obind (point_image K (opacity_lambda opacity) alpha) (fun new_alpha =>
  putalpha_image c new_alpha)).

Section Content.
Context (K : Kernels) (DOUBAN_ASPECT_RATIO : float).

(** Whether the gemini watermark is skipped on [img]. *)
Definition gemini_skips (img wm : Image) : bool :=
  let '(x, y) := _calculate_gemini_position (width img) (height img) wm in
  (x <? 0) || (y <? 0).

Definition gemini_image (img wm : Image) (opacity : float) : outcome (option Image) :=
  if negb (fst (gate_result img)) then Return None
  else if gemini_skips img wm then Return (Some (convert_image K RGB img))
  else
    obind (resize_image K (size wm) wm) (fun rw =>
    obind (with_opacity K opacity (convert_image K RGBA rw)) (fun rw' =>
    Return (Some (convert_image K RGB
                    (paste_image K (convert_image K RGBA img) rw'
                       (_calculate_gemini_position (width img) (height img) wm) rw'))))).

Definition gemini_logs (img wm : Image) : list (Level * string) :=
  gate_logs img ++
  (if negb (fst (gate_result img)) then [rejection_log img]
   else if gemini_skips img wm then [skip_log]
   else []).

Definition doubao_image (img wm : Image) (opacity : float) : outcome (option Image) :=
  if negb (fst (gate_result img)) then Return None
  else
    obind (_calculate_doubao_size DOUBAN_ASPECT_RATIO (width img) (height img)) (fun wm_size =>
    obind (resize_image K wm_size wm) (fun rw =>
    obind (with_opacity K opacity (convert_image K RGBA rw)) (fun rw' =>
    obind (_calculate_doubao_position (width img) (height img) (fst wm_size) (snd wm_size))
      (fun box =>
    Return (Some (convert_image K RGB
                    (paste_image K (convert_image K RGBA img) rw' box rw'))))))).

Definition doubao_logs (img : Image) : list (Level * string) :=
  gate_logs img ++
  (if negb (fst (gate_result img)) then [rejection_log img] else []).

End Content.

Lemma check_image_safety_run (img : Image) (w : World) :
  check_image_safety img w =
    (Return (gate_result img), mkWorld (store w) (logs w ++ gate_logs img)).
Proof.
  unfold check_image_safety, gate_result, gate_logs.
  destruct (_ >? MAX_IMAGE_PIXELS).
  - rewrite app_nil_r. destruct w; reflexivity.
  - destruct (_ >? WARNING_PIXELS).
    + reflexivity.
    + rewrite app_nil_r. destruct w; reflexivity.
Qed.

Lemma log_run (l : Level) (msg : string) (w : World) :
  log l msg w = (Return tt, mkWorld (store w) (logs w ++ [(l, msg)])).
Proof. reflexivity. Qed.

Import PILSpec.

(** [_apply_opacity] changes the object it is given and nothing else; when
    it raises it has changed nothing. *)
Lemma apply_opacity_run (K : Kernels) (r : ref) (c : Image) (opacity : float) (w : World) :
  store w !! r = Some c ->
  exists w', logs w' = logs w /\
    match with_opacity K opacity c with
    | Return c' =>
        _apply_opacity K r opacity w = (Return r, w') /\
        store w' !! r = Some c' /\
        delete r (store w) ⊆ store w'
    | Raise e =>
        _apply_opacity K r opacity w = (Raise e, w') /\ store w ⊆ store w'
    end.
Proof.
  intros Hr. unfold with_opacity, _apply_opacity, getchannel_A, point, putalpha.
  destruct (getchannel_A_image c) as [alpha|e] eqn:Eg; simpl obind.
  2:{ exists w. split; [reflexivity|]. split; [|reflexivity]. mrun. reflexivity. }
  destruct (alloc_run alpha w) as (a1 & Ha1 & Ea1).
  set (w1 := mkWorld (<[a1 := alpha]> (store w)) (logs w)) in *.
  assert (Hsub1 : store w ⊆ store w1) by (apply insert_subseteq; exact Ha1).
  assert (Hw1a : store w1 !! a1 = Some alpha) by apply lookup_insert_eq.
  destruct (point_image K (opacity_lambda opacity) alpha) as [na|e] eqn:Ep; simpl obind.
  2:{ exists w1. split; [reflexivity|]. split; [|exact Hsub1]. mrun. reflexivity. }
  destruct (alloc_run na w1) as (a2 & Ha2 & Ea2).
  set (w2 := mkWorld (<[a2 := na]> (store w1)) (logs w1)) in *.
  assert (Hsub2 : store w1 ⊆ store w2) by (apply insert_subseteq; exact Ha2).
  assert (Hw2r : store w2 !! r = Some c).
  { eapply lookup_weaken; [|exact Hsub2]. eapply lookup_weaken; [exact Hr|exact Hsub1]. }
  assert (Hw2a : store w2 !! a2 = Some na) by apply lookup_insert_eq.
  destruct (putalpha_image c na) as [c'|e] eqn:Eu.
  2:{ exists w2. split; [reflexivity|]. split; [|etrans; eassumption]. mrun. reflexivity. }
  exists (mkWorld (<[r := c']> (store w2)) (logs w2)).
  split; [reflexivity|]. split; [|split].
  - mrun. reflexivity.
  - apply lookup_insert_eq.
  - simpl. etrans; [apply (insert_subseteq _ r c'), lookup_delete_eq|].
    apply insert_mono. etrans; [apply delete_subseteq|]. etrans; eassumption.
Qed.

Section ProcessorRuns.
Context (K : Kernels) (DOUBAN_ASPECT_RATIO : float).

Lemma bind_check {B} (img : Image) (k : bool * string -> M B) (w : World) :
  (check_image_safety img ≫= k) w =
    k (gate_result img) (mkWorld (store w) (logs w ++ gate_logs img)).
Proof. apply bind_return, check_image_safety_run. Qed.

(** The working copy both compositors start from: a new RGBA object. *)
Lemma working_copy_run (image : ref) (img : Image) (w : World) :
  store w !! image = Some img ->
  exists result w',
    (forall B (k : ref -> M B),
       (copy image ≫= fun result =>
        deref result ≫= fun res =>
        (if decide (mode res ≠ RGBA) then convert K result RGBA else mret result) ≫= k) w
         = k result w') /\
    store w ⊆ store w' /\ logs w' = logs w /\
    store w !! result = None /\
    store w' !! result = Some (convert_image K RGBA img).
Proof.
  intros Hi.
  destruct (alloc_run img w) as (r1 & Hr1 & Ea1).
  set (w1 := mkWorld (<[r1 := img]> (store w)) (logs w)) in *.
  assert (Hsub1 : store w ⊆ store w1) by (apply insert_subseteq; exact Hr1).
  assert (H1r : store w1 !! r1 = Some img) by apply lookup_insert_eq.
  destruct (decide (mode img = RGBA)) as [Hm|Hm].
  - exists r1, w1. split; [|repeat split; try assumption].
    + intros B k. unfold copy. mrun. rewrite decide_False by (intros Hn; apply Hn, Hm).
      mrun. reflexivity.
    + rewrite (convert_image_same K _ _ Hm). exact H1r.
  - destruct (alloc_run (convert_image K RGBA img) w1) as (r2 & Hr2 & Ea2).
    set (w2 := mkWorld (<[r2 := convert_image K RGBA img]> (store w1)) (logs w1)) in *.
    exists r2, w2. split; [|repeat split].
    + intros B k. unfold copy. mrun. rewrite decide_True by exact Hm.
      unfold convert. mrun. reflexivity.
    + etrans; [exact Hsub1|]. apply insert_subseteq; exact Hr2.
    + eapply lookup_weaken_None; [exact Hr2|exact Hsub1].
    + apply lookup_insert_eq.
Qed.

(** The watermark as it is pasted: resized, made RGBA, its alpha band
    rewritten. *)
Definition prepared_watermark (sz : Z * Z) (wm : Image) (opacity : float) : outcome Image :=
  obind (resize_image K sz wm) (fun rw => with_opacity K opacity (convert_image K RGBA rw)).

Lemma prepared_watermark_run (watermark : ref) (wm : Image) (sz : Z * Z)
    (opacity : float) (w : World) :
  store w !! watermark = Some wm ->
  exists w', store w ⊆ store w' /\ logs w' = logs w /\
    match prepared_watermark sz wm opacity with
    | Return c' =>
        exists rw,
          (forall B (k : ref -> M B),
             (resize K watermark sz ≫= fun resized_watermark =>
              deref resized_watermark ≫= fun rw =>
              (if decide (mode rw ≠ RGBA) then convert K resized_watermark RGBA
               else mret resized_watermark) ≫= fun resized_watermark =>
              _apply_opacity K resized_watermark opacity ≫= k) w = k rw w') /\
          store w !! rw = None /\ store w' !! rw = Some c'
    | Raise e =>
        forall B (k : ref -> M B),
          (resize K watermark sz ≫= fun resized_watermark =>
           deref resized_watermark ≫= fun rw =>
           (if decide (mode rw ≠ RGBA) then convert K resized_watermark RGBA
            else mret resized_watermark) ≫= fun resized_watermark =>
           _apply_opacity K resized_watermark opacity ≫= k) w = (Raise e, w')
    end.
Proof.
  intros Hw. unfold prepared_watermark, resize.
  destruct (resize_image K sz wm) as [rwc|e] eqn:Er; simpl obind.
  2:{ exists w. do 2 (split; [reflexivity|]). intros B k. mrun. reflexivity. }
  destruct (alloc_run rwc w) as (r3 & Hr3 & Ea3).
  set (w3 := mkWorld (<[r3 := rwc]> (store w)) (logs w)) in *.
  assert (Hsub3 : store w ⊆ store w3) by (apply insert_subseteq; exact Hr3).
  assert (H3r : store w3 !! r3 = Some rwc) by apply lookup_insert_eq.
  (* the RGBA object [r4] of world [w4] *)
  assert (Hrgba : exists r4 w4,
    (forall C (k' : ref -> M C),
       ((if decide (mode rwc ≠ RGBA) then convert K r3 RGBA else mret r3) ≫= k') w3
         = k' r4 w4) /\
    store w3 ⊆ store w4 /\ logs w4 = logs w3 /\ store w !! r4 = None /\
    store w4 !! r4 = Some (convert_image K RGBA rwc)).
  { destruct (decide (mode rwc = RGBA)) as [Hm|Hm].
    - exists r3, w3. split; [|repeat split; try assumption; try reflexivity].
      + intros C k'. rewrite decide_False by (intros Hn; apply Hn, Hm). reflexivity.
      + rewrite (convert_image_same K _ _ Hm). exact H3r.
    - destruct (alloc_run (convert_image K RGBA rwc) w3) as (r4 & Hr4 & Ea4).
      exists r4, (mkWorld (<[r4 := convert_image K RGBA rwc]> (store w3)) (logs w3)).
      split; [|repeat split].
      + intros C k'. rewrite decide_True by exact Hm. unfold convert. mrun. reflexivity.
      + apply insert_subseteq; exact Hr4.
      + eapply lookup_weaken_None; [exact Hr4|exact Hsub3].
      + apply lookup_insert_eq. }
  destruct Hrgba as (r4 & w4 & Hk & Hsub4 & Hl4 & Hn4 & H4r).
  destruct (apply_opacity_run K r4 _ opacity w4 H4r) as (w5 & Hl5 & Hop).
  destruct (with_opacity K opacity (convert_image K RGBA rwc)) as [c'|e].
  - destruct Hop as (Erun & H5r & Hsub5).
    exists w5. split; [|split].
    + etrans; [|exact Hsub5]. apply map_subseteq_spec. intros i x Hix.
      rewrite lookup_delete_ne by (intros ->; congruence).
      eapply lookup_weaken; [|exact Hsub4]. eapply lookup_weaken; [exact Hix|exact Hsub3].
    + rewrite Hl5, Hl4. reflexivity.
    + exists r4. split; [|split; assumption].
      intros B k. mrun. rewrite Hk. apply bind_return, Erun.
  - destruct Hop as (Erun & Hsub5).
    exists w5. split; [|split].
    + etrans; [exact Hsub3|]. etrans; eassumption.
    + rewrite Hl5, Hl4. reflexivity.
    + intros B k. mrun. rewrite Hk. apply bind_raise, Erun.
Qed.

(** Pasting into the working copy and flattening the result. *)
Lemma paste_and_flatten_run (result rw : ref) (res c' : Image) (box : Z * Z) (w : World) :
  store w !! result = Some res -> store w !! rw = Some c' ->
  exists out w',
    (paste K result rw box rw ≫= fun _ =>
     convert K result RGB ≫= fun out => mret (Some out)) w = (Return (Some out), w') /\
    delete result (store w) ⊆ store w' /\ logs w' = logs w /\
    store w !! out = None /\
    store w' !! out = Some (convert_image K RGB (paste_image K res c' box c')).
Proof.
  intros Hres Hrw.
  set (w6 := mkWorld (<[result := paste_image K res c' box c']> (store w)) (logs w)).
  assert (H6r : store w6 !! result = Some (paste_image K res c' box c'))
    by apply lookup_insert_eq.
  destruct (alloc_run (convert_image K RGB (paste_image K res c' box c')) w6)
    as (out & Ho & Ea).
  exists out, (mkWorld (<[out := convert_image K RGB (paste_image K res c' box c')]> (store w6))
                 (logs w6)).
  split; [|repeat split].
  - rewrite (bind_return _ _ _ _ _ (paste_run K _ _ _ _ _ _ _ _ Hres Hrw Hrw)).
    fold w6. unfold convert. mrun. reflexivity.
  - simpl. etrans; [|apply insert_subseteq; exact Ho].
    etrans; [apply (insert_subseteq _ result (paste_image K res c' box c')), lookup_delete_eq|].
    rewrite insert_delete_eq. reflexivity.
  - simpl in Ho. apply lookup_insert_None in Ho. tauto.
  - apply lookup_insert_eq.
Qed.

(** [apply_gemini_watermark] computes [gemini_image] and logs
    [gemini_logs]; every object of the world it starts in is still there,
    unchanged, and the image it returns is a new object. *)
Lemma apply_gemini_run (image watermark : ref) (img wm : Image) (opacity : float)
    (w w' : World) (o : outcome (option ref)) :
  store w !! image = Some img -> store w !! watermark = Some wm ->
  apply_gemini_watermark K image watermark opacity w = (o, w') ->
  store w ⊆ store w' /\ logs w' = logs w ++ gemini_logs img wm /\
  match gemini_image K img wm opacity with
  | Return (Some c) =>
      exists out, o = Return (Some out) /\
        store w !! out = None /\ store w' !! out = Some c
  | Return None => o = Return None
  | Raise e => o = Raise e
  end.
Proof.
  intros Hi Hw. unfold apply_gemini_watermark, gemini_image, gemini_logs.
  rewrite (bind_deref _ _ _ _ Hi), bind_check.
  set (w0 := mkWorld (store w) (logs w ++ gate_logs img)).
  unfold rejection_log.
  destruct (gate_result img) as [ok msg]. simpl fst; simpl snd.
  destruct ok; cbv beta iota delta [negb].
  2:{ mrun. intros [= <- <-]. simpl. rewrite <- app_assoc. auto. }
  destruct (working_copy_run image img w0 Hi) as (result & w2 & Ek & Hsub2 & Hl2 & Hn2 & H2r).
  simpl in Hsub2, Hl2, Hn2.
  rewrite Ek. rewrite (bind_deref _ _ _ _ H2r).
  assert (H2w : store w2 !! watermark = Some wm) by (eapply lookup_weaken; eassumption).
  assert (H2i : store w2 !! image = Some img) by (eapply lookup_weaken; eassumption).
  pose proof (convert_image_size K RGBA img) as Hsz. unfold size in Hsz.
  injection Hsz as Hwd Hht. unfold size at 1. rewrite Hwd, Hht.
  rewrite (bind_deref _ _ _ _ H2w). unfold size at 1.
  unfold gemini_skips.
  destruct (_calculate_gemini_position (width img) (height img) wm) as [x y] eqn:Epos.
  destruct ((x <? 0) || (y <? 0)).
  - rewrite bind_log.
    set (w3 := mkWorld (store w2) (logs w2 ++ [skip_log])).
    destruct (alloc_run (convert_image K RGB img) w3) as (out & Ho & Ea).
    assert (H3i : store w3 !! image = Some img) by exact H2i.
    unfold convert. mrun. intros [= <- <-].
    split; [|split]; [| |exists out; split; [|split]].
    + simpl. etrans; [exact Hsub2|]. apply insert_subseteq, Ho.
    + simpl. rewrite Hl2. simpl. rewrite <- app_assoc. reflexivity.
    + reflexivity.
    + eapply lookup_weaken_None; [exact Ho|exact Hsub2].
    + apply lookup_insert_eq.
  - destruct (prepared_watermark_run watermark wm (width wm, height wm) opacity w2 H2w)
      as (w5 & Hsub5 & Hl5 & Hprep).
    fold (size wm) in Hprep. unfold prepared_watermark in Hprep.
    destruct (resize_image K (size wm) wm) as [rwc|e]; simpl obind in *.
    2:{ rewrite Hprep. intros [= <- <-]. split; [etrans; eassumption|]. split; [|reflexivity].
        rewrite Hl5, Hl2. simpl. rewrite app_nil_r. reflexivity. }
    destruct (with_opacity K opacity (convert_image K RGBA rwc)) as [c'|e]; simpl obind.
    2:{ rewrite Hprep. intros [= <- <-]. split; [etrans; eassumption|]. split; [|reflexivity].
        rewrite Hl5, Hl2. simpl. rewrite app_nil_r. reflexivity. }
    destruct Hprep as (rw & Ek5 & Hn5 & H5r).
    assert (H5res : store w5 !! result = Some (convert_image K RGBA img))
      by (eapply lookup_weaken; eassumption).
    destruct (paste_and_flatten_run result rw _ c' (x, y) w5 H5res H5r)
      as (out & w7 & Erun & Hsub7 & Hl7 & Hn7 & H7o).
    rewrite Ek5, Erun. intros [= <- <-].
    split; [|split]; [| |exists out; split; [|split]].
    + etrans; [|exact Hsub7]. apply map_subseteq_spec. intros i c Hic.
      rewrite lookup_delete_ne by (intros ->; congruence).
      eapply lookup_weaken; [|exact Hsub5]. eapply lookup_weaken; [exact Hic|exact Hsub2].
    + rewrite Hl7, Hl5, Hl2. simpl. rewrite app_nil_r. reflexivity.
    + reflexivity.
    + eapply lookup_weaken_None; [exact Hn7|]. etrans; eassumption.
    + exact H7o.
Qed.

(** The same for [apply_doubao_watermark] and [doubao_image]. *)
Lemma apply_doubao_run (image watermark : ref) (img wm : Image) (opacity : float)
    (w w' : World) (o : outcome (option ref)) :
  store w !! image = Some img -> store w !! watermark = Some wm ->
  apply_doubao_watermark K DOUBAN_ASPECT_RATIO image (Some watermark) opacity w = (o, w') ->
  store w ⊆ store w' /\ logs w' = logs w ++ doubao_logs img /\
  match doubao_image K DOUBAN_ASPECT_RATIO img wm opacity with
  | Return (Some c) =>
      exists out, o = Return (Some out) /\
        store w !! out = None /\ store w' !! out = Some c
  | Return None => o = Return None
  | Raise e => o = Raise e
  end.
Proof.
  intros Hi Hw. unfold apply_doubao_watermark, doubao_image, doubao_logs.
  rewrite (bind_deref _ _ _ _ Hi), bind_check.
  set (w0 := mkWorld (store w) (logs w ++ gate_logs img)).
  unfold rejection_log.
  destruct (gate_result img) as [ok msg]. simpl fst; simpl snd.
  destruct ok; cbv beta iota delta [negb].
  2:{ mrun. intros [= <- <-]. simpl. rewrite <- app_assoc. auto. }
  destruct (working_copy_run image img w0 Hi) as (result & w2 & Ek & Hsub2 & Hl2 & Hn2 & H2r).
  simpl in Hsub2, Hl2, Hn2.
  rewrite Ek.
  assert (H2w : store w2 !! watermark = Some wm) by (eapply lookup_weaken; eassumption).
  assert (H2i : store w2 !! image = Some img) by (eapply lookup_weaken; eassumption).
  rewrite (bind_deref _ _ _ _ H2i).
  destruct (_calculate_doubao_size DOUBAN_ASPECT_RATIO (width img) (height img))
    as [[wm_width wm_height]|e]; simpl obind.
  2:{ mrun. intros [= <- <-]. split; [exact Hsub2|]. split; [|reflexivity].
      rewrite Hl2. simpl. rewrite app_nil_r. reflexivity. }
  rewrite bind_lift_return. cbv beta iota.
  destruct (prepared_watermark_run watermark wm (wm_width, wm_height) opacity w2 H2w)
    as (w5 & Hsub5 & Hl5 & Hprep).
  unfold prepared_watermark in Hprep.
  destruct (resize_image K (wm_width, wm_height) wm) as [rwc|e]; simpl obind in *.
  2:{ rewrite Hprep. intros [= <- <-]. split; [etrans; eassumption|]. split; [|reflexivity].
      rewrite Hl5, Hl2. simpl. rewrite app_nil_r. reflexivity. }
  destruct (with_opacity K opacity (convert_image K RGBA rwc)) as [c'|e]; simpl obind.
  2:{ rewrite Hprep. intros [= <- <-]. split; [etrans; eassumption|]. split; [|reflexivity].
      rewrite Hl5, Hl2. simpl. rewrite app_nil_r. reflexivity. }
  destruct Hprep as (rw & Ek5 & Hn5 & H5r).
  rewrite Ek5.
  assert (H5res : store w5 !! result = Some (convert_image K RGBA img))
    by (eapply lookup_weaken; eassumption).
  assert (H5i : store w5 !! image = Some img) by (eapply lookup_weaken; eassumption).
  rewrite (bind_deref _ _ _ _ H5i).
  destruct (_calculate_doubao_position (width img) (height img) wm_width wm_height)
    as [[x y]|e]; simpl obind.
  2:{ mrun. intros [= <- <-]. split; [etrans; eassumption|]. split; [|reflexivity].
      rewrite Hl5, Hl2. simpl. rewrite app_nil_r. reflexivity. }
  rewrite bind_lift_return. cbv beta iota.
  destruct (paste_and_flatten_run result rw _ c' (x, y) w5 H5res H5r)
    as (out & w7 & Erun & Hsub7 & Hl7 & Hn7 & H7o).
  rewrite Erun. intros [= <- <-].
  split; [|split]; [| |exists out; split; [|split]].
  - etrans; [|exact Hsub7]. apply map_subseteq_spec. intros i c Hic.
    rewrite lookup_delete_ne by (intros ->; congruence).
    eapply lookup_weaken; [|exact Hsub5]. eapply lookup_weaken; [exact Hic|exact Hsub2].
  - rewrite Hl7, Hl5, Hl2. simpl. rewrite app_nil_r. reflexivity.
  - reflexivity.
  - eapply lookup_weaken_None; [exact Hn7|]. etrans; eassumption.
  - exact H7o.
Qed.

End ProcessorRuns.

(** ** What the compositors return *)

(** The content of the image a compositor returned, read in the world it
    left. *)
Definition returned_image (o : outcome (option ref)) (w : World) : outcome (option Image) :=
  match o with
  | Return (Some out) => Return (store w !! out)
  | Return None => Return None
  | Raise e => Raise e
  end.

Lemma returned_image_gemini (K : Kernels) (image watermark : ref) (img wm : Image)
    (opacity : float) (w : World) :
  store w !! image = Some img -> store w !! watermark = Some wm ->
  returned_image (fst (apply_gemini_watermark K image watermark opacity w))
                 (snd (apply_gemini_watermark K image watermark opacity w))
    = gemini_image K img wm opacity.
Proof.
  intros Hi Hw.
  destruct (apply_gemini_watermark K image watermark opacity w) as [o w'] eqn:E.
  destruct (apply_gemini_run K _ _ _ _ _ _ _ _ Hi Hw E) as (_ & _ & H).
  simpl. destruct (gemini_image K img wm opacity) as [[c|]|e].
  - destruct H as (out & -> & _ & Ho). simpl. rewrite Ho. reflexivity.
  - subst o. reflexivity.
  - subst o. reflexivity.
Qed.

Lemma returned_image_doubao (K : Kernels) (ratio : float) (image watermark : ref)
    (img wm : Image) (opacity : float) (w : World) :
  store w !! image = Some img -> store w !! watermark = Some wm ->
  returned_image (fst (apply_doubao_watermark K ratio image (Some watermark) opacity w))
                 (snd (apply_doubao_watermark K ratio image (Some watermark) opacity w))
    = doubao_image K ratio img wm opacity.
Proof.
  intros Hi Hw.
  destruct (apply_doubao_watermark K ratio image (Some watermark) opacity w) as [o w'] eqn:E.
  destruct (apply_doubao_run K ratio _ _ _ _ _ _ _ _ Hi Hw E) as (_ & _ & H).
  simpl. destruct (doubao_image K ratio img wm opacity) as [[c|]|e].
  - destruct H as (out & -> & _ & Ho). simpl. rewrite Ho. reflexivity.
  - subst o. reflexivity.
  - subst o. reflexivity.
Qed.

Lemma gate_result_pass (img : Image) :
  width img * height img <= 10000 * 10000 -> fst (gate_result img) = true.
Proof.
  intros H. unfold gate_result, MAX_IMAGE_PIXELS.
  destruct (Z.gtb_spec (width img * height img) (10000 * 10000)); [lia|reflexivity].
Qed.

Lemma gemini_skips_iff (img wm : Image) :
  gemini_skips img wm = true <->
  fst (_calculate_gemini_position (width img) (height img) wm) < 0 \/
  snd (_calculate_gemini_position (width img) (height img) wm) < 0.
Proof.
  unfold gemini_skips.
  destruct (_calculate_gemini_position (width img) (height img) wm) as [x y]. simpl.
  rewrite orb_true_iff, !Z.ltb_lt. reflexivity.
Qed.




Lemma apply_gemini_frame (K : Kernels) (image watermark : ref) (img wm : Image)
    (opacity : float) (w : World) :
  store w !! image = Some img -> store w !! watermark = Some wm ->
  store w ⊆ store (snd (apply_gemini_watermark K image watermark opacity w)).
Proof.
  intros Hi Hw.
  destruct (apply_gemini_watermark K image watermark opacity w) as [o w'] eqn:E.
  apply (apply_gemini_run K _ _ _ _ _ _ _ _ Hi Hw E).
Qed.

Lemma apply_doubao_frame (K : Kernels) (ratio : float) (image watermark : ref)
    (img wm : Image) (opacity : float) (w : World) :
  store w !! image = Some img -> store w !! watermark = Some wm ->
  store w ⊆ store (snd (apply_doubao_watermark K ratio image (Some watermark) opacity w)).
Proof.
  intros Hi Hw.
  destruct (apply_doubao_watermark K ratio image (Some watermark) opacity w) as [o w'] eqn:E.
  apply (apply_doubao_run K ratio _ _ _ _ _ _ _ _ Hi Hw E).
Qed.

(** C9.  Applying a watermark changes no object that existed before the
    call: the source image (and the watermark, and everything else in the
    store) has the content it had, because pasting and the alpha rewrite
    act on objects created during the call.  So a second call on the same
    source with the same arguments returns an image with the same content
    as the first. *)
Theorem C9_apply_never_mutates_the_source
    (K : Kernels) (ratio : float) (image watermark : ref) (img wm : Image)
    (opacity : float) (w : World) :
  store w !! image = Some img -> store w !! watermark = Some wm ->
  let g1 := apply_gemini_watermark K image watermark opacity w in
  let g2 := apply_gemini_watermark K image watermark opacity (snd g1) in
  let d1 := apply_doubao_watermark K ratio image (Some watermark) opacity w in
  let d2 := apply_doubao_watermark K ratio image (Some watermark) opacity (snd d1) in
  (store (snd g1) !! image = Some img /\
   (forall r c, store w !! r = Some c -> store (snd g1) !! r = Some c) /\
   returned_image (fst g2) (snd g2) = returned_image (fst g1) (snd g1)) /\
  (store (snd d1) !! image = Some img /\
   (forall r c, store w !! r = Some c -> store (snd d1) !! r = Some c) /\
   returned_image (fst d2) (snd d2) = returned_image (fst d1) (snd d1)).
Proof.
  intros Hi Hw g1 g2 d1 d2.
  pose proof (apply_gemini_frame K image watermark img wm opacity w Hi Hw) as Hg.
  pose proof (apply_doubao_frame K ratio image watermark img wm opacity w Hi Hw) as Hd.
  fold g1 in Hg. fold d1 in Hd.
  pose proof (lookup_weaken _ _ _ _ Hi Hg) as Hgi.
  pose proof (lookup_weaken _ _ _ _ Hw Hg) as Hgw.
  pose proof (lookup_weaken _ _ _ _ Hi Hd) as Hdi.
  pose proof (lookup_weaken _ _ _ _ Hw Hd) as Hdw.
  split; (split; [assumption|split]).
  - intros r c Hr. exact (lookup_weaken _ _ _ _ Hr Hg).
  - unfold g2, g1. rewrite (returned_image_gemini K _ _ img wm _ _ Hgi Hgw).
    rewrite (returned_image_gemini K _ _ img wm _ _ Hi Hw). reflexivity.
  - intros r c Hr. exact (lookup_weaken _ _ _ _ Hr Hd).
  - unfold d2, d1. rewrite (returned_image_doubao K ratio _ _ img wm _ _ Hdi Hdw).
    rewrite (returned_image_doubao K ratio _ _ img wm _ _ Hi Hw). reflexivity.
Qed.

Lemma C9_witness :
  let w := world_of rgb_40x40 wm_2x1 in
  let g1 := apply_gemini_watermark example_kernels 1%positive 2%positive 0.25 w in
  let g2 := apply_gemini_watermark example_kernels 1%positive 2%positive 0.25 (snd g1) in
  let d1 := apply_doubao_watermark example_kernels 2 1%positive (Some 2%positive) 0.25 w in
  let d2 := apply_doubao_watermark example_kernels 2 1%positive (Some 2%positive) 0.25 (snd d1) in
  (store (snd g1) !! 1%positive = Some rgb_40x40 /\
   (forall r c, store w !! r = Some c -> store (snd g1) !! r = Some c) /\
   returned_image (fst g2) (snd g2) = returned_image (fst g1) (snd g1)) /\
  (store (snd d1) !! 1%positive = Some rgb_40x40 /\
   (forall r c, store w !! r = Some c -> store (snd d1) !! r = Some c) /\
   returned_image (fst d2) (snd d2) = returned_image (fst d1) (snd d1)).
Proof.
  apply (C9_apply_never_mutates_the_source example_kernels 2%float 1%positive 2%positive
           rgb_40x40 wm_2x1 0.25%float (world_of rgb_40x40 wm_2x1)).
  - reflexivity.
  - reflexivity.
Defined.

(** C10.  Only the gemini compositor has the skip.  For an image that
    passes the gate, [apply_gemini_watermark] looks at the position it
    computed: negative on either axis, it logs the skip and returns the
    source converted to RGB; otherwise it pastes.  [apply_doubao_watermark]
    has no such test: whenever it returns an image, that image is the
    working copy with the watermark pasted at the position computed,
    whatever its sign, and the skip is never logged. *)
Theorem C10_skip_exists_only_for_gemini
    (K : Kernels) (ratio : float) (image watermark : ref) (img wm : Image)
    (opacity : float) (w : World) :
  store w !! image = Some img -> store w !! watermark = Some wm ->
  width img * height img <= 10000 * 10000 ->
  let pos := _calculate_gemini_position (width img) (height img) wm in
  let g := apply_gemini_watermark K image watermark opacity w in
  let d := apply_doubao_watermark K ratio image (Some watermark) opacity w in
  (fst pos < 0 \/ snd pos < 0 ->
     returned_image (fst g) (snd g) = Return (Some (convert_image K RGB img)) /\
     logs (snd g) = logs w ++ gate_logs img ++ [skip_log]) /\
  (0 <= fst pos /\ 0 <= snd pos ->
     returned_image (fst g) (snd g) =
       obind (prepared_watermark K (size wm) wm opacity) (fun rw' =>
       Return (Some (convert_image K RGB
                       (paste_image K (convert_image K RGBA img) rw' pos rw')))) /\
     logs (snd g) = logs w ++ gate_logs img) /\
  (returned_image (fst d) (snd d) =
     obind (_calculate_doubao_size ratio (width img) (height img)) (fun wm_size =>
     obind (prepared_watermark K wm_size wm opacity) (fun rw' =>
     obind (_calculate_doubao_position (width img) (height img) (fst wm_size) (snd wm_size))
       (fun box =>
     Return (Some (convert_image K RGB
                     (paste_image K (convert_image K RGBA img) rw' box rw')))))) /\
   logs (snd d) = logs w ++ gate_logs img).
Proof.
  intros Hi Hw Hgate pos g d.
  pose proof (returned_image_gemini K image watermark img wm opacity w Hi Hw) as Rg.
  pose proof (returned_image_doubao K ratio image watermark img wm opacity w Hi Hw) as Rd.
  fold g in Rg. fold d in Rd.
  assert (Lg : logs (snd g) = logs w ++ gemini_logs img wm).
  { unfold g. destruct (apply_gemini_watermark K image watermark opacity w) as [o w'] eqn:E.
    apply (apply_gemini_run K _ _ _ _ _ _ _ _ Hi Hw E). }
  assert (Ld : logs (snd d) = logs w ++ doubao_logs img).
  { unfold d.
    destruct (apply_doubao_watermark K ratio image (Some watermark) opacity w) as [o w'] eqn:E.
    apply (apply_doubao_run K ratio _ _ _ _ _ _ _ _ Hi Hw E). }
  unfold gemini_image, gemini_logs in *. unfold doubao_image, doubao_logs in *.
  rewrite (gate_result_pass img Hgate) in *. simpl negb in *. cbv iota in *.
  split; [|split].
  - intros Hneg. rewrite (proj2 (gemini_skips_iff img wm) Hneg) in *.
    split; assumption.
  - intros [Hx Hy].
    assert (Hs : gemini_skips img wm = false).
    { destruct (gemini_skips img wm) eqn:Es; [|reflexivity].
      apply gemini_skips_iff in Es. fold pos in Es. lia. }
    rewrite Hs in *. rewrite app_nil_r in Lg. split; [|exact Lg].
    rewrite Rg. unfold prepared_watermark.
    destruct (resize_image K (size wm) wm) as [rw|e]; [|reflexivity]. simpl.
    destruct (with_opacity K opacity (convert_image K RGBA rw)); reflexivity.
  - rewrite app_nil_r in Ld. split; [|exact Ld].
    rewrite Rd.
    destruct (_calculate_doubao_size ratio (width img) (height img)) as [sz|e]; [|reflexivity].
    simpl. unfold prepared_watermark.
    destruct (resize_image K sz wm) as [rw|e]; [|reflexivity]. simpl.
    destruct (with_opacity K opacity (convert_image K RGBA rw)); reflexivity.
Qed.

Lemma C10_witness :
  let w := world_of rgb_100x2 wm_2x1 in
  let img := rgb_100x2 in
  let wm := wm_2x1 in
  let K := example_kernels in
  let pos := _calculate_gemini_position (width img) (height img) wm in
  let g := apply_gemini_watermark K 1%positive 2%positive 0.25 w in
  let d := apply_doubao_watermark K 2 1%positive (Some 2%positive) 0.25 w in
  _calculate_doubao_position 100 2 13 6 = Return (84, -4) /\
  (fst pos < 0 \/ snd pos < 0 ->
     returned_image (fst g) (snd g) = Return (Some (convert_image K RGB img)) /\
     logs (snd g) = logs w ++ gate_logs img ++ [skip_log]) /\
  (0 <= fst pos /\ 0 <= snd pos ->
     returned_image (fst g) (snd g) =
       obind (prepared_watermark K (size wm) wm 0.25) (fun rw' =>
       Return (Some (convert_image K RGB
                       (paste_image K (convert_image K RGBA img) rw' pos rw')))) /\
     logs (snd g) = logs w ++ gate_logs img) /\
  (returned_image (fst d) (snd d) =
     obind (_calculate_doubao_size 2 (width img) (height img)) (fun wm_size =>
     obind (prepared_watermark K wm_size wm 0.25) (fun rw' =>
     obind (_calculate_doubao_position (width img) (height img) (fst wm_size) (snd wm_size))
       (fun box =>
     Return (Some (convert_image K RGB
                     (paste_image K (convert_image K RGBA img) rw' box rw')))))) /\
   logs (snd d) = logs w ++ gate_logs img).
Proof.
  split; [vm_compute; reflexivity|].
  apply (C10_skip_exists_only_for_gemini example_kernels 2%float 1%positive 2%positive
           rgb_100x2 wm_2x1 0.25%float (world_of rgb_100x2 wm_2x1)).
  - reflexivity.
  - reflexivity.
  - simpl. lia.
Defined.

(** ** Size and placement of the doubao watermark *)

Import PySpec.

(** The two ratios as binary64 values: mantissa and exponent. *)
Lemma DOUBAO_SIZE_RATIO_bits :
  Prim2SF DOUBAO_SIZE_RATIO = S754_finite false 4683743612465316 (-55).
Proof. vm_compute. reflexivity. Qed.

Lemma DOUBAO_MARGIN_RATIO_bits :
  Prim2SF DOUBAO_MARGIN_RATIO = S754_finite false 8646911284551352 (-58).
Proof. vm_compute. reflexivity. Qed.

Lemma digits_product (p M : positive) :
  Z.pos (digits2_pos M) = 53 -> Z.pos p <= 100000000 ->
  exists u, Z.pos (digits2_pos (p * M)) = 53 + u /\ 0 <= u <= 27 /\
    2 ^ u * 2 ^ 52 <= Z.pos p * Z.pos M < 2 ^ u * 2 ^ 53.
Proof.
  intros HdM Hp.
  pose proof (digits2_bounds M) as BM. rewrite HdM in BM.
  pose proof (digits2_bounds (p * M)) as BP. rewrite Pos2Z.inj_mul in BP.
  set (d := Z.pos (digits2_pos (p * M))) in *.
  exists (d - 53). split; [lia|].
  assert (Hlo : 53 <= d).
  { destruct (Z_lt_le_dec d 53) as [Hc|]; [|assumption].
    assert (2 ^ d <= 2 ^ 52) by (apply Z.pow_le_mono_r; lia).
    change (53 - 1) with 52 in BM. nia. }
  assert (Hhi : d <= 80).
  { destruct (Z_lt_le_dec 80 d) as [Hc|]; [|assumption].
    assert (2 ^ 80 <= 2 ^ (d - 1)) by (apply Z.pow_le_mono_r; lia).
    assert (Z.pos p * Z.pos M < 100000000 * 2 ^ 53 + 2 ^ 53) by nia.
    lia. }
  split; [lia|].
  replace (d - 1) with (d - 53 + 52) in BP by lia.
  replace d with (d - 53 + 53) in BP at 2 by lia.
  rewrite !Z.pow_add_r in BP by lia. exact BP.
Qed.

Lemma pow2_le_27 (u : Z) : 0 <= u <= 27 -> 0 < 2 ^ u <= 134217728.
Proof.
  intros Hu. split; [lia|]. change 134217728 with (2 ^ 27).
  apply Z.pow_le_mono_r; lia.
Qed.

Lemma trunc_mul_13 (p : positive) :
  Z.pos p <= 100000000 ->
  exists (m1 : positive) (e1 : Z),
    SFmul prec emax (binary_normalize prec emax (Z.pos p) 0 false) (S754_finite false 4683743612465316%positive (-55))
      = S754_finite false m1 e1 /\
    Z.shiftl (Z.pos m1) e1 = 13 * Z.pos p / 100.
Proof.
  intros Hp.
  destruct (digits_product p 4683743612465316%positive eq_refl Hp) as (u & Hd & Hu & Bu).
  apply (mul_trunc p 4683743612465316%positive (-55) u);
    [change (2 ^ 53) with 9007199254740992; lia|reflexivity|exact Hd|lia|lia|].
  intros M1 Hb _.
  pose proof (pow2_le_27 u Hu) as Ht.
  set (n := Z.pos p) in *. set (k := 13 * n / 100).
  assert (Hk : 100 * k <= 13 * n <= 100 * k + 99).
  { unfold k. pose proof (Z.div_mod (13 * n) 100 ltac:(lia)).
    pose proof (Z.mod_pos_bound (13 * n) 100 ltac:(lia)). lia. }
  rewrite Pos2Z.inj_mul in Hb. fold n in Hb. change (Z.pos 4683743612465316%positive) with 4683743612465316 in *.
  set (t := 2 ^ u) in *. set (B := 2 ^ (- -55 - u)).
  assert (HtB : t * B = 2 ^ 55).
  { unfold t, B. rewrite <- Z.pow_add_r by lia. f_equal. lia. }
  change (2 ^ 55) with 36028797018963968 in HtB.
  assert (HB : 0 < B) by (unfold B; apply Z.pow_pos_nonneg; lia).
  set (q := n * 4683743612465316 / t) in *.
  assert (Hq : t * q <= n * 4683743612465316 < t * q + t).
  { unfold q. pose proof (Z.div_mod (n * 4683743612465316) t ltac:(lia)).
    pose proof (Z.mod_pos_bound (n * 4683743612465316) t ltac:(lia)). lia. }
  assert (L : t * (k * B) <= n * 4683743612465316).
  { replace (t * (k * B)) with (k * (t * B)) by ring. rewrite HtB. lia. }
  assert (U : n * 4683743612465316 + t < t * ((k + 1) * B)).
  { replace (t * ((k + 1) * B)) with ((k + 1) * (t * B)) by ring. rewrite HtB. lia. }
  split; nia.
Qed.

Lemma trunc_mul_03 (p : positive) :
  Z.pos p <= 100000000 ->
  exists (m1 : positive) (e1 : Z),
    SFmul prec emax (binary_normalize prec emax (Z.pos p) 0 false) (S754_finite false 8646911284551352%positive (-58))
      = S754_finite false m1 e1 /\
    Z.shiftl (Z.pos m1) e1 = 3 * Z.pos p / 100.
Proof.
  intros Hp.
  destruct (digits_product p 8646911284551352%positive eq_refl Hp) as (u & Hd & Hu & Bu).
  apply (mul_trunc p 8646911284551352%positive (-58) u);
    [change (2 ^ 53) with 9007199254740992; lia|reflexivity|exact Hd|lia|lia|].
  intros M1 Hb Hup.
  pose proof (pow2_le_27 u Hu) as Ht.
  set (n := Z.pos p) in *. set (k := 3 * n / 100).
  assert (Hk : 100 * k <= 3 * n <= 100 * k + 99).
  { unfold k. pose proof (Z.div_mod (3 * n) 100 ltac:(lia)).
    pose proof (Z.mod_pos_bound (3 * n) 100 ltac:(lia)). lia. }
  rewrite Pos2Z.inj_mul in Hb, Hup. fold n in Hb, Hup.
  change (Z.pos 8646911284551352%positive) with 8646911284551352 in *.
  change (2 ^ 53) with 9007199254740992 in Bu.
  change (2 ^ 52) with 4503599627370496 in Bu.
  set (t := 2 ^ u) in *. set (B := 2 ^ (- -58 - u)).
  assert (HtB : t * B = 2 ^ 58).
  { unfold t, B. rewrite <- Z.pow_add_r by lia. f_equal. lia. }
  change (2 ^ 58) with 288230376151711744 in HtB.
  assert (HB : 0 < B) by (unfold B; apply Z.pow_pos_nonneg; lia).
  pose proof (Z.div_mod (n * 8646911284551352) t ltac:(lia)) as Edm.
  pose proof (Z.mod_pos_bound (n * 8646911284551352) t ltac:(lia)) as Bm.
  set (q := n * 8646911284551352 / t) in *.
  set (r := (n * 8646911284551352) mod t) in *.
  assert (EkB : t * (k * B) = k * 288230376151711744).
  { replace (t * (k * B)) with (k * (t * B)) by ring. rewrite HtB. reflexivity. }
  assert (EkB1 : t * ((k + 1) * B) = (k + 1) * 288230376151711744).
  { replace (t * ((k + 1) * B)) with ((k + 1) * (t * B)) by ring. rewrite HtB. reflexivity. }
  destruct (Z.eq_dec (3 * n) (100 * k)) as [Hz|Hnz].
  - (* 3n/100 is an integer: the product is just below it and rounds up to it *)
    assert (Hq : q = k * B - 1) by nia.
    assert (Hr : 2 * r > t) by nia.
    assert (EM : M1 = q + 1) by (apply Hup; lia).
    nia.
  - assert (L : t * (k * B) <= n * 8646911284551352) by lia.
    assert (U : n * 8646911284551352 + t < t * ((k + 1) * B)) by lia.
    split; nia.
Qed.

(** For every width up to 10^8, [int(W * 0.13)] in binary64 is
    [13 * W / 100]: 0.13 is read as a value just above 13/100, and the
    rounded product stays below the next integer. *)
Lemma int_size_ratio (n : Z) :
  0 <= n <= 100000000 ->
  obind (int_mul_float n DOUBAO_SIZE_RATIO) int_of_float = Return (13 * n / 100).
Proof.
  intros Hn. destruct n as [|p|p]; [vm_compute; reflexivity| |lia].
  apply (int_mul_float_trunc p 4683743612465316 (-55));
    [lia|exact DOUBAO_SIZE_RATIO_bits|apply trunc_mul_13; lia].
Qed.

(** And [int(W * 0.03)] is [3 * W / 100]: 0.03 is read as a value just
    below 3/100, and where 3W/100 is an integer the product rounds up to
    it. *)
Lemma int_margin_ratio (n : Z) :
  0 <= n <= 100000000 ->
  obind (int_mul_float n DOUBAO_MARGIN_RATIO) int_of_float = Return (3 * n / 100).
Proof.
  intros Hn. destruct n as [|p|p]; [vm_compute; reflexivity| |lia].
  apply (int_mul_float_trunc p 8646911284551352 (-58));
    [lia|exact DOUBAO_MARGIN_RATIO_bits|apply trunc_mul_03; lia].
Qed.

(** C8.  For an image of width W and height H (each at most 10^8, as for
    every image the safety gate lets through), the doubao watermark is
    floor(0.13 W) wide and int(width / ratio) high, a floor when the ratio
    is positive; the margins are floor(0.03 W) and floor(0.03 H); the paste
    position is (W - margin_x - wmW, H - margin_y - wmH).  A 1000x800 image
    with ratio 2 gets 130x65, margins (30, 24), position (840, 711). *)
Theorem C8_doubao_geometry (ratio : float) (W H : Z) :
  0 <= W <= 100000000 -> 0 <= H <= 100000000 ->
  _calculate_doubao_size ratio W H =
    obind (obind (int_div_float (13 * W / 100) ratio) int_of_float) (fun wm_height =>
    Return (13 * W / 100, wm_height)) /\
  ((0 <? ratio)%float = true ->
   _calculate_doubao_size ratio W H =
     obind (obind (int_div_float (13 * W / 100) ratio) float_floor) (fun wm_height =>
     Return (13 * W / 100, wm_height))) /\
  _calculate_doubao_margin W H = Return (3 * W / 100, 3 * H / 100) /\
  (forall wm_width wm_height,
     _calculate_doubao_position W H wm_width wm_height =
       Return (W - 3 * W / 100 - wm_width, H - 3 * H / 100 - wm_height)) /\
  _calculate_doubao_size 2 1000 800 = Return (130, 65) /\
  _calculate_doubao_margin 1000 800 = Return (30, 24) /\
  _calculate_doubao_position 1000 800 130 65 = Return (840, 711).
Proof.
  intros HW HH.
  assert (Hsize : _calculate_doubao_size ratio W H =
    obind (obind (int_div_float (13 * W / 100) ratio) int_of_float) (fun wm_height =>
    Return (13 * W / 100, wm_height))).
  { unfold _calculate_doubao_size. rewrite (int_size_ratio W HW). reflexivity. }
  split; [exact Hsize|]. split; [|split; [|split; [|split; [|split]]]].
  - intros Hr. rewrite Hsize.
    rewrite int_div_float_floor; [reflexivity| |exact Hr].
    assert (0 <= 13 * W / 100) by (apply Z.div_pos; lia).
    assert (13 * W / 100 <= 13 * W) by (apply Z.div_le_upper_bound; lia).
    lia.
  - unfold _calculate_doubao_margin.
    rewrite (int_margin_ratio W HW). simpl obind.
    rewrite (int_margin_ratio H HH). reflexivity.
  - intros wm_width wm_height. unfold _calculate_doubao_position.
    rewrite (int_margin_ratio W HW). simpl obind.
    rewrite (int_margin_ratio H HH). reflexivity.
  - vm_compute. reflexivity.
  - vm_compute. reflexivity.
  - vm_compute. reflexivity.
Qed.

Lemma C8_witness :
  _calculate_doubao_size 2 1000 800 =
    obind (obind (int_div_float (13 * 1000 / 100) 2) int_of_float) (fun wm_height =>
    Return (13 * 1000 / 100, wm_height)) /\
  ((0 <? 2)%float = true ->
   _calculate_doubao_size 2 1000 800 =
     obind (obind (int_div_float (13 * 1000 / 100) 2) float_floor) (fun wm_height =>
     Return (13 * 1000 / 100, wm_height))) /\
  _calculate_doubao_margin 1000 800 = Return (3 * 1000 / 100, 3 * 800 / 100) /\
  (forall wm_width wm_height,
     _calculate_doubao_position 1000 800 wm_width wm_height =
       Return (1000 - 3 * 1000 / 100 - wm_width, 800 - 3 * 800 / 100 - wm_height)) /\
  _calculate_doubao_size 2 1000 800 = Return (130, 65) /\
  _calculate_doubao_margin 1000 800 = Return (30, 24) /\
  _calculate_doubao_position 1000 800 130 65 = Return (840, 711).
Proof.
  apply (C8_doubao_geometry 2%float 1000 800); lia.
Defined.

(** ** Placement of the gemini watermark *)

(** C7.  The gemini margin is 64 when both image dimensions exceed 1024 and
    32 otherwise, and the paste position is
    (W - margin - wmW, H - margin - wmH); a 2000x1500 image with a 200x100
    watermark gets margin 64 and position (1736, 1336). *)
Theorem C7_gemini_position :
  (forall (W H : Z) (wm : Image),
     _calculate_gemini_position W H wm =
       let margin := if decide (1024 < W /\ 1024 < H) then 64 else 32 in
       (W - margin - width wm, H - margin - height wm)) /\
  (forall m px,
     _calculate_gemini_position 2000 1500 (mkImage m 200 100 px) = (1736, 1336)).
Proof.
  split; [|reflexivity].
  intros W H wm. unfold _calculate_gemini_position, size.
  unfold LARGE_IMAGE_THRESHOLD, LARGE_IMAGE_MARGIN, SMALL_IMAGE_MARGIN.
  destruct (Z.gtb_spec W 1024), (Z.gtb_spec H 1024); simpl;
    case_decide; first [reflexivity | lia].
Qed.

End ImageProcessorSpec.

(* ===================================================================== *)
(** * Properties of Python strings *)
(* ===================================================================== *)

Module PyStrSpec.
Import PyStr.

Lemma append_cons (c : ascii) (s t : string) :
  (String c s ++ t = String c (s ++ t))%string.
Proof. reflexivity. Qed.

Lemma startswith_app (s p : string) :
  startswith s p = true <-> exists t, s = (p ++ t)%string.
Proof.
  unfold startswith. revert s. induction p as [|a p IH]; intros s.
  - split; [intros _; exists s; reflexivity|intros _; destruct s; reflexivity].
  - destruct s as [|c s]; simpl.
    + split; [discriminate|intros (t & Ht); discriminate].
    + destruct (Ascii.ascii_dec a c) as [->|Hne].
      * rewrite IH. split; intros (t & Ht); exists t;
          [rewrite Ht; reflexivity|rewrite append_cons in Ht; congruence].
      * split; [discriminate|intros (t & Ht); rewrite append_cons in Ht; congruence].
Qed.

Lemma substring_full (s : string) : substring 0 (String.length s) s = s.
Proof. induction s; simpl; congruence. Qed.

Lemma substring_split (s : string) (m : nat) :
  (m <= String.length s)%nat ->
  s = (substring 0 m s ++ substring m (String.length s - m) s)%string.
Proof.
  revert m. induction s as [|c s IH]; intros m Hm.
  - simpl in Hm. replace m with 0%nat by lia. reflexivity.
  - destruct m as [|m].
    + rewrite Nat.sub_0_r, substring_full. reflexivity.
    + simpl in Hm. simpl String.length. simpl substring.
      rewrite append_cons. f_equal. apply IH. lia.
Qed.

Lemma substring_app_r (t p : string) :
  substring (String.length t) (String.length p) (t ++ p) = p.
Proof.
  induction t as [|c t IH]; [|rewrite append_cons; simpl; exact IH].
  change ("" ++ p)%string with p.
  induction p as [|c p IH]; simpl; [reflexivity|]. f_equal. exact IH.
Qed.

Lemma string_length_app (s t : string) :
  String.length (s ++ t) = (String.length s + String.length t)%nat.
Proof. induction s; [reflexivity|rewrite append_cons; simpl; congruence]. Qed.

Lemma endswith_app (s p : string) :
  endswith s p = true <-> exists t, s = (t ++ p)%string.
Proof.
  unfold endswith. rewrite andb_true_iff, Nat.leb_le, String.eqb_eq. split.
  - intros [Hle Hs].
    exists (substring 0 (String.length s - String.length p) s).
    pose proof (substring_split s (String.length s - String.length p)) as H.
    replace (String.length s - (String.length s - String.length p))%nat
      with (String.length p) in H by lia.
    rewrite Hs in H. apply H. lia.
  - intros (t & ->). rewrite string_length_app. split; [lia|].
    replace (String.length t + String.length p - String.length p)%nat
      with (String.length t) by lia.
    apply substring_app_r.
Qed.

Lemma slice_from_app (p s : string) :
  slice_from (String.length p) (p ++ s) = s.
Proof.
  unfold slice_from. rewrite string_length_app.
  replace (String.length p + String.length s - String.length p)%nat
    with (String.length s) by lia.
  apply substring_app_r.
Qed.

End PyStrSpec.

(* ===================================================================== *)
(** * Properties of utils/network_utils.py *)
(* ===================================================================== *)

Module NetworkUtilsSpec.
Import Py PyStr Lib NetworkUtils PyStrSpec.

(** ** Runs *)

Lemma bind_run {A B} (m : IO A) (k : A -> IO B) (t t' : Trace) (a : A) :
  m t = (Return a, t') -> (m ≫= k) t = k a t'.
Proof. intros H. unfold mbind, IO_bind. rewrite H. reflexivity. Qed.

Lemma bind_fail {A B} (m : IO A) (k : A -> IO B) (t t' : Trace) (e : exn) :
  m t = (Raise e, t') -> (m ≫= k) t = (Raise e, t').
Proof. intros H. unfold mbind, IO_bind. rewrite H. reflexivity. Qed.

Lemma try_return {A} (m : IO A) (c : exn -> bool) (h : exn -> IO A) (t t' : Trace) (a : A) :
  m t = (Return a, t') -> try_catch m c h t = (Return a, t').
Proof. intros H. unfold try_catch. rewrite H. reflexivity. Qed.

Lemma try_caught {A} (m : IO A) (c : exn -> bool) (h : exn -> IO A) (t t' : Trace) (e : exn) :
  m t = (Raise e, t') -> c e = true -> try_catch m c h t = h e t'.
Proof. intros H Hc. unfold try_catch. rewrite H, Hc. reflexivity. Qed.

Lemma try_passed {A} (m : IO A) (c : exn -> bool) (h : exn -> IO A) (t t' : Trace) (e : exn) :
  m t = (Raise e, t') -> c e = false -> try_catch m c h t = (Raise e, t').
Proof. intros H Hc. unfold try_catch. rewrite H, Hc. reflexivity. Qed.

Lemma Exception_false (e : exn) : Exception e = false <-> e = CancelledError.
Proof.
  unfold Exception. rewrite negb_false_iff, bool_decide_eq_true. reflexivity.
Qed.

(** An event that uses no session: a log record, or a question to the
    event loop's [getaddrinfo].  Nothing is sent and nothing is read. *)
Definition offline (ev : Event) : Prop :=
  match ev with
  | Logged _ _ | Getaddrinfo _ _ => True
  | _ => False
  end.

(** One family's lookup in [_resolve_hostname]: the first address of the
    answer; nothing when the answer is empty or the lookup fails with
    [gaierror]; any other failure is passed on. *)
Definition first_address (answer : outcome (list AddrInfo)) : outcome (option string) :=
  match answer with
  | Return (a :: _) => Return (Some (sockaddr_host a))
  | Return [] => Return None
  | Raise e => if bool_decide (e = gaierror) then Return None else Raise e
  end.

Lemma lookup_run (E : Env) (h : string) (f : Family) (t : Trace) :
  try_catch
    (addrinfo ← call (Getaddrinfo h f) (fun t => getaddrinfo E t h f);
     match addrinfo with
     | a :: _ => mret (Some (sockaddr_host a))
     | [] => mret None
     end)
    (fun e => bool_decide (e = gaierror))
    (fun _ => mret None) t
  = (first_address (getaddrinfo E t h f), t ++ [Getaddrinfo h f]).
Proof.
  unfold try_catch, mbind, IO_bind, call, first_address.
  destruct (getaddrinfo E t h f) as [[|a l]|e]; try reflexivity.
  destruct (bool_decide (e = gaierror)); reflexivity.
Qed.

(** What [_resolve_hostname] returns and leaves in the trace. *)
Definition resolve_hostname_result (E : Env) (h : string) (t : Trace)
  : option string * list Event :=
  let t4 := t ++ [Getaddrinfo h AF_INET] in
  match first_address (getaddrinfo E t h AF_INET) with
  | Return (Some ip) => (Some ip, [Getaddrinfo h AF_INET])
  | Return None =>
      match first_address (getaddrinfo E t4 h AF_INET6) with
      | Return r => (r, [Getaddrinfo h AF_INET; Getaddrinfo h AF_INET6])
      | Raise e =>
          (None, [Getaddrinfo h AF_INET; Getaddrinfo h AF_INET6;
                  Logged DEBUG ("DNS解析失败 " ++ h ++ ": " ++ str_exn E e)%string])
      end
  | Raise e =>
      (None, [Getaddrinfo h AF_INET;
              Logged DEBUG ("DNS解析失败 " ++ h ++ ": " ++ str_exn E e)%string])
  end.

Lemma handler_catches_all (e : exn) :
  bool_decide (e = gaierror) || bool_decide (e = CancelledError) || Exception e = true.
Proof.
  unfold Exception. destruct (bool_decide (e = CancelledError)).
  - apply orb_true_iff. left. apply orb_true_r.
  - apply orb_true_r.
Qed.

Lemma resolve_hostname_run (E : Env) (h : string) (t : Trace) :
  _resolve_hostname E h t =
    (Return (fst (resolve_hostname_result E h t)),
     t ++ snd (resolve_hostname_result E h t)).
Proof.
  unfold _resolve_hostname, resolve_hostname_result.
  set (t4 := t ++ [Getaddrinfo h AF_INET]).
  destruct (first_address (getaddrinfo E t h AF_INET)) as [[ip|]|e] eqn:E4.
  - apply try_return.
    erewrite bind_run; [|rewrite lookup_run, E4; reflexivity]. reflexivity.
  - destruct (first_address (getaddrinfo E t4 h AF_INET6)) as [r|e] eqn:E6.
    + apply try_return.
      erewrite bind_run; [|rewrite lookup_run, E4; reflexivity].
      cbv beta iota. rewrite lookup_run. fold t4. rewrite E6. simpl.
      unfold t4. rewrite <- app_assoc. reflexivity.
    + erewrite try_caught; [| |apply handler_catches_all]; cycle 1.
      { erewrite bind_run; [|rewrite lookup_run, E4; reflexivity].
        cbv beta iota. rewrite lookup_run. fold t4. rewrite E6. reflexivity. }
      unfold logger, emit, mbind, IO_bind, mret, IO_ret, t4. simpl.
      rewrite <- !app_assoc. reflexivity.
  - erewrite try_caught; [| |apply handler_catches_all]; cycle 1.
    { erewrite bind_fail; [reflexivity|]. rewrite lookup_run, E4. reflexivity. }
    unfold logger, emit, mbind, IO_bind, mret, IO_ret. simpl.
    rewrite <- !app_assoc. reflexivity.
Qed.

Lemma resolve_hostname_offline (E : Env) (h : string) (t : Trace) :
  Forall offline (snd (resolve_hostname_result E h t)).
Proof.
  unfold resolve_hostname_result.
  repeat case_match; simpl; repeat constructor.
Qed.

(** What a pair returned by the URL check is known to satisfy. *)
Definition vetted (E : Env) (url : string) (info : string * string) : Prop :=
  _is_private_ip E (fst info) = false /\
  exists p, urlparse E url = Return p /\
    (scheme p = "http" \/ scheme p = "https") /\
    hostname p = Some (snd info) /\ snd info <> "".

Lemma scheme_allowed (s : string) :
  bool_decide (s ∈ ["http"; "https"]) = true -> s = "http" \/ s = "https".
Proof.
  rewrite bool_decide_eq_true, !elem_of_cons, elem_of_nil. tauto.
Qed.

Lemma safe_url_run (E : Env) (url : string) (t t' : Trace)
    (o : outcome (option (string * string))) :
  _is_safe_url_with_ip E url t = (o, t') ->
  exists new, t' = t ++ new /\ Forall offline new /\
    match o with
    | Return (Some info) => vetted E url info
    | Return None => True
    | Raise e => e = CancelledError
    end.
Proof.
  unfold _is_safe_url_with_ip, try_catch, mbind, IO_bind, of_outcome.
  destruct (urlparse E url) as [p|e] eqn:Ep.
  2:{ destruct (Exception e) eqn:Ee.
      - intros [= <- <-]. eexists. split; [reflexivity|]. split; [|exact I].
        repeat constructor.
      - intros [= <- <-]. exists []. rewrite app_nil_r.
        split; [reflexivity|]. split; [constructor|]. apply Exception_false, Ee. }
  destruct (bool_decide (scheme p ∈ ["http"; "https"])) eqn:Hs; cbv beta iota delta [negb].
  2:{ intros [= <- <-]. exists []. rewrite app_nil_r. repeat split; constructor. }
  apply scheme_allowed in Hs.
  destruct (hostname p) as [[|c h]|] eqn:Hh.
  1,3: intros [= <- <-]; exists []; rewrite app_nil_r; repeat split; constructor.
  set (host := String c h) in *.
  assert (Hne : host <> "") by discriminate.
  destruct (_is_ip_format E host).
  { destruct (_is_private_ip E host) eqn:Hp; intros [= <- <-];
      exists []; rewrite app_nil_r; (split; [reflexivity|]); (split; [constructor|]);
      [exact I|]. split; [exact Hp|]. exists p. auto. }
  destruct (startswith host "[" && endswith host "]" && _is_ip_format E (slice_inner host)).
  { destruct (_is_private_ip E (slice_inner host)) eqn:Hp; intros [= <- <-];
      exists []; rewrite app_nil_r; (split; [reflexivity|]); (split; [constructor|]);
      [exact I|]. split; [exact Hp|]. exists p. auto. }
  destruct (existsb (matches host) DANGEROUS_PATTERNS).
  { intros [= <- <-]. exists []. rewrite app_nil_r. repeat split; constructor. }
  rewrite resolve_hostname_run.
  pose proof (resolve_hostname_offline E host t) as Hoff.
  destruct (resolve_hostname_result E host t) as [[[|c' ip]|] new]; simpl in *.
  1,3: intros [= <- <-]; exists new; repeat split; assumption.
  destruct (_is_private_ip E (String c' ip)) eqn:Hp; intros [= <- <-];
    exists new; (split; [reflexivity|]); (split; [assumption|]); [exact I|].
  split; [exact Hp|]. exists p. auto.
Qed.

(** ** Reading the body *)

(** The bytes read from responses, in the order the events record. *)
Fixpoint received (evs : list Event) : bytes :=
  match evs with
  | Received chunk :: rest => chunk ++ received rest
  | _ :: rest => received rest
  | [] => []
  end.

Definition is_log (ev : Event) : Prop :=
  match ev with
  | Logged _ _ => True
  | _ => False
  end.

Lemma len_app {A} (x y : list A) : len (x ++ y) = len x + len y.
Proof. unfold len. rewrite List.length_app. lia. Qed.

Lemma received_app (x y : list Event) : received (x ++ y) = received x ++ received y.
Proof.
  induction x as [|ev x IH]; [reflexivity|].
  destruct ev; simpl; rewrite IH; try reflexivity. apply app_assoc.
Qed.

Lemma received_chunks (chunks : list bytes) :
  received (Received <$> chunks) = concat chunks.
Proof.
  induction chunks as [|c l IH]; [reflexivity|].
  rewrite fmap_cons. simpl. rewrite IH. reflexivity.
Qed.

Lemma received_logs (evs : list Event) : Forall is_log evs -> received evs = [].
Proof.
  induction 1 as [|ev evs Hev _ IH]; [reflexivity|].
  destruct ev; simpl in *; try contradiction. exact IH.
Qed.

Lemma received_offline (evs : list Event) : Forall offline evs -> received evs = [].
Proof.
  induction 1 as [|ev evs Hev _ IH]; [reflexivity|].
  destruct ev; simpl in *; try contradiction; exact IH.
Qed.

Lemma read_chunks_run (self : Self) (err : option exn) (chunks : list bytes) :
  forall (buffer : bytes) (t t' : Trace) (o : outcome (option bytes)),
  read_chunks self buffer chunks err t = (o, t') ->
  exists (k : nat) (logs : list Event),
    t' = t ++ (Received <$> take k chunks) ++ logs /\ Forall is_log logs /\
    (Forall (fun c => len c <= 8192) chunks ->
     len buffer <= Z.max 0 (max_size self) ->
     len buffer + len (concat (take k chunks)) <= Z.max 0 (max_size self) + 8192) /\
    (k <= length chunks)%nat /\
    (len buffer <= max_size self ->
     forall j, (j < k)%nat ->
       len buffer + len (concat (take j chunks)) <= max_size self) /\
    match o with
    | Return (Some data) =>
        take k chunks = chunks /\ err = None /\ data = buffer ++ concat chunks /\
        (len buffer <= Z.max 0 (max_size self) -> len data <= Z.max 0 (max_size self)) /\
        logs = [Logged INFO ("成功下载图片，大小: " ++ pretty (len data) ++ " bytes")%string]
    | Return None => max_size self < len buffer + len (concat (take k chunks))
    | Raise e =>
        err = Some e /\
        (len buffer <= Z.max 0 (max_size self) ->
         len buffer + len (concat (take k chunks)) <= Z.max 0 (max_size self))
    end.
Proof.
  induction chunks as [|chunk rest IH]; intros buffer t t' o; simpl.
  - destruct err as [e|].
    + intros [= <- <-]. exists 0%nat, []. simpl. rewrite app_nil_r.
      split; [reflexivity|]. split; [constructor|].
      split; [intros; unfold len at 2; simpl; lia|].
      split; [lia|]. split; [intros _ j Hj; lia|].
      split; [reflexivity|]. intros; unfold len at 2; simpl; lia.
    + unfold logger, emit, mbind, IO_bind, mret, IO_ret. intros [= <- <-].
      exists 0%nat. eexists. split; [reflexivity|]. split; [repeat constructor|].
      split; [intros _ Hb; unfold len at 2; simpl; lia|].
      split; [simpl; lia|]. split; [intros _ j Hj; lia|].
      rewrite app_nil_r. repeat split; auto.
  - unfold emit at 1. unfold mbind at 1, IO_bind at 1.
    destruct (len (buffer ++ chunk) >? max_size self) eqn:Hover.
    + unfold logger, emit, mbind, IO_bind, mret, IO_ret. intros [= <- <-].
      exists 1%nat. eexists. split; [rewrite <- app_assoc; reflexivity|].
      split; [repeat constructor|]. simpl. rewrite app_nil_r.
      rewrite len_app in Hover. apply Z.gtb_lt in Hover.
      split; [intros Hc Hb; inversion Hc; subst; lia|].
      split; [lia|].
      split; [|lia].
      intros Hb j Hj. assert (j = 0%nat) as -> by lia.
      simpl. unfold len at 2. simpl. lia.
    + intros Hrun. apply IH in Hrun as (k & logs & -> & Hlogs & Hbound & Hk & Hpre & Ho).
      rewrite Z.gtb_ltb, Z.ltb_ge, len_app in Hover.
      exists (S k), logs. simpl. rewrite <- app_assoc. split; [reflexivity|].
      split; [exact Hlogs|]. rewrite !len_app in *.
      split.
      { intros Hc Hb. apply Forall_cons in Hc as [Hc1 Hc2].
        specialize (Hbound Hc2). lia. }
      split; [lia|]. split.
      { intros Hb j Hj. destruct j as [|j].
        - simpl. unfold len at 2. simpl. lia.
        - simpl. rewrite len_app. specialize (Hpre ltac:(lia) j ltac:(lia)). lia. }
      destruct o as [[data|]|e].
      * destruct Ho as (Hkk & He & Hd & Hlen & Hl).
        rewrite Hkk, <- app_assoc in *. repeat split; auto.
        intros _. apply Hlen. lia.
      * lia.
      * destruct Ho as [He Hlen]. split; [exact He|]. intros Hb.
        specialize (Hlen ltac:(lia)). lia.
Qed.

(** ** The call of [session.get] *)

Definition no_request (ev : Event) : Prop :=
  match ev with
  | Request _ _ _ => False
  | _ => True
  end.

(** What aiohttp does during a call, on a session whose resolver holds
    [pins]: it sends requests, and the names that reach the default
    resolver are names the resolver does not pin. *)
Definition by_client (pins : gmap string string) (ev : Event) : Prop :=
  match ev with
  | Sent _ _ => True
  | Resolved host _ _ => pins !! host = None
  | _ => False
  end.

(** What [download_image] does with a response: it reads chunks and writes
    log records. *)
Definition reading (ev : Event) : Prop :=
  match ev with
  | Received _ | Logged _ _ => True
  | _ => False
  end.

Lemma resolve_run (E : Env) (pins : gmap string string) (host : string) (port : Z)
    (family : Family) (t : Trace) :
  exists wire, snd (resolve E pins host port family t) = t ++ wire /\
    Forall (by_client pins) wire.
Proof.
  unfold resolve. destruct (pins !! host) as [safe_ip|] eqn:Hp.
  - exists []. rewrite app_nil_r. split; [|constructor].
    destruct (ip_address E safe_ip); [|reflexivity].
    repeat case_match; reflexivity.
  - exists [Resolved host port family]. split; [reflexivity|].
    repeat constructor. exact Hp.
Qed.

Lemma run_client_run (E : Env) (pins : gmap string string) (c : Client) :
  forall t, exists wire, snd (run_client E pins c t) = t ++ wire /\
    Forall (by_client pins) wire.
Proof.
  induction c as [host port family k IH|url address k IH|result]; intros t; simpl.
  - destruct (resolve_run E pins host port family t) as (w1 & H1 & Hw1).
    destruct (resolve E pins host port family t) as [answer t1]. simpl in H1. subst t1.
    destruct (IH answer (t ++ w1)) as (w2 & H2 & Hw2).
    exists (w1 ++ w2). rewrite H2, <- app_assoc. split; [reflexivity|].
    apply Forall_app. auto.
  - unfold emit, mbind, IO_bind.
    destruct (IH (t ++ [Sent url address])) as (w2 & H2 & Hw2).
    exists (Sent url address :: w2). rewrite H2, <- app_assoc. split; [reflexivity|].
    constructor; [exact I|exact Hw2].
  - exists []. rewrite app_nil_r. split; [reflexivity|constructor].
Qed.

Lemma pinned_get_run (E : Env) (url hostname safe_ip : string) (tm : Z) (t : Trace) :
  exists wire r,
    pinned_get E url hostname safe_ip tm t
      = (r, t ++ Request url (hostname, safe_ip) tm :: wire) /\
    Forall (by_client {[hostname := safe_ip]}) wire.
Proof.
  unfold pinned_get.
  destruct (run_client_run E {[hostname := safe_ip]} (session_get E t url tm)
              (t ++ [Request url (hostname, safe_ip) tm])) as (wire & H & Hw).
  destruct (run_client E _ _ _) as [r t1]. simpl in H. subst t1.
  exists wire, r. rewrite <- app_assoc. auto.
Qed.

(** Every chunk a response hands over is at most 8192 bytes long, as
    [iter_chunked(8192)] promises. *)
Definition chunked (E : Env) : Prop :=
  forall url hostname safe_ip tm t resp t',
    pinned_get E url hostname safe_ip tm t = (Return resp, t') ->
    Forall (fun c => len c <= 8192) (body resp).

Lemma is_log_reading (evs : list Event) : Forall is_log evs -> Forall reading evs.
Proof. intros H. eapply Forall_impl; [exact H|]. intros []; simpl; tauto. Qed.

Lemma chunks_reading (chunks : list bytes) : Forall reading (Received <$> chunks).
Proof. apply Forall_fmap, Forall_true. intros c. exact I. Qed.

Lemma reading_no_request (evs : list Event) : Forall reading evs -> Forall no_request evs.
Proof. intros H. eapply Forall_impl; [exact H|]. intros []; simpl; tauto. Qed.

Lemma by_client_no_request (pins : gmap string string) (evs : list Event) :
  Forall (by_client pins) evs -> Forall no_request evs.
Proof. intros H. eapply Forall_impl; [exact H|]. intros []; simpl; tauto. Qed.

Lemma received_client (pins : gmap string string) (evs : list Event) :
  Forall (by_client pins) evs -> received evs = [].
Proof.
  induction 1 as [|ev evs Hev _ IH]; [reflexivity|].
  destruct ev; simpl in *; try contradiction; exact IH.
Qed.

(** Chunks read one after the other, each only while what had been read
    before it was within the limit. *)
Definition checked (self : Self) (chunks : list bytes) : Prop :=
  forall j, (j < length chunks)%nat -> len (concat (take j chunks)) <= max_size self.

(** The part of [download_image] after the URL check
    (network_utils.py:186-218), for a vetted pair: the call, what aiohttp
    does during it, and then the reading. *)
Lemma fetch_run (E : Env) (self : Self) (url safe_ip hostname : string)
    (t t' : Trace) (o : outcome (option bytes)) :
  try_catch
    (response ← pinned_get E url hostname safe_ip (timeout self);
     if negb (status response =? 200) then
       logger ERROR ("下载失败，状态码: " ++ pretty (status response))%string;;
       mret None
     else read_chunks self [] (body response) (body_error response))
    Exception
    (fun e =>
       if bool_decide (e = TimeoutError) then
         logger ERROR ("下载超时: " ++ url)%string;;
         mret None
       else
         logger ERROR ("下载图片失败 " ++ url ++ ": " ++ str_exn E e)%string;;
         mret None) t = (o, t') ->
  exists wire r,
    pinned_get E url hostname safe_ip (timeout self) t
      = (r, t ++ Request url (hostname, safe_ip) (timeout self) :: wire) /\
    Forall (by_client {[hostname := safe_ip]}) wire /\
    exists rest,
      t' = t ++ Request url (hostname, safe_ip) (timeout self) :: wire ++ rest /\
      Forall reading rest /\
      (exists chunks logs,
         rest = (Received <$> chunks) ++ logs /\ Forall is_log logs /\
         (0 <= max_size self -> checked self chunks)) /\
      (chunked E -> len (received rest) <= Z.max 0 (max_size self) + 8192) /\
      (Z.max 0 (max_size self) < len (received rest) -> o = Return None) /\
      match o with
      | Return (Some data) =>
          exists resp,
            r = Return resp /\
            status resp = 200 /\ body_error resp = None /\
            data = concat (body resp) /\ len data <= Z.max 0 (max_size self) /\
            rest = (Received <$> body resp) ++
                   [Logged INFO ("成功下载图片，大小: " ++ pretty (len data) ++ " bytes")%string]
      | Return None =>
          forall resp, r = Return resp -> status resp = 200 -> body_error resp = None ->
            max_size self < len (concat (body resp))
      | Raise e => e = CancelledError
      end.
Proof.
  destruct (pinned_get_run E url hostname safe_ip (timeout self) t)
    as (wire & r & Eg & Hwire).
  set (req := Request url (hostname, safe_ip) (timeout self)) in *.
  intros Hrun. exists wire, r. split; [exact Eg|]. split; [exact Hwire|].
  revert Hrun.
  unfold try_catch. unfold mbind at 1, IO_bind at 1. rewrite Eg.
  assert (Hnil : len (received []) <= Z.max 0 (max_size self) + 8192)
    by (unfold len; simpl; lia).
  assert (Hlog : forall l msg, len (received [Logged l msg]) <= Z.max 0 (max_size self) + 8192)
    by (intros; unfold len; simpl; lia).
  assert (Hlog' : forall l msg, ~ Z.max 0 (max_size self) < len (received [Logged l msg]))
    by (intros; unfold len; simpl; lia).
  assert (Hone : forall l msg, exists chunks logs,
            [Logged l msg] = (Received <$> chunks) ++ logs /\ Forall is_log logs /\
            (0 <= max_size self -> checked self chunks)).
  { intros l msg. exists [], [Logged l msg]. split; [reflexivity|].
    split; [repeat constructor|]. intros _ j Hj. simpl in Hj. lia. }
  destruct r as [resp|e].
  2:{ destruct (Exception e) eqn:Ee.
      - destruct (bool_decide (e = TimeoutError));
          unfold logger, emit, mbind, IO_bind, mret, IO_ret; intros [= <- <-];
          (eexists; split; [rewrite <- app_assoc; reflexivity|]);
          (split; [repeat constructor|]); (split; [apply Hone|]);
          (split; [intros _; apply Hlog|]);
          (split; [intros H; apply Hlog' in H; contradiction|discriminate]).
      - intros [= <- <-]. exists []. rewrite app_nil_r. split; [reflexivity|].
        split; [constructor|].
        split.
        { exists [], []. split; [reflexivity|]. split; [constructor|].
          intros _ j Hj. simpl in Hj. lia. }
        split; [intros _; exact Hnil|].
        split; [unfold len; simpl; lia|]. apply Exception_false, Ee. }
  destruct (status resp =? 200) eqn:Est; cbv beta iota delta [negb].
  2:{ unfold logger, emit, mbind, IO_bind, mret, IO_ret. intros [= <- <-].
      eexists. split; [rewrite <- app_assoc; reflexivity|].
      split; [repeat constructor|]. split; [apply Hone|].
      split; [intros _; apply Hlog|].
      split; [intros H; apply Hlog' in H; contradiction|].
      intros resp' [= <-] Hs. apply Z.eqb_neq in Est. contradiction. }
  apply Z.eqb_eq in Est.
  destruct (read_chunks self [] (body resp) (body_error resp) (t ++ req :: wire))
    as [o1 t1] eqn:Er.
  apply read_chunks_run in Er as (k & logs & -> & Hlogs & Hbound & Hk & Hpre & Ho).
  assert (H0 : len (@nil byte) <= Z.max 0 (max_size self)) by (unfold len; simpl; lia).
  assert (Hrec : forall extra, Forall is_log extra ->
            received ((Received <$> take k (body resp)) ++ logs ++ extra)
            = concat (take k (body resp))).
  { intros extra Hx. rewrite !received_app, received_chunks.
    rewrite (received_logs logs Hlogs), (received_logs extra Hx), !app_nil_r.
    reflexivity. }
  assert (Hnr : forall extra, Forall is_log extra ->
            Forall reading ((Received <$> take k (body resp)) ++ logs ++ extra)).
  { intros extra Hx. rewrite !Forall_app.
    auto using chunks_reading, is_log_reading. }
  assert (Hchk : forall extra, Forall is_log extra ->
            exists chunks logs',
              (Received <$> take k (body resp)) ++ logs ++ extra
                = (Received <$> chunks) ++ logs' /\ Forall is_log logs' /\
              (0 <= max_size self -> checked self chunks)).
  { intros extra Hx. exists (take k (body resp)), (logs ++ extra).
    split; [reflexivity|]. split; [apply Forall_app; auto|].
    intros Hm j Hj. rewrite length_take in Hj. rewrite take_take.
    replace (j `min` k)%nat with j by lia.
    change (len (@nil byte)) with 0 in Hpre.
    specialize (Hpre Hm j ltac:(lia)). lia. }
  assert (Hb : chunked E -> len (concat (take k (body resp))) <= Z.max 0 (max_size self) + 8192).
  { intros Hc. specialize (Hbound (Hc _ _ _ _ _ _ _ Eg) H0).
    change (len (@nil byte)) with 0 in Hbound. lia. }
  change (len (@nil byte)) with 0 in Ho, H0.
  destruct o1 as [[data|]|e].
  - intros [= <- <-]. destruct Ho as (Hkk & He & Hd & Hlen & Hl).
    exists ((Received <$> take k (body resp)) ++ logs ++ []).
    rewrite (Hrec [] ltac:(constructor)).
    split; [rewrite app_nil_r, <- app_assoc; reflexivity|].
    split; [apply Hnr; constructor|].
    split; [apply Hchk; constructor|]. rewrite app_nil_r.
    split; [exact Hb|]. simpl in Hd. subst data. rewrite Hkk in *.
    specialize (Hlen ltac:(lia)).
    split; [intros H; lia|].
    exists resp. rewrite <- Hl. repeat split; auto.
  - intros [= <- <-].
    exists ((Received <$> take k (body resp)) ++ logs ++ []).
    rewrite (Hrec [] ltac:(constructor)).
    split; [rewrite app_nil_r, <- app_assoc; reflexivity|].
    split; [apply Hnr; constructor|].
    split; [apply Hchk; constructor|].
    split; [exact Hb|]. split; [reflexivity|].
    intros resp' [= <-] _ _.
    assert (Hle : len (concat (take k (body resp))) <= len (concat (body resp))).
    { rewrite <- (take_drop k (body resp)) at 2. rewrite concat_app, len_app.
      unfold len. lia. }
    lia.
  - destruct Ho as [He Hlen]. specialize (Hlen ltac:(lia)).
    destruct (Exception e) eqn:Ee.
    + destruct (bool_decide (e = TimeoutError));
        unfold logger, emit, mbind, IO_bind, mret, IO_ret; intros [= <- <-];
        (eexists ((Received <$> take k (body resp)) ++ logs ++ [Logged ERROR _]));
        rewrite (Hrec [Logged ERROR _] ltac:(repeat constructor));
        (split; [rewrite <- !app_assoc; reflexivity|]);
        (split; [apply Hnr; repeat constructor|]);
        (split; [apply Hchk; repeat constructor|]);
        (split; [exact Hb|]); (split; [reflexivity|]);
        intros resp' [= <-] _ Hne; rewrite Hne in He; discriminate.
    + intros [= <- <-].
      exists ((Received <$> take k (body resp)) ++ logs ++ []).
      rewrite (Hrec [] ltac:(constructor)).
      split; [rewrite app_nil_r, <- app_assoc; reflexivity|].
      split; [apply Hnr; constructor|].
      split; [apply Hchk; constructor|].
      split; [exact Hb|]. split; [intros H; lia|]. apply Exception_false, Ee.
Qed.

(** ** The pattern loop *)

Lemma matches_shape (h pattern : string) :
  matches h pattern = true <->
  h = pattern \/
  (exists front, h = (front ++ "." ++ clean_pattern pattern)%string) \/
  (exists back, h = (pattern ++ back)%string).
Proof.
  unfold matches. rewrite !orb_true_iff, String.eqb_eq, endswith_app, startswith_app.
  tauto.
Qed.

Fixpoint last_char (s : string) : option ascii :=
  match s with
  | "" => None
  | String c "" => Some c
  | String _ r => last_char r
  end.

Lemma last_char_app (t p : string) : p <> "" -> last_char (t ++ p) = last_char p.
Proof.
  intros Hp. induction t as [|c t IH]; [reflexivity|].
  rewrite append_cons. simpl. rewrite IH.
  destruct (t ++ p)%string eqn:Et; [|reflexivity].
  destruct t; [|discriminate]. contradiction.
Qed.

Lemma endswith_last (s p : string) :
  endswith s p = true -> p <> "" -> last_char s = last_char p.
Proof.
  intros H Hp. apply endswith_app in H as (t & ->). apply last_char_app, Hp.
Qed.

(** No pattern begins with an opening or ends on a closing bracket, with
    or without the dot the loop puts in front. *)
Definition unbracketed (pattern : string) : bool :=
  match pattern with
  | "" => false
  | String c _ => negb (Ascii.eqb c "[")
  end
  && negb (bool_decide (last_char ("." ++ clean_pattern pattern) = Some "]"%char)).

Lemma patterns_unbracketed : forallb unbracketed DANGEROUS_PATTERNS = true.
Proof. vm_compute. reflexivity. Qed.

Lemma dangerous_not_bracketed (h : string) :
  existsb (matches h) DANGEROUS_PATTERNS = true ->
  startswith h "[" && endswith h "]" = false.
Proof.
  intros Hm. apply existsb_exists in Hm as (pattern & Hin & Hm).
  pose proof patterns_unbracketed as Hu. rewrite forallb_forall in Hu.
  specialize (Hu _ Hin). unfold unbracketed in Hu.
  apply andb_true_iff in Hu as [Hfirst Hlast].
  apply negb_true_iff, bool_decide_eq_false in Hlast.
  destruct pattern as [|c pattern]; [discriminate|].
  apply negb_true_iff in Hfirst.
  apply andb_false_iff.
  destruct (startswith h "[") eqn:Hs; [right|left; reflexivity].
  apply startswith_app in Hs as (r & ->).
  apply not_true_is_false. intros He.
  apply matches_shape in Hm as [Heq|[(front & Hf)|(back & Hb)]].
  - rewrite append_cons in Heq. injection Heq as Hc _. subst c. discriminate.
  - apply Hlast. rewrite <- (last_char_app front) by discriminate.
    rewrite <- Hf. apply (endswith_last _ "]" He). discriminate.
  - rewrite !append_cons in Hb. injection Hb as Hc _. subst c. discriminate.
Qed.

(** ** [download_image] *)

Definition refusal (url : string) : Event :=
  Logged WARNING ("拒绝不安全的URL: " ++ url)%string.

Lemma download_refused (E : Env) (self : Self) (url : string) (t t1 : Trace) :
  _is_safe_url_with_ip E url t = (Return None, t1) ->
  download_image E self url t = (Return None, t1 ++ [refusal url]).
Proof.
  intros H. unfold download_image. rewrite (bind_run _ _ _ _ _ H). reflexivity.
Qed.

Lemma check_known_host (E : Env) (url : string) (p : ParseResult) (c : ascii) (h : string)
    (t : Trace) :
  urlparse E url = Return p ->
  scheme p = "http" \/ scheme p = "https" ->
  hostname p = Some (String c h) ->
  _is_safe_url_with_ip E url t =
    let host := String c h in
    if _is_ip_format E host then
      (Return (if _is_private_ip E host then None else Some (host, host)), t)
    else if startswith host "[" && endswith host "]" && _is_ip_format E (slice_inner host) then
      (Return (if _is_private_ip E (slice_inner host) then None
               else Some (slice_inner host, host)), t)
    else if existsb (matches host) DANGEROUS_PATTERNS then (Return None, t)
    else
      (Return match fst (resolve_hostname_result E host t) with
              | None | Some "" => None
              | Some ip => if _is_private_ip E ip then None else Some (ip, host)
              end,
       t ++ snd (resolve_hostname_result E host t)).
Proof.
  intros Hp Hs Hh. cbv zeta.
  unfold _is_safe_url_with_ip, try_catch, mbind, IO_bind, of_outcome. rewrite Hp.
  assert (Hb : bool_decide (scheme p ∈ ["http"; "https"]) = true).
  { apply bool_decide_eq_true. rewrite !elem_of_cons. tauto. }
  rewrite Hb, Hh. cbv beta iota delta [negb].
  destruct (_is_ip_format E (String c h)).
  { destruct (_is_private_ip E (String c h)); reflexivity. }
  destruct (startswith (String c h) "[" && endswith (String c h) "]"
            && _is_ip_format E (slice_inner (String c h))).
  { destruct (_is_private_ip E (slice_inner (String c h))); reflexivity. }
  destruct (existsb (matches (String c h)) DANGEROUS_PATTERNS); [reflexivity|].
  rewrite resolve_hostname_run.
  destruct (fst (resolve_hostname_result E (String c h) t)) as [[|c' ip]|]; try reflexivity.
  destruct (_is_private_ip E (String c' ip)); reflexivity.
Qed.

Lemma check_rejects_scheme (E : Env) (url : string) (p : ParseResult) (t : Trace) :
  urlparse E url = Return p -> scheme p <> "http" -> scheme p <> "https" ->
  _is_safe_url_with_ip E url t = (Return None, t).
Proof.
  intros Hp H1 H2.
  unfold _is_safe_url_with_ip, try_catch, mbind, IO_bind, of_outcome. rewrite Hp.
  rewrite bool_decide_eq_false_2; [reflexivity|].
  rewrite !elem_of_cons, elem_of_nil. tauto.
Qed.

Lemma check_rejects_no_host (E : Env) (url : string) (p : ParseResult) (t : Trace) :
  urlparse E url = Return p -> hostname p = None \/ hostname p = Some "" ->
  _is_safe_url_with_ip E url t = (Return None, t).
Proof.
  intros Hp Hh.
  unfold _is_safe_url_with_ip, try_catch, mbind, IO_bind, of_outcome. rewrite Hp.
  destruct (bool_decide (scheme p ∈ ["http"; "https"])); [|reflexivity].
  destruct Hh as [-> | ->]; reflexivity.
Qed.

(** X1.  A URL whose scheme is neither http nor https is refused before
    any name is resolved and before any request is sent: [download_image]
    returns [None] and the only thing it does is log the refusal. *)
Theorem download_refuses_other_schemes (E : Env) (self : Self) (url : string)
    (p : ParseResult) (t : Trace) :
  urlparse E url = Return p -> scheme p <> "http" -> scheme p <> "https" ->
  download_image E self url t = (Return None, t ++ [refusal url]).
Proof.
  intros Hp H1 H2. apply download_refused, (check_rejects_scheme E url p); assumption.
Qed.

Lemma download_refuses_other_schemes_witness :
  download_image example_env default_self "ftp://cdn.example.com/a.gif" []
  = (Return None, [refusal "ftp://cdn.example.com/a.gif"]).
Proof.
  apply (download_refuses_other_schemes example_env default_self
           "ftp://cdn.example.com/a.gif"
           (mkParseResult "ftp" (Some "cdn.example.com") "/a.gif" "") []).
  - reflexivity.
  - discriminate.
  - discriminate.
Defined.

(** X2.  A host name that is not an address literal and that a dangerous
    pattern matches is refused in the same way, without a DNS question and
    without a request. *)
Theorem download_refuses_dangerous_names (E : Env) (self : Self) (url : string)
    (p : ParseResult) (h pattern : string) (t : Trace) :
  urlparse E url = Return p -> hostname p = Some h ->
  _is_ip_format E h = false ->
  pattern ∈ DANGEROUS_PATTERNS -> matches h pattern = true ->
  download_image E self url t = (Return None, t ++ [refusal url]).
Proof.
  intros Hp Hh Hip Hin Hm. apply download_refused.
  destruct (bool_decide (scheme p ∈ ["http"; "https"])) eqn:Hs.
  2:{ apply bool_decide_eq_false in Hs. rewrite !elem_of_cons, elem_of_nil in Hs.
      apply (check_rejects_scheme E url p); tauto. }
  apply scheme_allowed in Hs.
  destruct h as [|c h]; [apply (check_rejects_no_host E url p); auto|].
  rewrite (check_known_host E url p c h t Hp Hs Hh). cbv zeta.
  assert (Hex : existsb (matches (String c h)) DANGEROUS_PATTERNS = true).
  { apply existsb_exists. exists pattern. split; [|exact Hm].
    apply list_elem_of_In, Hin. }
  rewrite Hip, (dangerous_not_bracketed _ Hex), Hex. reflexivity.
Qed.

Lemma download_refuses_dangerous_names_witness :
  download_image example_env default_self "http://db.internal/a.gif" []
  = (Return None, [refusal "http://db.internal/a.gif"]).
Proof.
  apply (download_refuses_dangerous_names example_env default_self
           "http://db.internal/a.gif"
           (mkParseResult "http" (Some "db.internal") "/a.gif" "")
           "db.internal" ".internal" []).
  - reflexivity.
  - reflexivity.
  - reflexivity.
  - unfold DANGEROUS_PATTERNS. rewrite !elem_of_cons. tauto.
  - reflexivity.
Defined.

(** Every run of [download_image]: the URL check, which uses no session,
    and then a refusal, a cancellation during the check, or exactly one
    call of [session.get] for a vetted pair, followed by the reading. *)
Lemma download_run (E : Env) (self : Self) (url : string) (t t' : Trace)
    (o : outcome (option bytes)) :
  download_image E self url t = (o, t') ->
  exists pre, Forall offline pre /\
    ((o = Return None /\ t' = t ++ pre ++ [refusal url]) \/
     (o = Raise CancelledError /\ t' = t ++ pre) \/
     exists safe_ip hostname wire r rest,
       vetted E url (safe_ip, hostname) /\
       _is_safe_url_with_ip E url t = (Return (Some (safe_ip, hostname)), t ++ pre) /\
       pinned_get E url hostname safe_ip (timeout self) (t ++ pre)
         = (r, t ++ pre ++ Request url (hostname, safe_ip) (timeout self) :: wire) /\
       Forall (by_client {[hostname := safe_ip]}) wire /\
       t' = t ++ pre ++ Request url (hostname, safe_ip) (timeout self) :: wire ++ rest /\
       Forall reading rest /\
       (exists chunks logs,
          rest = (Received <$> chunks) ++ logs /\ Forall is_log logs /\
          (0 <= max_size self -> checked self chunks)) /\
       (chunked E -> len (received rest) <= Z.max 0 (max_size self) + 8192) /\
       (Z.max 0 (max_size self) < len (received rest) -> o = Return None) /\
       match o with
       | Return (Some data) =>
           exists resp,
             r = Return resp /\
             status resp = 200 /\ body_error resp = None /\
             data = concat (body resp) /\ len data <= Z.max 0 (max_size self) /\
             rest = (Received <$> body resp) ++
                    [Logged INFO ("成功下载图片，大小: " ++ pretty (len data) ++ " bytes")%string]
       | Return None =>
           forall resp, r = Return resp -> status resp = 200 -> body_error resp = None ->
             max_size self < len (concat (body resp))
       | Raise e => e = CancelledError
       end).
Proof.
  unfold download_image. unfold mbind at 1, IO_bind at 1.
  destruct (_is_safe_url_with_ip E url t) as [o1 t1] eqn:Ec.
  destruct (safe_url_run _ _ _ _ _ Ec) as (pre & -> & Hpre & Ho1).
  intros Hrun. exists pre. split; [exact Hpre|]. revert Hrun.
  destruct o1 as [[[safe_ip hostname]|]|e].
  - intros Hf. apply fetch_run in Hf as (wire & r & Eg & Hwire & rest & -> & Hf).
    right. right. exists safe_ip, hostname, wire, r, rest.
    split; [exact Ho1|]. split; [reflexivity|]. rewrite <- !app_assoc in *.
    split; [exact Eg|]. split; [exact Hwire|]. split; [reflexivity|]. exact Hf.
  - unfold logger, emit, mbind, IO_bind, mret, IO_ret. intros [= <- <-].
    left. split; [reflexivity|]. rewrite <- app_assoc. reflexivity.
  - intros [= <- <-]. right. left. subst e. auto.
Qed.

Lemma received_pre (pre post : list Event) :
  Forall offline pre -> received (pre ++ post) = received post.
Proof. intros H. rewrite received_app, (received_offline pre H). reflexivity. Qed.

Lemma received_call (pins : gmap string string) (u : string) (pin : string * string)
    (tm : Z) (wire rest : list Event) :
  Forall (by_client pins) wire ->
  received (Request u pin tm :: wire ++ rest) = received rest.
Proof.
  intros Hw. simpl. rewrite received_app, (received_client pins wire Hw). reflexivity.
Qed.

(** X3.  [download_image] returns data only when the URL passed the check
    and its call of [session.get], on a session whose resolver pins the
    URL's host name to the text the check returned, came back with a
    response of status 200 whose body was read to its end without an
    error: the data is the whole body of that response, at most
    [max_size] bytes (for the non-negative limits the plugin uses).  The
    response is the one aiohttp hands over, after the redirects it
    followed, if any: during the call it may have sent several requests
    and asked the default resolver about other names. *)
Theorem download_returns_the_whole_body (E : Env) (self : Self) (url : string)
    (t t' : Trace) (data : bytes) :
  download_image E self url t = (Return (Some data), t') ->
  exists safe_ip hostname pre wire resp,
    vetted E url (safe_ip, hostname) /\ Forall offline pre /\
    pinned_get E url hostname safe_ip (timeout self) (t ++ pre)
      = (Return resp, t ++ pre ++ Request url (hostname, safe_ip) (timeout self) :: wire) /\
    Forall (by_client {[hostname := safe_ip]}) wire /\
    status resp = 200 /\ body_error resp = None /\
    data = concat (body resp) /\ len data <= Z.max 0 (max_size self) /\
    t' = t ++ pre ++ Request url (hostname, safe_ip) (timeout self) :: wire
           ++ (Received <$> body resp)
           ++ [Logged INFO ("成功下载图片，大小: " ++ pretty (len data) ++ " bytes")%string].
Proof.
  intros H. apply download_run in H as (pre & Hpre & [[H _]|[[H _]|H]]); try discriminate.
  destruct H as (safe_ip & hostname & wire & r & rest & Hv & _ & Eg & Hw & -> & _ & _ & _ & _
                 & resp & -> & Hs & He & Hd & Hl & ->).
  exists safe_ip, hostname, pre, wire, resp. repeat split; auto; apply Hv.
Qed.

Lemma download_returns_the_whole_body_witness :
  exists safe_ip hostname pre wire resp,
    vetted example_env "http://cdn.example.com/moved" (safe_ip, hostname) /\
    Forall offline pre /\
    pinned_get example_env "http://cdn.example.com/moved" hostname safe_ip
      (timeout default_self) ([] ++ pre)
      = (Return resp,
         [] ++ pre ++ Request "http://cdn.example.com/moved" (hostname, safe_ip)
                        (timeout default_self) :: wire) /\
    Forall (by_client {[hostname := safe_ip]}) wire /\
    status resp = 200 /\ body_error resp = None /\
    b "GIF89a" = concat (body resp) /\
    len (b "GIF89a") <= Z.max 0 (max_size default_self) /\
    [Getaddrinfo "cdn.example.com" AF_INET;
     Request "http://cdn.example.com/moved" ("cdn.example.com", "93.184.216.34") 30;
     Sent "http://cdn.example.com/moved" "93.184.216.34";
     Resolved "files.example.net" 80 AF_UNSPEC;
     Sent "http://files.example.net/a.gif" "192.168.0.7";
     Received (b "GIF89a");
     Logged INFO "成功下载图片，大小: 6 bytes"]
    = [] ++ pre ++ Request "http://cdn.example.com/moved" (hostname, safe_ip)
                     (timeout default_self) :: wire
           ++ (Received <$> body resp)
           ++ [Logged INFO ("成功下载图片，大小: " ++ pretty (len (b "GIF89a")) ++ " bytes")%string].
Proof.
  apply (download_returns_the_whole_body example_env default_self
           "http://cdn.example.com/moved" []).
  vm_compute. reflexivity.
Defined.

(** X4.  However the response behaves, [download_image] keeps at most
    [max_size] + 8192 bytes of it: it stops reading with the first chunk
    that takes the buffer over [max_size], and whenever more than
    [max_size] bytes were read it returns [None]. *)
Theorem download_is_bounded (E : Env) (self : Self) (url : string) (t t' : Trace)
    (o : outcome (option bytes)) :
  chunked E ->
  download_image E self url t = (o, t') ->
  exists new, t' = t ++ new /\
    len (received new) <= Z.max 0 (max_size self) + 8192 /\
    (Z.max 0 (max_size self) < len (received new) -> o = Return None).
Proof.
  intros Hc H. apply download_run in H as (pre & Hpre & [[-> ->]|[[-> ->]|H]]).
  - eexists. split; [reflexivity|]. rewrite received_pre by exact Hpre.
    unfold len. simpl. split; [lia|reflexivity].
  - exists pre. split; [reflexivity|]. rewrite (received_offline pre Hpre).
    unfold len. simpl. split; lia.
  - destruct H as (safe_ip & hostname & wire & r & rest & _ & _ & _ & Hw & -> & _ & _ & Hb & Hover & _).
    eexists. split; [reflexivity|]. rewrite received_pre by exact Hpre.
    rewrite (received_call _ _ _ _ _ _ Hw). auto.
Qed.

(** A client all of whose responses come in chunks of at most 8192
    bytes. *)
Fixpoint client_chunked (c : Client) : Prop :=
  match c with
  | Resolve _ _ _ k => forall answer, client_chunked (k answer)
  | Send _ _ k => client_chunked k
  | Finish (Return resp) => Forall (fun c => len c <= 8192) (body resp)
  | Finish (Raise _) => True
  end.

Lemma run_client_chunked (E : Env) (pins : gmap string string) (c : Client) :
  client_chunked c ->
  forall t resp t', run_client E pins c t = (Return resp, t') ->
  Forall (fun c => len c <= 8192) (body resp).
Proof.
  induction c as [host port family k IH|url address k IH|result];
    simpl; intros Hc t resp t'.
  - destruct (resolve E pins host port family t) as [answer t1].
    apply (IH answer (Hc answer)).
  - unfold emit, mbind, IO_bind. apply (IH Hc).
  - unfold of_outcome. intros [= -> _]. exact Hc.
Qed.

Lemma chunked_example : chunked example_env.
Proof.
  intros url hostname safe_ip tm t resp t'. unfold pinned_get.
  apply run_client_chunked.
  assert (Hx : forall u h k, client_chunked k -> client_chunked (example_exchange u h k)).
  { intros u h k Hk [[|r l]|e]; simpl; auto. }
  unfold example_env. simpl session_get.
  repeat case_match; repeat apply Hx; simpl; auto;
    repeat constructor; vm_compute; discriminate.
Qed.

Lemma download_is_bounded_witness :
  exists new,
    [Getaddrinfo "cdn.example.com" AF_INET;
     Request "http://cdn.example.com/a.gif" ("cdn.example.com", "93.184.216.34") 30;
     Sent "http://cdn.example.com/a.gif" "93.184.216.34";
     Received (b "GIF89a");
     Logged ERROR "图片超过大小限制: 6 bytes"] = [] ++ new /\
    len (received new) <= Z.max 0 (max_size (mkSelf 30 4)) + 8192 /\
    (Z.max 0 (max_size (mkSelf 30 4)) < len (received new) ->
     Return None = Return (@None bytes)).
Proof.
  apply (download_is_bounded example_env (mkSelf 30 4) "http://cdn.example.com/a.gif" []).
  - exact chunked_example.
  - vm_compute. reflexivity.
Defined.

Lemma not_offline_request (evs : list Event) (u : string) (pin : string * string) (tm : Z) :
  Forall offline evs -> Request u pin tm ∉ evs.
Proof.
  intros H Hin. rewrite Forall_forall in H. exact (H _ Hin).
Qed.

Lemma not_request (evs : list Event) (u : string) (pin : string * string) (tm : Z) :
  Forall no_request evs -> Request u pin tm ∉ evs.
Proof.
  intros H Hin. rewrite Forall_forall in H. exact (H _ Hin).
Qed.

Lemma not_offline_resolved (evs : list Event) (h : string) (port : Z) (family : Family) :
  Forall offline evs -> Resolved h port family ∉ evs.
Proof.
  intros H Hin. rewrite Forall_forall in H. exact (H _ Hin).
Qed.

Lemma not_reading_resolved (evs : list Event) (h : string) (port : Z) (family : Family) :
  Forall reading evs -> Resolved h port family ∉ evs.
Proof.
  intros H Hin. rewrite Forall_forall in H. exact (H _ Hin).
Qed.

Lemma pinned_not_resolved (h ip : string) (evs : list Event) (port : Z) (family : Family) :
  Forall (by_client {[h := ip]}) evs -> Resolved h port family ∉ evs.
Proof.
  intros H Hin. rewrite Forall_forall in H. specialize (H _ Hin). simpl in H.
  rewrite lookup_singleton_eq in H. discriminate.
Qed.

(** X5.  Whatever the URL and whatever the network answers,
    [download_image] calls [session.get] at most once: for the URL it was
    given, on a session with the configured timeout whose resolver pins
    the URL's host name to the text the check returned, which
    [_is_private_ip] does not find private.  Before the call nothing but
    the check's log records and [getaddrinfo] questions happens; requests
    are sent and chunks are read only after it.  Whatever aiohttp does
    during the call, redirects included, the pinned name never reaches the
    default resolver.  The only exception [download_image] lets through is
    the cancellation of the task. *)
Theorem download_makes_one_pinned_call (E : Env) (self : Self) (url : string)
    (t t' : Trace) (o : outcome (option bytes)) :
  download_image E self url t = (o, t') ->
  (forall e, o = Raise e -> e = CancelledError) /\
  exists new, t' = t ++ new /\
    (forall u pin tm, Request u pin tm ∈ new ->
       u = url /\ tm = timeout self /\ vetted E url (snd pin, fst pin) /\
       forall port family, Resolved (fst pin) port family ∉ new) /\
    (forall front back u pin tm, new = front ++ Request u pin tm :: back ->
       Forall offline front /\ Forall no_request back) /\
    (forall ev, ev ∈ new -> offline ev \/ exists u pin tm, Request u pin tm ∈ new).
Proof.
  intros H. apply download_run in H as (pre & Hpre & [[-> ->]|[[-> ->]|H]]).
  - split; [discriminate|]. eexists. split; [reflexivity|].
    assert (Hoff : Forall offline (pre ++ [refusal url])).
    { apply Forall_app. split; [exact Hpre|repeat constructor]. }
    split; [|split].
    + intros u pin tm Hin. destruct (not_offline_request _ _ _ _ Hoff Hin).
    + intros front back u pin tm Heq. exfalso.
      apply (not_offline_request _ u pin tm Hoff). rewrite Heq.
      apply elem_of_app. right. left.
    + intros ev Hin. rewrite Forall_forall in Hoff. left. exact (Hoff _ Hin).
  - split; [intros e [= <-]; reflexivity|]. exists pre. split; [reflexivity|].
    split; [|split].
    + intros u pin tm Hin. destruct (not_offline_request _ _ _ _ Hpre Hin).
    + intros front back u pin tm Heq. exfalso.
      apply (not_offline_request _ u pin tm Hpre). rewrite Heq.
      apply elem_of_app. right. left.
    + intros ev Hin. rewrite Forall_forall in Hpre. left. exact (Hpre _ Hin).
  - destruct H as (safe_ip & hostname & wire & r & rest & Hv & _ & _ & Hw & -> & Hrest & _ & _ & Hnone & Ho).
    assert (Hback : Forall no_request (wire ++ rest)).
    { apply Forall_app. split; [exact (by_client_no_request _ _ Hw)|].
      exact (reading_no_request _ Hrest). }
    split.
    { intros e ->. exact Ho. }
    clear Hnone Ho.
    eexists. split; [reflexivity|]. split; [|split].
    + intros u pin tm Hin. apply elem_of_app in Hin as [Hin|Hin].
      { destruct (not_offline_request _ _ _ _ Hpre Hin). }
      apply elem_of_cons in Hin as [Heq|Hin].
      2:{ destruct (not_request _ _ _ _ Hback Hin). }
      injection Heq as -> -> ->. simpl. repeat split; auto; try apply Hv.
      intros port family Hin. apply elem_of_app in Hin as [Hin|Hin].
      { exact (not_offline_resolved _ _ _ _ Hpre Hin). }
      apply elem_of_cons in Hin as [Heq|Hin]; [discriminate|].
      apply elem_of_app in Hin as [Hin|Hin].
      * exact (pinned_not_resolved _ _ _ _ _ Hw Hin).
      * exact (not_reading_resolved _ _ _ _ Hrest Hin).
    + intros front back u pin tm Heq.
      assert (Hsplit : front = pre /\ back = wire ++ rest).
      { revert front Heq Hpre. clear -Hback.
        induction pre as [|ev pre IH]; intros front Heq Hpre.
        - destruct front as [|ev front]; simpl in Heq.
          + injection Heq; intros; subst; auto.
          + injection Heq as _ Heq. exfalso.
            apply (not_request _ u pin tm Hback). rewrite Heq.
            apply elem_of_app. right. left.
        - apply Forall_cons in Hpre as [Hev Hpre].
          destruct front as [|ev' front]; simpl in Heq.
          + injection Heq as Heq _. subst ev. destruct Hev.
          + injection Heq as Hev' Heq. subst ev'.
            destruct (IH _ Heq Hpre) as [-> ->]. auto. }
      destruct Hsplit as [-> ->]. auto.
    + intros ev _. right. exists url, (hostname, safe_ip), (timeout self).
      apply elem_of_app. right. left.
Qed.

Lemma download_makes_one_pinned_call_witness :
  (forall e, Return (Some (b "GIF89a")) = Raise e -> e = CancelledError) /\
  exists new,
    [Getaddrinfo "cdn.example.com" AF_INET;
     Request "http://cdn.example.com/moved" ("cdn.example.com", "93.184.216.34") 30;
     Sent "http://cdn.example.com/moved" "93.184.216.34";
     Resolved "files.example.net" 80 AF_UNSPEC;
     Sent "http://files.example.net/a.gif" "192.168.0.7";
     Received (b "GIF89a");
     Logged INFO "成功下载图片，大小: 6 bytes"] = [] ++ new /\
    (forall u pin tm, Request u pin tm ∈ new ->
       u = "http://cdn.example.com/moved" /\ tm = timeout default_self /\
       vetted example_env "http://cdn.example.com/moved" (snd pin, fst pin) /\
       forall port family, Resolved (fst pin) port family ∉ new) /\
    (forall front back u pin tm, new = front ++ Request u pin tm :: back ->
       Forall offline front /\ Forall no_request back) /\
    (forall ev, ev ∈ new -> offline ev \/ exists u pin tm, Request u pin tm ∈ new).
Proof.
  apply (download_makes_one_pinned_call example_env default_self
           "http://cdn.example.com/moved" []).
  vm_compute. reflexivity.
Defined.

(** X6.  When the URL passed the check and the response [session.get]
    hands over has a status other than 200, [download_image] returns
    [None] without reading the body: after the call, and what aiohttp did
    during it, there is only the log record of the status. *)
Theorem download_ignores_other_statuses (E : Env) (self : Self) (url : string)
    (safe_ip hostname : string) (resp : Response) (t t1 t2 : Trace) :
  _is_safe_url_with_ip E url t = (Return (Some (safe_ip, hostname)), t1) ->
  pinned_get E url hostname safe_ip (timeout self) t1 = (Return resp, t2) ->
  status resp <> 200 ->
  exists wire,
    Forall (by_client {[hostname := safe_ip]}) wire /\
    t2 = t1 ++ Request url (hostname, safe_ip) (timeout self) :: wire /\
    download_image E self url t =
      (Return None,
       t1 ++ Request url (hostname, safe_ip) (timeout self) :: wire ++
             [Logged ERROR ("下载失败，状态码: " ++ pretty (status resp))%string]).
Proof.
  intros Hc Hg Hs.
  destruct (pinned_get_run E url hostname safe_ip (timeout self) t1)
    as (wire & r & Eg & Hw).
  rewrite Hg in Eg. injection Eg as <- ->.
  exists wire. split; [exact Hw|]. split; [reflexivity|].
  unfold download_image. rewrite (bind_run _ _ _ _ _ Hc).
  cbv beta iota. unfold try_catch. unfold mbind at 1, IO_bind at 1.
  rewrite Hg. apply Z.eqb_neq in Hs. rewrite Hs. cbv beta iota delta [negb].
  unfold logger, emit, mbind, IO_bind, mret, IO_ret. rewrite <- app_assoc. reflexivity.
Qed.

Lemma download_ignores_other_statuses_witness :
  exists wire,
    Forall (by_client {["cdn.example.com" := "93.184.216.34"]}) wire /\
    [Getaddrinfo "cdn.example.com" AF_INET;
     Request "http://cdn.example.com/missing" ("cdn.example.com", "93.184.216.34") 30;
     Sent "http://cdn.example.com/missing" "93.184.216.34"]
    = [Getaddrinfo "cdn.example.com" AF_INET] ++
      Request "http://cdn.example.com/missing" ("cdn.example.com", "93.184.216.34")
        (timeout default_self) :: wire /\
    download_image example_env default_self "http://cdn.example.com/missing" [] =
      (Return None,
       [Getaddrinfo "cdn.example.com" AF_INET] ++
       Request "http://cdn.example.com/missing" ("cdn.example.com", "93.184.216.34")
         (timeout default_self) :: wire ++
       [Logged ERROR ("下载失败，状态码: " ++ pretty (status (mkResponse 404 [b "not found"] None)))%string]).
Proof.
  apply (download_ignores_other_statuses example_env default_self
           "http://cdn.example.com/missing" "93.184.216.34" "cdn.example.com"
           (mkResponse 404 [b "not found"] None) []
           [Getaddrinfo "cdn.example.com" AF_INET]).
  - vm_compute. reflexivity.
  - vm_compute. reflexivity.
  - discriminate.
Defined.

(** ** The URL check *)

(** X7.  Whatever pair [_is_safe_url_with_ip] returns has been vetted: the
    URL's scheme is http or https, the second component is its non-empty
    host name, and the first is an address [_is_private_ip] does not find
    private.  The check sends no request, and the only exception it lets
    through is the cancellation of the task. *)
Theorem url_check_is_sound (E : Env) (url : string) (t t' : Trace)
    (o : outcome (option (string * string))) :
  _is_safe_url_with_ip E url t = (o, t') ->
  exists new, t' = t ++ new /\ Forall offline new /\
    match o with
    | Return (Some info) => vetted E url info
    | Return None => True
    | Raise e => e = CancelledError
    end.
Proof. apply safe_url_run. Qed.

Lemma url_check_is_sound_witness :
  exists new,
    [Getaddrinfo "cdn.example.com" AF_INET] = [] ++ new /\ Forall offline new /\
    vetted example_env "http://cdn.example.com/a.gif" ("93.184.216.34", "cdn.example.com").
Proof.
  apply (url_check_is_sound example_env "http://cdn.example.com/a.gif" []
           [Getaddrinfo "cdn.example.com" AF_INET]
           (Return (Some ("93.184.216.34", "cdn.example.com")))).
  vm_compute. reflexivity.
Defined.

(** X8.  A host name that is not an address literal, does not begin with a
    bracket and is matched by no pattern is looked up, and the URL is then
    judged by the first IPv4 address of the answer alone: refused when
    that address is private, and otherwise accepted with the name pinned
    to that address. *)
Theorem url_check_resolves_other_names (E : Env) (url : string) (p : ParseResult)
    (h : string) (a : AddrInfo) (l : list AddrInfo) (t : Trace) :
  urlparse E url = Return p ->
  scheme p = "http" \/ scheme p = "https" ->
  hostname p = Some h -> h <> "" ->
  _is_ip_format E h = false ->
  startswith h "[" = false ->
  existsb (matches h) DANGEROUS_PATTERNS = false ->
  getaddrinfo E t h AF_INET = Return (a :: l) ->
  sockaddr_host a <> "" ->
  _is_safe_url_with_ip E url t =
    (Return (if _is_private_ip E (sockaddr_host a) then None
             else Some (sockaddr_host a, h)),
     t ++ [Getaddrinfo h AF_INET]).
Proof.
  intros Hp Hs Hh Hne Hip Hbr Hm Hg Ha.
  destruct h as [|c h]; [contradiction|].
  rewrite (check_known_host E url p c h t Hp Hs Hh). cbv zeta.
  rewrite Hip, Hbr, Hm. cbv beta iota delta [andb].
  unfold resolve_hostname_result. rewrite Hg. simpl.
  destruct (sockaddr_host a) as [|c' ip]; [contradiction|]. reflexivity.
Qed.

Lemma url_check_resolves_other_names_witness :
  _is_safe_url_with_ip example_env "http://cdn.example.com/a.gif" [] =
    (Return (if _is_private_ip example_env (sockaddr_host (mkAddrInfo "93.184.216.34"))
             then None
             else Some (sockaddr_host (mkAddrInfo "93.184.216.34"), "cdn.example.com")),
     [] ++ [Getaddrinfo "cdn.example.com" AF_INET]).
Proof.
  apply (url_check_resolves_other_names example_env "http://cdn.example.com/a.gif"
           (mkParseResult "http" (Some "cdn.example.com") "/a.gif" "")
           "cdn.example.com" (mkAddrInfo "93.184.216.34") [] []).
  - reflexivity.
  - left. reflexivity.
  - reflexivity.
  - discriminate.
  - reflexivity.
  - reflexivity.
  - vm_compute. reflexivity.
  - reflexivity.
  - discriminate.
Defined.

(** X9.  A pattern matches a host name exactly when the name is the
    pattern, or ends with a dot followed by the pattern (less the
    pattern's own leading dot), or begins with the pattern.  So a pattern
    is found at the end of a name only after a dot, and at the start of a
    name whatever follows it. *)
Theorem patterns_match_whole_suffix_or_prefix (h pattern : string) :
  matches h pattern = true <->
  h = pattern \/
  (exists front, h = (front ++ "." ++ clean_pattern pattern)%string) \/
  (exists back, h = (pattern ++ back)%string).
Proof. apply matches_shape. Qed.

(** ** Resolution *)

(** X10.  [_resolve_hostname] never raises, whatever the lookups do, and
    asks for IPv4 first: when that answer has an address it is returned
    and IPv6 is never asked; IPv6 is asked only when the IPv4 answer was
    empty or failed with [gaierror]; any other failure of the IPv4 lookup
    ends the resolution with [None] and a debug record. *)
Theorem resolve_hostname_asks_ipv4_first (E : Env) (h : string) (t : Trace) :
  exists r new,
    _resolve_hostname E h t = (Return r, t ++ Getaddrinfo h AF_INET :: new) /\
    (forall a l, getaddrinfo E t h AF_INET = Return (a :: l) ->
       r = Some (sockaddr_host a) /\ new = []) /\
    (Getaddrinfo h AF_INET6 ∈ new ->
       getaddrinfo E t h AF_INET = Return [] \/
       getaddrinfo E t h AF_INET = Raise gaierror) /\
    (forall e, getaddrinfo E t h AF_INET = Raise e -> e <> gaierror ->
       r = None /\
       new = [Logged DEBUG ("DNS解析失败 " ++ h ++ ": " ++ str_exn E e)%string]).
Proof.
  rewrite resolve_hostname_run. unfold resolve_hostname_result, first_address.
  destruct (getaddrinfo E t h AF_INET) as [[|a l]|e] eqn:E4.
  - destruct (match getaddrinfo E (t ++ [Getaddrinfo h AF_INET]) h AF_INET6 with
              | Return [] => Return None
              | Return (a :: _) => Return (Some (sockaddr_host a))
              | Raise e => if bool_decide (e = gaierror) then Return None else Raise e
              end) as [r|e]; eexists _, _; (split; [reflexivity|]);
      (split; [discriminate|]); (split; [auto|discriminate]).
  - eexists _, _. split; [reflexivity|]. split; [|split].
    + intros a' l' [= <- <-]. auto.
    + intros Hin. apply elem_of_nil in Hin. contradiction.
    + discriminate.
  - destruct (bool_decide (e = gaierror)) eqn:Hg.
    + apply bool_decide_eq_true in Hg. subst e.
      destruct (match getaddrinfo E (t ++ [Getaddrinfo h AF_INET]) h AF_INET6 with
                | Return [] => Return None
                | Return (a :: _) => Return (Some (sockaddr_host a))
                | Raise e => if bool_decide (e = gaierror) then Return None else Raise e
                end) as [r|e]; eexists _, _; (split; [reflexivity|]);
        (split; [discriminate|]); (split; [auto|]); intros e' [= <-] Hne; contradiction.
    + apply bool_decide_eq_false in Hg.
      eexists _, _. split; [reflexivity|]. split; [discriminate|]. split.
      * intros Hin. apply elem_of_cons in Hin as [Hin|Hin]; [discriminate|].
        apply elem_of_nil in Hin. contradiction.
      * intros e' [= <-] _. auto.
Qed.

(** X11.  A resolver built by [download_image] never asks the network
    about the name it pins: it answers with no address, when the pinned
    text is not an address or is of the other family than the one asked
    for, and otherwise with the pinned address alone.  Any other name it
    passes to aiohttp's default resolver and returns that answer as it is. *)
Theorem fixed_resolver_pins_one_name (E : Env) (pins : gmap string string)
    (h : string) (port : Z) (family : Family) (t : Trace) :
  (forall ip, pins !! h = Some ip ->
     exists answer, resolve E pins h port family t = (Return answer, t) /\
       (answer = [] \/
        answer = [mkResolveResult h ip port family IPPROTO_TCP AI_NUMERICHOST]) /\
       (answer = [] <->
        match ip_address E ip with
        | None => True
        | Some a => (family = AF_INET /\ version a <> 4) \/
                    (family = AF_INET6 /\ version a <> 6)
        end)) /\
  (pins !! h = None ->
   resolve E pins h port family t =
     (default_resolve E t h port family, t ++ [Resolved h port family])).
Proof.
  unfold resolve. split.
  - intros ip ->. destruct (ip_address E ip) as [a|].
    2:{ exists []. split; [reflexivity|]. split; [auto|]. tauto. }
    destruct (Z.eqb_spec (version a) 4) as [H4|H4];
      destruct (Z.eqb_spec (version a) 6) as [H6|H6];
      destruct family; simpl;
      eexists; (split; [reflexivity|]); (split; [auto|]);
      split; try discriminate; try tauto;
      intros [[? ?]|[? ?]]; try discriminate; try contradiction; lia.
  - intros ->. reflexivity.
Qed.

(** X12.  A host name that is a decimal integer up to 0xFFFFFFFF counts as
    being in address format, but [_is_private_ip] is then asked about the
    text of the name, which [ipaddress] does not read as an address: the
    URL is accepted unexamined, whichever address the integer stands for,
    with the name pinned to itself; and the resolver built from that pin
    answers with no address at all. *)
Theorem integer_host_names_are_not_examined (E : Env) (url : string) (p : ParseResult)
    (h : string) (n : Z) (a : IPAddress) (t : Trace) :
  urlparse E url = Return p ->
  scheme p = "http" \/ scheme p = "https" ->
  hostname p = Some h -> h <> "" ->
  ip_address E h = None ->
  int_str E h = Some n -> 0 <= n <= 4294967295 ->
  ip_address_int E n = Some a ->
  _is_safe_url_with_ip E url t = (Return (Some (h, h)), t) /\
  forall port family t', resolve E {[h := h]} h port family t' = (Return [], t').
Proof.
  intros Hp Hs Hh Hne Hip Hint Hn Ha.
  destruct h as [|c h]; [contradiction|]. split.
  - rewrite (check_known_host E url p c h t Hp Hs Hh). cbv zeta.
    unfold _is_ip_format, _is_private_ip. rewrite Hip, Hint, Ha.
    destruct (Z.leb_spec 0 n); [|lia].
    destruct (Z.leb_spec n 0xFFFFFFFF); [reflexivity|lia].
  - intros port family t'. unfold resolve.
    rewrite lookup_singleton_eq, Hip. reflexivity.
Qed.

Lemma integer_host_names_are_not_examined_witness :
  _is_safe_url_with_ip example_env "http://2130706433/a.gif" []
    = (Return (Some ("2130706433", "2130706433")), []) /\
  forall port family t',
    resolve example_env {["2130706433" := "2130706433"]} "2130706433" port family t'
    = (Return [], t').
Proof.
  apply (integer_host_names_are_not_examined example_env "http://2130706433/a.gif"
           (mkParseResult "http" (Some "2130706433") "/a.gif" "")
           "2130706433" 2130706433 (mkIPAddress 4 true true false) []).
  - reflexivity.
  - left. reflexivity.
  - reflexivity.
  - discriminate.
  - reflexivity.
  - reflexivity.
  - lia.
  - reflexivity.
Defined.

(** ** The claims of the specification about the download *)





(** C2.  With a limit that is not negative and chunks of at most 8192
    bytes, as [iter_chunked(8192)] hands them over: the chunks
    [download_image] reads are read one after the other, each only while
    what had been read before it was within [max_size], so the length is
    checked after every chunk and the buffer never holds more than
    [max_size + 8192] bytes.  As soon as it holds more than [max_size] the
    result is [None]; data that is returned is all that was read and is at
    most [max_size] bytes long.  Hence a response whose body is longer
    than [max_size] never gives data: the result is [None], unless the
    task is cancelled while it reads. *)
Theorem C2_streaming_cap (E : Env) (self : Self) (url : string) (t t' : Trace)
    (o : outcome (option bytes)) :
  0 <= max_size self -> chunked E ->
  download_image E self url t = (o, t') ->
  (exists before chunks logs,
     t' = t ++ before ++ (Received <$> chunks) ++ logs /\
     received before = [] /\ Forall is_log logs /\
     (forall j, (j < length chunks)%nat -> len (concat (take j chunks)) <= max_size self) /\
     len (concat chunks) <= max_size self + 8192 /\
     (max_size self < len (concat chunks) -> o = Return None) /\
     (forall data, o = Return (Some data) ->
        data = concat chunks /\ len data <= max_size self)) /\
  (forall safe_ip hostname t1 t2 resp,
     _is_safe_url_with_ip E url t = (Return (Some (safe_ip, hostname)), t1) ->
     pinned_get E url hostname safe_ip (timeout self) t1 = (Return resp, t2) ->
     max_size self < len (concat (body resp)) ->
     o = Return None \/ o = Raise CancelledError).
Proof.
  intros Hm Hc H.
  assert (Hmax : Z.max 0 (max_size self) = max_size self) by lia.
  apply download_run in H as (pre & Hpre & [[-> ->]|[[-> ->]|H]]).
  - split; [|auto].
    exists pre, [], [refusal url]. split; [reflexivity|].
    split; [exact (received_offline pre Hpre)|]. split; [repeat constructor|].
    split; [intros j Hj; simpl in Hj; lia|].
    split; [unfold len; simpl; lia|]. split; [reflexivity|discriminate].
  - split; [|auto].
    exists pre, [], []. rewrite app_nil_r. split; [reflexivity|].
    split; [exact (received_offline pre Hpre)|]. split; [constructor|].
    split; [intros j Hj; simpl in Hj; lia|].
    split; [unfold len; simpl; lia|].
    split; [unfold len; simpl; lia|discriminate].
  - destruct H as (safe_ip & hostname & wire & r & rest & Hv & Ec & Eg & Hw & -> & Hrest
                   & (chunks & logs & -> & Hlogs & Hchk) & Hb & Hover & Ho).
    assert (Hrec : received ((Received <$> chunks) ++ logs) = concat chunks).
    { rewrite received_app, received_chunks, (received_logs logs Hlogs), app_nil_r.
      reflexivity. }
    rewrite Hrec, Hmax in *. split.
    + exists (pre ++ Request url (hostname, safe_ip) (timeout self) :: wire), chunks, logs.
      split; [rewrite <- !app_assoc; reflexivity|].
      split.
      { rewrite received_pre by exact Hpre.
        rewrite <- (app_nil_r wire), (received_call _ _ _ _ _ _ Hw). reflexivity. }
      split; [exact Hlogs|]. split; [exact (Hchk Hm)|].
      split; [exact (Hb Hc)|]. split; [exact Hover|].
      intros data ->. destruct Ho as (resp & _ & _ & _ & Hd & Hl & Hr).
      split; [|exact Hl].
      apply (f_equal received) in Hr.
      rewrite Hrec, received_app, received_chunks in Hr. simpl in Hr.
      rewrite app_nil_r in Hr. congruence.
    + intros safe_ip' hostname' t1 t2 resp Ec' Eg' Hlong.
      rewrite Ec in Ec'. injection Ec' as <- <- <-.
      rewrite Eg in Eg'. injection Eg' as -> _.
      destruct o as [[data|]|e]; [|auto|right; rewrite Ho; reflexivity].
      destruct Ho as (resp' & [= <-] & _ & _ & -> & Hl & _). lia.
Qed.

Lemma C2_witness :
  (exists before chunks logs,
     [Getaddrinfo "cdn.example.com" AF_INET;
      Request "http://cdn.example.com/a.gif" ("cdn.example.com", "93.184.216.34") 30;
      Sent "http://cdn.example.com/a.gif" "93.184.216.34";
      Received (b "GIF89a");
      Logged ERROR "图片超过大小限制: 6 bytes"]
       = [] ++ before ++ (Received <$> chunks) ++ logs /\
     received before = [] /\ Forall is_log logs /\
     (forall j, (j < length chunks)%nat ->
        len (concat (take j chunks)) <= max_size (mkSelf 30 4)) /\
     len (concat chunks) <= max_size (mkSelf 30 4) + 8192 /\
     (max_size (mkSelf 30 4) < len (concat chunks) -> Return None = Return (@None bytes)) /\
     (forall data, Return None = Return (Some data) ->
        data = concat chunks /\ len data <= max_size (mkSelf 30 4))) /\
  (forall safe_ip hostname t1 t2 resp,
     _is_safe_url_with_ip example_env "http://cdn.example.com/a.gif" []
       = (Return (Some (safe_ip, hostname)), t1) ->
     pinned_get example_env "http://cdn.example.com/a.gif" hostname safe_ip
       (timeout (mkSelf 30 4)) t1 = (Return resp, t2) ->
     max_size (mkSelf 30 4) < len (concat (body resp)) ->
     Return None = Return (@None bytes) \/ Return (@None bytes) = Raise CancelledError).
Proof.
  apply (C2_streaming_cap example_env (mkSelf 30 4) "http://cdn.example.com/a.gif" []).
  - simpl. lia.
  - exact chunked_example.
  - vm_compute. reflexivity.
Defined.




End NetworkUtilsSpec.

(* ===================================================================== *)
(** * Properties of loading images *)
(* ===================================================================== *)

Module LoadingSpec.
Import Py PIL ImageProcessor PILSpec ImageProcessorSpec.

Lemma try_except_return {A} (m : M A) (h : exn -> M A) (w w' : World) (a : A) :
  m w = (Return a, w') -> try_except m h w = (Return a, w').
Proof. intros H. unfold try_except. rewrite H. reflexivity. Qed.

Lemma try_except_caught {A} (m : M A) (h : exn -> M A) (w w' : World) (e : exn) :
  m w = (Raise e, w') -> try_except m h w = h e w'.
Proof. intros H. unfold try_except. rewrite H. reflexivity. Qed.

Lemma load_watermark_hit_run (F : Files) (K : Kernels) (dir : string)
    (cache : gmap string ref) (filename : string) (cached : ref) (img : Image) (w : World) :
  cache !! filename = Some cached -> store w !! cached = Some img ->
  exists r, store w !! r = None /\
    load_watermark F K dir cache filename w =
      (Return (Some r, cache), mkWorld (<[r := img]> (store w)) (logs w)).
Proof.
  intros Hc Hs. unfold load_watermark. rewrite Hc.
  destruct (copy_run cached img w Hs) as (r & Hr & Hrun).
  exists r. split; [exact Hr|].
  rewrite (bind_return _ _ _ _ _ Hrun). reflexivity.
Qed.

Section Loading.
Context (F : Files) (K : Kernels).

(** ** [load_watermark] *)

(** X13.  A watermark that is in the cache is handed out as a new object
    with the content of the cached one: the cached object itself never
    leaves the processor, nothing else in the store changes, nothing is
    logged, and the file system is not consulted. *)
Theorem load_watermark_hit (dir : string) (cache : gmap string ref) (filename : string)
    (cached : ref) (img : Image) (w : World) :
  cache !! filename = Some cached -> store w !! cached = Some img ->
  exists r, store w !! r = None /\
    load_watermark F K dir cache filename w =
      (Return (Some r, cache), mkWorld (<[r := img]> (store w)) (logs w)).
Proof. apply load_watermark_hit_run. Qed.

Lemma load_watermark_miss_run (dir : string) (cache : gmap string ref) (filename : string)
    (img : Image) (w : World) :
  cache !! filename = None ->
  path_exists F (_get_watermark_path F dir filename) = true ->
  obind (open_path F (_get_watermark_path F dir filename)) load = Return img ->
  exists r cached o w',
    load_watermark F K dir cache filename w =
      (Return (Some r, <[filename := cached]> cache), w') /\
    r <> cached /\ store w !! r = None /\ store w !! cached = None /\
    store w' = <[r := convert_image K RGBA img]>
                 (<[cached := convert_image K RGBA img]>
                    (<[o := convert_image K RGBA img]> (store w))) /\
    store w !! o = None /\ o <> r /\ o <> cached /\
    logs w' = logs w.
Proof.
  intros Hc He Ho. unfold load_watermark. rewrite Hc, He.
  destruct (open_path F (_get_watermark_path F dir filename)) as [f|e] eqn:Ef;
    [|discriminate].
  simpl in Ho.
  set (c := convert_image K RGBA img).
  destruct (alloc_run c w) as (o & Hon & Ea).
  set (w1 := mkWorld (<[o := c]> (store w)) (logs w)) in *.
  assert (H1o : store w1 !! o = Some c) by apply lookup_insert_eq.
  destruct (copy_run o c w1 H1o) as (cached & Hcn & Ec).
  set (w2 := mkWorld (<[cached := c]> (store w1)) (logs w1)) in *.
  assert (Hco : cached <> o) by (intros ->; congruence).
  assert (H2o : store w2 !! o = Some c).
  { simpl. rewrite lookup_insert_ne by exact Hco. exact H1o. }
  destruct (copy_run o c w2 H2o) as (r & Hrn & Er).
  assert (Hro : r <> o) by (intros ->; congruence).
  assert (Hrc : r <> cached).
  { intros ->. simpl in Hrn. rewrite lookup_insert_eq in Hrn. discriminate. }
  exists r, cached, o, (mkWorld (<[r := c]> (store w2)) (logs w2)).
  split; [|repeat split; auto].
  - apply try_except_return. mrun.
    rewrite (bind_return _ _ _ _ _ Ec).
    rewrite (bind_return _ _ _ _ _ Er). reflexivity.
  - simpl in Hrn. rewrite lookup_insert_ne in Hrn by auto.
    simpl in Hrn. rewrite lookup_insert_ne in Hrn by auto. exact Hrn.
  - simpl in Hcn. rewrite lookup_insert_ne in Hcn by auto. exact Hcn.
Qed.

(** X14.  The first load of a watermark whose file exists and decodes
    returns a new object holding the decoded image converted to RGBA, and
    puts another new object with the same content in the cache: the
    returned object and the cached one are distinct, every object that
    existed before is unchanged, and nothing is logged. *)
Theorem load_watermark_first_load (dir : string) (cache : gmap string ref)
    (filename : string) (img : Image) (w : World) :
  cache !! filename = None ->
  path_exists F (_get_watermark_path F dir filename) = true ->
  obind (open_path F (_get_watermark_path F dir filename)) load = Return img ->
  exists r cached w',
    load_watermark F K dir cache filename w =
      (Return (Some r, <[filename := cached]> cache), w') /\
    r <> cached /\ store w !! r = None /\ store w !! cached = None /\
    store w' !! r = Some (convert_image K RGBA img) /\
    store w' !! cached = Some (convert_image K RGBA img) /\
    store w ⊆ store w' /\ logs w' = logs w.
Proof.
  intros Hc He Ho.
  destruct (load_watermark_miss_run dir cache filename img w Hc He Ho)
    as (r & cached & o & w' & Hrun & Hrc & Hr & Hcn & Hs & Hon & Hor & Hoc & Hl).
  exists r, cached, w'. rewrite Hs. repeat split; auto.
  - apply lookup_insert_eq.
  - rewrite lookup_insert_ne by auto. apply lookup_insert_eq.
  - etrans; [apply (insert_subseteq _ o), Hon|].
    etrans; [apply (insert_subseteq _ cached)|apply insert_subseteq].
    + rewrite lookup_insert_ne by auto. exact Hcn.
    + rewrite !lookup_insert_ne by auto. exact Hr.
Qed.

(** X15.  When the cache has no entry and the file is missing, or opening
    or decoding it fails, [load_watermark] returns [None] and logs one
    error; it raises nothing, creates no object and leaves the cache as it
    was, so the next call tries the file again. *)
Theorem load_watermark_failure (dir : string) (cache : gmap string ref)
    (filename : string) (w : World) :
  cache !! filename = None ->
  path_exists F (_get_watermark_path F dir filename) = false \/
  (exists e, obind (open_path F (_get_watermark_path F dir filename)) load = Raise e) ->
  exists msg,
    load_watermark F K dir cache filename w =
      (Return (None, cache), mkWorld (store w) (logs w ++ [(ERROR, msg)])).
Proof.
  intros Hc H. unfold load_watermark. rewrite Hc.
  destruct (path_exists F (_get_watermark_path F dir filename)) eqn:He.
  - destruct H as [H|(e & H)]; [discriminate|].
    destruct (open_path F (_get_watermark_path F dir filename)) as [f|e'] eqn:Ef.
    + simpl in H. eexists. erewrite try_except_caught.
      2:{ mrun. reflexivity. }
      reflexivity.
    + eexists. erewrite try_except_caught.
      2:{ mrun. reflexivity. }
      reflexivity.
  - eexists. reflexivity.
Qed.

(** X16.  What the cache hands out does not depend on what was done to the
    images it handed out before, nor on the file any more: after a first
    load, overwrite the returned object with any image and change the
    file system in any way; the next load still returns a new object with
    the content of the first load. *)
Theorem cached_watermark_is_isolated (dir : string) (cache cache' : gmap string ref)
    (filename : string) (img : Image) (w w1 : World) (r : ref) :
  cache !! filename = None ->
  path_exists F (_get_watermark_path F dir filename) = true ->
  obind (open_path F (_get_watermark_path F dir filename)) load = Return img ->
  load_watermark F K dir cache filename w = (Return (Some r, cache'), w1) ->
  forall (F' : Files) (scribble : Image),
    let w2 := mkWorld (<[r := scribble]> (store w1)) (logs w1) in
    exists r2, store w2 !! r2 = None /\
      load_watermark F' K dir cache' filename w2 =
        (Return (Some r2, cache'),
         mkWorld (<[r2 := convert_image K RGBA img]> (store w2)) (logs w2)).
Proof.
  intros Hc He Ho Hrun F' scribble w2.
  destruct (load_watermark_miss_run dir cache filename img w Hc He Ho)
    as (r' & cached & o & w' & Hrun' & Hrc & Hr & Hcn & Hs & Hon & Hor & Hoc & Hl).
  rewrite Hrun in Hrun'. injection Hrun' as -> -> ->.
  apply (load_watermark_hit_run F' K dir _ filename cached).
  - apply lookup_insert_eq.
  - unfold w2. simpl. rewrite lookup_insert_ne by auto.
    rewrite Hs. rewrite lookup_insert_ne by auto. apply lookup_insert_eq.
Qed.

(** ** [preprocess_image] *)

Lemma convert_image_width (m : Mode) (im : Image) :
  width (convert_image K m im) = width im.
Proof. exact (f_equal fst (convert_image_size K m im)). Qed.

Lemma convert_image_height (m : Mode) (im : Image) :
  height (convert_image K m im) = height im.
Proof. exact (f_equal snd (convert_image_size K m im)). Qed.

Lemma gate_result_fst (img : Image) :
  fst (gate_result img) = true <-> width img * height img <= MAX_IMAGE_PIXELS.
Proof.
  unfold gate_result.
  destruct (Z.gtb_spec (width img * height img) MAX_IMAGE_PIXELS); simpl; split;
    try lia; try discriminate; auto.
Qed.

Lemma preprocess_image_run (image_data : bytes) (w : World) :
  exists result msgs,
    preprocess_image F K image_data w
      = (Return result, mkWorld (store w) (logs w ++ msgs)) /\
    match result with
    | Some img =>
        (file_mode img = RGB \/ file_mode img = RGBA) /\
        file_width img * file_height img <= MAX_IMAGE_PIXELS /\
        exists f, open_bytes F image_data = Return f /\
          if bool_decide (file_mode f ∈ [RGB; RGBA]) then img = f
          else exists im, load f = Return im /\ img = loaded (convert_image K RGB im)
    | None =>
        match open_bytes F image_data with
        | Raise _ => True
        | Return f =>
            MAX_IMAGE_PIXELS < file_width f * file_height f \/
            ((file_mode f ∉ [RGB; RGBA]) /\ exists e, load f = Raise e)
        end
    end.
Proof.
  unfold preprocess_image.
  destruct (open_bytes F image_data) as [f|e] eqn:Ef.
  2:{ eexists None, _. split; [|exact I].
      erewrite try_except_caught; [|mrun; reflexivity]. reflexivity. }
  destruct (bool_decide (file_mode f ∈ [RGB; RGBA])) eqn:Hm.
  - pose proof Hm as Hm'. apply bool_decide_eq_true in Hm'.
    rewrite !elem_of_cons, elem_of_nil in Hm'.
    pose proof (gate_result_fst (unloaded f)) as Hg.
    destruct (gate_result (unloaded f)) as [ok msg] eqn:Eg. simpl in Hg.
    destruct ok.
    + eexists (Some f), _. split.
      * apply try_except_return. mrun. rewrite Hm. cbv beta iota delta [negb]. mrun.
        rewrite bind_check, Eg. cbv beta iota delta [negb]. reflexivity.
      * split; [tauto|]. split; [tauto|]. exists f. rewrite Hm. auto.
    + eexists None, _. split.
      * apply try_except_return. mrun. rewrite Hm. cbv beta iota delta [negb]. mrun.
        rewrite bind_check, Eg. cbv beta iota delta [negb]. mrun.
        simpl. rewrite <- app_assoc. reflexivity.
      * left. destruct (Z_le_gt_dec (file_width f * file_height f) MAX_IMAGE_PIXELS);
          [|lia]. destruct Hg as [_ Hg]. specialize (Hg ltac:(assumption)). discriminate.
  - pose proof Hm as Hm'. apply bool_decide_eq_false in Hm'.
    destruct (load f) as [im|e] eqn:El.
    2:{ eexists None, _. split.
        - erewrite try_except_caught.
          2:{ mrun. rewrite Hm. cbv beta iota delta [negb]. mrun. reflexivity. }
          reflexivity.
        - right. split; [exact Hm'|]. exists e. reflexivity. }
    set (c := convert_image K RGB im).
    assert (Hw : file_width f = width im /\ file_height f = height im).
    { unfold load in El. destruct (file_pixels f); [|discriminate].
      injection El as <-. auto. }
    pose proof (gate_result_fst (unloaded (loaded c))) as Hg.
    destruct (gate_result (unloaded (loaded c))) as [ok msg] eqn:Eg. simpl in Hg.
    unfold c in Hg. rewrite convert_image_width, convert_image_height in Hg. fold c in Hg.
    destruct ok.
    + eexists (Some (loaded c)), _. split.
      * apply try_except_return. mrun. rewrite Hm. cbv beta iota delta [negb]. mrun.
        fold c. rewrite bind_check, Eg. cbv beta iota delta [negb]. reflexivity.
      * simpl. split; [left; apply convert_image_mode|].
        unfold c at 1 2. rewrite convert_image_width, convert_image_height.
        split; [tauto|].
        exists f. rewrite Hm. split; [reflexivity|]. exists im. auto.
    + eexists None, _. split.
      * apply try_except_return. mrun. rewrite Hm. cbv beta iota delta [negb]. mrun.
        fold c. rewrite bind_check, Eg. cbv beta iota delta [negb]. mrun.
        simpl. rewrite <- app_assoc. reflexivity.
      * left. destruct Hw as [-> ->].
        destruct (Z_le_gt_dec (width im * height im) MAX_IMAGE_PIXELS); [|lia].
        destruct Hg as [_ Hg]. specialize (Hg ltac:(assumption)). discriminate.
Qed.

(** X17.  [preprocess_image] raises nothing.  An image it returns has mode
    RGB or RGBA and at most [MAX_IMAGE_PIXELS] pixels; it is the opened
    file itself, not yet decoded, when the file's mode is RGB or RGBA, and
    otherwise the decoded file converted to RGB.  It returns [None] only
    for data that does not open, for a file in another mode that does not
    decode, and for an image over the limit. *)
Theorem preprocess_image_result (image_data : bytes) (w : World) :
  exists result,
    fst (preprocess_image F K image_data w) = Return result /\
    match result with
    | Some img =>
        (file_mode img = RGB \/ file_mode img = RGBA) /\
        file_width img * file_height img <= MAX_IMAGE_PIXELS /\
        exists f, open_bytes F image_data = Return f /\
          if bool_decide (file_mode f ∈ [RGB; RGBA]) then img = f
          else exists im, load f = Return im /\ img = loaded (convert_image K RGB im)
    | None =>
        match open_bytes F image_data with
        | Raise _ => True
        | Return f =>
            MAX_IMAGE_PIXELS < file_width f * file_height f \/
            ((file_mode f ∉ [RGB; RGBA]) /\ exists e, load f = Raise e)
        end
    end.
Proof.
  destruct (preprocess_image_run image_data w) as (result & msgs & Hrun & H).
  exists result. rewrite Hrun. split; [reflexivity|exact H].
Qed.

End Loading.

Lemma load_watermark_hit_witness :
  exists r, store (world_of rgb_1x1 wm_2x1) !! r = None /\
    load_watermark example_files example_kernels "watermark_PNG"
      {["gemini_48px.png" := 2%positive]} "gemini_48px.png" (world_of rgb_1x1 wm_2x1) =
      (Return (Some r, {["gemini_48px.png" := 2%positive]}),
       mkWorld (<[r := wm_2x1]> (store (world_of rgb_1x1 wm_2x1)))
               (logs (world_of rgb_1x1 wm_2x1))).
Proof.
  apply (load_watermark_hit example_files example_kernels "watermark_PNG"
           {["gemini_48px.png" := 2%positive]} "gemini_48px.png" 2%positive wm_2x1
           (world_of rgb_1x1 wm_2x1)).
  - vm_compute. reflexivity.
  - vm_compute. reflexivity.
Defined.

Lemma load_watermark_first_load_witness :
  exists r cached w',
    load_watermark example_files example_kernels "watermark_PNG" ∅ "gemini_48px.png"
      (mkWorld ∅ []) =
      (Return (Some r, <["gemini_48px.png" := cached]> ∅), w') /\
    r <> cached /\ store (mkWorld ∅ []) !! r = None /\
    store (mkWorld ∅ []) !! cached = None /\
    store w' !! r = Some (convert_image example_kernels RGBA wm_2x1) /\
    store w' !! cached = Some (convert_image example_kernels RGBA wm_2x1) /\
    store (mkWorld ∅ []) ⊆ store w' /\ logs w' = logs (mkWorld ∅ []).
Proof.
  apply (load_watermark_first_load example_files example_kernels "watermark_PNG" ∅
           "gemini_48px.png" wm_2x1 (mkWorld ∅ [])).
  - vm_compute. reflexivity.
  - vm_compute. reflexivity.
  - vm_compute. reflexivity.
Defined.

Lemma load_watermark_failure_witness :
  exists msg,
    load_watermark example_files example_kernels "watermark_PNG" ∅ "doubao.png"
      (mkWorld ∅ []) =
      (Return (None, ∅), mkWorld (store (mkWorld ∅ [])) (logs (mkWorld ∅ []) ++ [(ERROR, msg)])).
Proof.
  apply (load_watermark_failure example_files example_kernels "watermark_PNG" ∅
           "doubao.png" (mkWorld ∅ [])).
  - vm_compute. reflexivity.
  - left. vm_compute. reflexivity.
Defined.

Lemma cached_watermark_is_isolated_witness :
  let no_files := mkFiles (fun _ name => name) (fun _ => false)
                    (fun _ => Raise ValueError) (fun _ => Raise ValueError)
                    (fun _ => "") in
  let w2 := mkWorld (<[3%positive := rgb_1x1]>
                       (<[3%positive := wm_2x1]>
                          (<[2%positive := wm_2x1]> (<[1%positive := wm_2x1]> ∅)))) [] in
  exists r2, store w2 !! r2 = None /\
    load_watermark no_files example_kernels "watermark_PNG"
      (<["gemini_48px.png" := 2%positive]> ∅) "gemini_48px.png" w2 =
      (Return (Some r2, <["gemini_48px.png" := 2%positive]> ∅),
       mkWorld (<[r2 := convert_image example_kernels RGBA wm_2x1]> (store w2)) (logs w2)).
Proof.
  refine (cached_watermark_is_isolated example_files example_kernels "watermark_PNG" ∅
            (<["gemini_48px.png" := 2%positive]> ∅) "gemini_48px.png" wm_2x1
            (mkWorld ∅ [])
            (mkWorld (<[3%positive := wm_2x1]>
                        (<[2%positive := wm_2x1]> (<[1%positive := wm_2x1]> ∅))) [])
            3%positive _ _ _ _
            (mkFiles (fun _ name => name) (fun _ => false)
               (fun _ => Raise ValueError) (fun _ => Raise ValueError) (fun _ => ""))
            rgb_1x1).
  - vm_compute. reflexivity.
  - vm_compute. reflexivity.
  - vm_compute. reflexivity.
  - vm_compute. reflexivity.
Defined.

(** ** From [preprocess_image] to the compositors *)

Lemma load_size (f : ImageFile) (img : Image) :
  load f = Return img -> width img = file_width f /\ height img = file_height f.
Proof.
  unfold load. destruct (file_pixels f); [|discriminate]. intros [= <-]. auto.
Qed.

(** X18.  An image [preprocess_image] let through is never turned down by
    the safety gate of the compositors: on it, neither
    [apply_gemini_watermark] nor [apply_doubao_watermark] returns [None]. *)
Theorem preprocessed_images_pass_the_gate (F : Files) (K : Kernels) (ratio : float)
    (image_data : bytes) (w0 w1 : World) (f : ImageFile) (img wm : Image)
    (image watermark : ref) (opacity : float) (w : World) :
  preprocess_image F K image_data w0 = (Return (Some f), w1) ->
  load f = Return img ->
  store w !! image = Some img -> store w !! watermark = Some wm ->
  fst (apply_gemini_watermark K image watermark opacity w) <> Return None /\
  fst (apply_doubao_watermark K ratio image (Some watermark) opacity w) <> Return None.
Proof.
  intros Hp Hl Hi Hw.
  destruct (preprocess_image_run F K image_data w0) as (result & msgs & Hrun & Hres).
  rewrite Hp in Hrun. injection Hrun as <- _.
  destruct Hres as (_ & Hpx & _).
  destruct (load_size f img Hl) as [Hwd Hht]. rewrite <- Hwd, <- Hht in Hpx.
  pose proof (proj2 (gate_result_fst img) Hpx) as Hg.
  split.
  - destruct (apply_gemini_watermark K image watermark opacity w) as [o w'] eqn:E.
    destruct (apply_gemini_run K _ _ _ _ _ _ _ _ Hi Hw E) as (_ & _ & H).
    simpl. intros ->. revert H. unfold gemini_image. rewrite Hg.
    cbv beta iota delta [negb].
    destruct (gemini_skips img wm); [intros (out & Ho & _); discriminate|].
    destruct (resize_image K (size wm) wm) as [rw|e]; simpl; [|discriminate].
    destruct (with_opacity K opacity (convert_image K RGBA rw)) as [rw'|e]; simpl;
      [intros (out & Ho & _)|]; discriminate.
  - destruct (apply_doubao_watermark K ratio image (Some watermark) opacity w)
      as [o w'] eqn:E.
    destruct (apply_doubao_run K ratio _ _ _ _ _ _ _ _ Hi Hw E) as (_ & _ & H).
    simpl. intros ->. revert H. unfold doubao_image. rewrite Hg.
    cbv beta iota delta [negb].
    destruct (_calculate_doubao_size ratio (width img) (height img)) as [sz|e]; simpl;
      [|discriminate].
    destruct (resize_image K sz wm) as [rw|e]; simpl; [|discriminate].
    destruct (with_opacity K opacity (convert_image K RGBA rw)) as [rw'|e]; simpl;
      [|discriminate].
    destruct (_calculate_doubao_position (width img) (height img) (fst sz) (snd sz))
      as [box|e]; simpl; [intros (out & Ho & _)|]; discriminate.
Qed.

Lemma preprocessed_images_pass_the_gate_witness :
  fst (apply_gemini_watermark example_kernels 1%positive 2%positive 0.25
         (world_of rgb_1x1 wm_2x1)) <> Return None /\
  fst (apply_doubao_watermark example_kernels 2 1%positive (Some 2%positive) 0.25
         (world_of rgb_1x1 wm_2x1)) <> Return None.
Proof.
  apply (preprocessed_images_pass_the_gate example_files example_kernels 2 (b "rgb")
           (mkWorld ∅ []) (mkWorld ∅ []) (loaded rgb_1x1) rgb_1x1 wm_2x1
           1%positive 2%positive).
  - vm_compute. reflexivity.
  - reflexivity.
  - vm_compute. reflexivity.
  - vm_compute. reflexivity.
Defined.

End LoadingSpec.

(* ===================================================================== *)
(** * More properties of the compositing *)
(* ===================================================================== *)

Module CompositingSpec.
Import Py PIL ImageProcessor PySpec PILSpec ImageProcessorSpec.

(** ** The alpha rewrite *)

Lemma lookup_table_total (f : Z -> outcome Z) (g : Z -> Z) :
  (forall i, 0 <= i < 256 -> f i = Return (g i)) ->
  lookup_table f = Return (g <$> seqZ 0 256).
Proof.
  intros H. unfold lookup_table.
  assert (Hall : Forall (fun i => f i = Return (g i)) (seqZ 0 256)).
  { apply Forall_seqZ. intros i Hi. apply H. lia. }
  induction Hall as [|i l Hi _ IH]; [reflexivity|].
  simpl. rewrite Hi, IH. reflexivity.
Qed.

Lemma table_entry (g : Z -> Z) (v : Z) :
  0 <= v <= 255 -> nth (Z.to_nat v) (g <$> seqZ 0 256) 0 = g v.
Proof.
  intros Hv. rewrite nth_lookup, list_lookup_fmap.
  rewrite (proj2 (lookup_seqZ 0 256 (Z.to_nat v) v)) by lia. reflexivity.
Qed.

Lemma zip_with_fmap_r {A B C} (f : A -> B -> C) (h : A -> B) (l : list A) :
  zip_with f l (h <$> l) = (fun x => f x (h x)) <$> l.
Proof.
  induction l as [|x l IH]; [reflexivity|].
  rewrite !fmap_cons. simpl. f_equal. exact IH.
Qed.

Definition clip (v : Z) : Z := Z.max 0 (Z.min 255 v).

Lemma table_bytes_clip (K : Kernels) (lut : list Z) :
  Forall (fun v => INT_MIN <= v <= INT_MAX) lut ->
  table_bytes K lut = Return (clip <$> lut).
Proof.
  induction 1 as [|v l Hv _ IH]; [reflexivity|].
  rewrite fmap_cons. simpl. rewrite IH. unfold table_byte.
  destruct (Z.leb_spec INT_MIN v); [|lia].
  destruct (Z.leb_spec v INT_MAX); [|lia]. reflexivity.
Qed.

(** The alpha value [_apply_opacity] gives a pixel whose alpha was [v],
    when [int(255 * opacity)] is [a]. *)
Definition level (a v : Z) : Z := if v >? ALPHA_THRESHOLD then clip a else 0.

Lemma with_opacity_levels (K : Kernels) (opacity : float) (a : Z) (c : Image) :
  mode c = RGBA ->
  Forall (fun px => 0 <= nth 3 px 0 <= 255) (pixels c) ->
  obind (int_mul_float 255 opacity) int_of_float = Return a ->
  INT_MIN <= a <= INT_MAX ->
  with_opacity K opacity c =
    Return (mkImage RGBA (width c) (height c)
              ((fun px => take 3 px ++ [level a (nth 3 px 0)]) <$> pixels c)).
Proof.
  intros Hm Hpx Ha Hint. unfold with_opacity, getchannel_A_image. rewrite Hm.
  cbv beta iota delta [obind]. unfold point_image.
  rewrite (lookup_table_total (opacity_lambda opacity)
             (fun v => if v >? ALPHA_THRESHOLD then a else 0)).
  2:{ intros i _. unfold opacity_lambda. rewrite Ha.
      destruct (i >? ALPHA_THRESHOLD); reflexivity. }
  cbv beta iota delta [obind]. rewrite table_bytes_clip.
  2:{ apply Forall_fmap, Forall_true. intros v. simpl.
      destruct (v >? ALPHA_THRESHOLD); [exact Hint|]. unfold INT_MIN, INT_MAX. lia. }
  assert (Hl : clip <$> ((fun v => if v >? ALPHA_THRESHOLD then a else 0) <$> seqZ 0 256)
               = level a <$> seqZ 0 256).
  { rewrite <- list_fmap_compose. apply list_fmap_ext. intros i v _.
    unfold compose, level. destruct (v >? ALPHA_THRESHOLD); reflexivity. }
  rewrite Hl.
  cbv beta iota delta [obind]. unfold putalpha_image. rewrite Hm.
  cbv beta iota delta [pixels]. f_equal. f_equal.
  rewrite <- list_fmap_compose, zip_with_fmap_r.
  apply Forall_fmap_ext_1. eapply Forall_impl; [exact Hpx|].
  intros px Hv. unfold compose.
  change ((fun v => nth (Z.to_nat v) (level a <$> seqZ 0 256) 0) <$> [nth 3 px 0])
    with [nth (Z.to_nat (nth 3 px 0)) (level a <$> seqZ 0 256) 0].
  rewrite (table_entry _ _ Hv). reflexivity.
Qed.

(** X19.  [_apply_opacity] rewrites the alpha band of the image it is
    given, in place, to two levels: a pixel whose alpha was above
    [ALPHA_THRESHOLD] gets [int(255 * opacity)] clipped to [0..255] (so 255
    for an opacity of 2, and 0 for a negative one), every other pixel gets
    0; the colour bands stay as they were.  No other object that existed
    before changes and nothing is logged.  [int(255 * opacity)] is taken
    to fit a C [int]. *)
Theorem apply_opacity_makes_two_levels (K : Kernels) (r : ref) (c : Image)
    (opacity : float) (a : Z) (w : World) :
  store w !! r = Some c ->
  mode c = RGBA ->
  Forall (fun px => 0 <= nth 3 px 0 <= 255) (pixels c) ->
  obind (int_mul_float 255 opacity) int_of_float = Return a ->
  - 2 ^ 31 <= a <= 2 ^ 31 - 1 ->
  exists w',
    _apply_opacity K r opacity w = (Return r, w') /\
    store w' !! r =
      Some (mkImage RGBA (width c) (height c)
              ((fun px => take 3 px ++
                          [if nth 3 px 0 >? ALPHA_THRESHOLD then Z.max 0 (Z.min 255 a) else 0])
                 <$> pixels c)) /\
    delete r (store w) ⊆ store w' /\ logs w' = logs w.
Proof.
  intros Hr Hm Hpx Ha Hint.
  destruct (apply_opacity_run K r c opacity w Hr) as (w' & Hl & H).
  rewrite (with_opacity_levels K opacity a c Hm Hpx Ha Hint) in H.
  destruct H as (Hrun & Hs & Hd). exists w'. auto.
Qed.

Lemma apply_opacity_makes_two_levels_witness :
  exists w',
    _apply_opacity example_kernels 2%positive 2 (world_of rgb_1x1 wm_2x1)
      = (Return 2%positive, w') /\
    store w' !! 2%positive =
      Some (mkImage RGBA (width wm_2x1) (height wm_2x1)
              ((fun px => take 3 px ++
                          [if nth 3 px 0 >? ALPHA_THRESHOLD then Z.max 0 (Z.min 255 510) else 0])
                 <$> pixels wm_2x1)) /\
    delete 2%positive (store (world_of rgb_1x1 wm_2x1)) ⊆ store w' /\
    logs w' = logs (world_of rgb_1x1 wm_2x1).
Proof.
  apply (apply_opacity_makes_two_levels example_kernels 2%positive wm_2x1 2 510
           (world_of rgb_1x1 wm_2x1)).
  - vm_compute. reflexivity.
  - reflexivity.
  - repeat constructor; vm_compute; discriminate.
  - vm_compute. reflexivity.
  - lia.
Defined.

(** ** Gemini *)

(** X20.  For an image and a watermark whose pixel data is in memory: when
    the image passes the gate and the position is not negative, what
    [apply_gemini_watermark] returns is the image converted to RGBA, with
    the watermark pasted at the computed position through its own alpha
    band, converted to RGB.  The watermark is pasted at the size it has:
    it is converted to RGBA and its alpha rewritten (to [int(255 *
    opacity)] clipped to [0..255], or 0), and never resampled. *)
Theorem gemini_pastes_the_watermark_unscaled (K : Kernels) (image watermark : ref)
    (img wm : Image) (opacity : float) (w : World) :
  store w !! image = Some img -> store w !! watermark = Some wm ->
  width img * height img <= MAX_IMAGE_PIXELS ->
  0 <= fst (_calculate_gemini_position (width img) (height img) wm) ->
  0 <= snd (_calculate_gemini_position (width img) (height img) wm) ->
  returned_image (fst (apply_gemini_watermark K image watermark opacity w))
                 (snd (apply_gemini_watermark K image watermark opacity w)) =
    obind (with_opacity K opacity (convert_image K RGBA wm)) (fun mark =>
    Return (Some (convert_image K RGB
                    (paste_image K (convert_image K RGBA img) mark
                       (_calculate_gemini_position (width img) (height img) wm) mark)))).
Proof.
  intros Hi Hw Hpx Hx Hy.
  rewrite (returned_image_gemini K image watermark img wm opacity w Hi Hw).
  unfold gemini_image. rewrite (gate_result_pass img Hpx).
  cbv beta iota delta [negb].
  assert (Hs : gemini_skips img wm = false).
  { apply not_true_is_false. rewrite gemini_skips_iff. lia. }
  rewrite Hs. unfold resize_image. rewrite decide_True by reflexivity. reflexivity.
Qed.

Lemma gemini_pastes_the_watermark_unscaled_witness :
  returned_image
    (fst (apply_gemini_watermark example_kernels 1%positive 2%positive 0.25
            (world_of rgb_40x40 wm_2x1)))
    (snd (apply_gemini_watermark example_kernels 1%positive 2%positive 0.25
            (world_of rgb_40x40 wm_2x1))) =
    obind (with_opacity example_kernels 0.25 (convert_image example_kernels RGBA wm_2x1)) (fun mark =>
    Return (Some (convert_image example_kernels RGB
                    (paste_image example_kernels (convert_image example_kernels RGBA rgb_40x40)
                       mark
                       (_calculate_gemini_position (width rgb_40x40) (height rgb_40x40) wm_2x1)
                       mark)))).
Proof.
  apply (gemini_pastes_the_watermark_unscaled example_kernels 1%positive 2%positive
           rgb_40x40 wm_2x1 0.25 (world_of rgb_40x40 wm_2x1)).
  - vm_compute. reflexivity.
  - vm_compute. reflexivity.
  - vm_compute. discriminate.
  - vm_compute. discriminate.
  - vm_compute. discriminate.
Defined.

(** ** Doubao *)

(** X21.  For every image the gate lets through, the doubao watermark lies
    inside the image horizontally: its width is not negative, its left
    edge is not left of the image, and its right edge is the right margin
    away from the image's right edge.  Its width is 0 exactly for images
    less than 8 pixels wide.  Vertically only its bottom edge is placed:
    the top is [H - margin - height], wherever that falls. *)
Theorem doubao_watermark_fits_horizontally (ratio : float) (W H wm_width wm_height : Z) :
  0 <= W <= 100000000 -> 0 <= H <= 100000000 ->
  _calculate_doubao_size ratio W H = Return (wm_width, wm_height) ->
  exists x y,
    _calculate_doubao_position W H wm_width wm_height = Return (x, y) /\
    0 <= wm_width /\ 0 <= x /\ x + wm_width = W - 3 * W / 100 /\ x + wm_width <= W /\
    (wm_width = 0 <-> W < 8) /\
    y + wm_height = H - 3 * H / 100.
Proof.
  intros HW HH Hs. unfold _calculate_doubao_size in Hs.
  rewrite (int_size_ratio W HW) in Hs. cbv beta iota delta [obind] in Hs.
  assert (Hww : wm_width = 13 * W / 100).
  { destruct (int_div_float (13 * W / 100) ratio) as [q|]; [|discriminate].
    destruct (int_of_float q); [|discriminate]. injection Hs as <- _. reflexivity. }
  unfold _calculate_doubao_position.
  rewrite (int_margin_ratio W HW). simpl obind.
  rewrite (int_margin_ratio H HH). simpl obind.
  eexists _, _. split; [reflexivity|]. subst wm_width. clear Hs.
  pose proof (Z.div_mod (13 * W) 100 ltac:(lia)).
  pose proof (Z.mod_pos_bound (13 * W) 100 ltac:(lia)).
  pose proof (Z.div_mod (3 * W) 100 ltac:(lia)).
  pose proof (Z.mod_pos_bound (3 * W) 100 ltac:(lia)).
  lia.
Qed.

Lemma doubao_watermark_fits_horizontally_witness :
  exists x y,
    _calculate_doubao_position 1000 800 130 65 = Return (x, y) /\
    0 <= 130 /\ 0 <= x /\ x + 130 = 1000 - 3 * 1000 / 100 /\ x + 130 <= 1000 /\
    (130 = 0 <-> 1000 < 8) /\
    y + 65 = 800 - 3 * 800 / 100.
Proof.
  apply (doubao_watermark_fits_horizontally 2 1000 800 130 65).
  - lia.
  - lia.
  - vm_compute. reflexivity.
Defined.

End CompositingSpec.

(* ===================================================================== *)
(** * More properties of utils/file_utils.py *)
(* ===================================================================== *)

Module FileUtilsMoreSpec.
Import Py PyStr Lib FileUtils PyStrSpec.

Lemma query_extension_supported (E : Env) (query_params : gmap string (list string))
    (param_names : list string) (ext : string) :
  query_extension E query_params param_names = Return (Some ext) ->
  ext ∈ SUPPORTED_FORMATS.
Proof.
  induction param_names as [|param_name rest IH]; simpl; [discriminate|].
  destruct (query_params !! param_name) as [[|value values]|]; [discriminate| |exact IH].
  destruct (startswith (str_lower E value) ".").
  - destruct (bool_decide (str_lower E value ∈ SUPPORTED_FORMATS)) eqn:Hs; [|exact IH].
    intros [= <-]. apply bool_decide_eq_true in Hs. exact Hs.
  - destruct (bool_decide (("." ++ str_lower E value)%string ∈ SUPPORTED_FORMATS)) eqn:Hs;
      [|exact IH].
    intros [= <-]. apply bool_decide_eq_true in Hs. exact Hs.
Qed.

Lemma get_file_extension_in (E : Env) (url : string) (ext : string) :
  get_file_extension E url = Some ext -> ext ∈ SUPPORTED_FORMATS.
Proof.
  unfold get_file_extension.
  destruct (urlparse E url) as [parsed|e]; cbv beta iota zeta delta [obind];
    [|discriminate].
  assert (Hquery : match obind (parse_qs E (query parsed)) (fun query_params =>
                           query_extension E query_params ["format"; "type"; "ext"]) with
                   | Return r => r
                   | Raise _ => None
                   end = Some ext -> ext ∈ SUPPORTED_FORMATS).
  { destruct (parse_qs E (query parsed)) as [q|e]; cbv beta iota delta [obind];
      [|discriminate].
    destruct (query_extension E q ["format"; "type"; "ext"]) as [r|e] eqn:Hq;
      [|discriminate].
    intros ->. exact (query_extension_supported E _ _ _ Hq). }
  destruct (re_search E "\.([a-zA-Z0-9]+)$" (path parsed)) as [group1|]; [|exact Hquery].
  destruct (bool_decide (("." ++ str_lower E group1)%string ∈ SUPPORTED_FORMATS)) eqn:Hs;
    [|exact Hquery].
  intros [= <-]. apply bool_decide_eq_true in Hs. exact Hs.
Qed.

Lemma supported_not_empty (ext : string) : ext ∈ SUPPORTED_FORMATS -> ext <> "".
Proof.
  unfold SUPPORTED_FORMATS. rewrite !elem_of_cons, elem_of_nil.
  intros H ->. repeat destruct H as [H|H]; try discriminate. exact H.
Qed.

(** X22.  Whatever the URL and whatever the libraries answer,
    [get_file_extension] raises nothing and returns [None] or one of the
    six supported extensions, in lower case and with its dot; so
    [is_image_url] holds exactly when it returns an extension. *)
Theorem get_file_extension_is_supported (E : Env) (url : string) :
  (forall ext, get_file_extension E url = Some ext -> ext ∈ SUPPORTED_FORMATS) /\
  (is_image_url E url = true <-> exists ext, get_file_extension E url = Some ext).
Proof.
  split; [apply get_file_extension_in|].
  unfold is_image_url.
  destruct (get_file_extension E url) as [ext|] eqn:Hx.
  - pose proof (get_file_extension_in E url ext Hx) as Hin.
    pose proof (supported_not_empty ext Hin) as Hne.
    destruct ext as [|c ext]; [contradiction|].
    rewrite bool_decide_eq_true_2 by exact Hin. split; eauto.
  - split; [discriminate|]. intros (ext & H). discriminate.
Qed.

(** X23.  The extension of the path wins over the query: when the path
    ends in a dot and a run of letters and digits that is, in lower case,
    a supported extension, that extension is returned and the query is not
    looked at. *)
Theorem path_extension_wins (E : Env) (url : string) (parsed : ParseResult)
    (group1 : string) :
  urlparse E url = Return parsed ->
  re_search E "\.([a-zA-Z0-9]+)$" (path parsed) = Some group1 ->
  ("." ++ str_lower E group1)%string ∈ SUPPORTED_FORMATS ->
  get_file_extension E url = Some ("." ++ str_lower E group1)%string.
Proof.
  intros Hp Hr Hs. unfold get_file_extension. rewrite Hp.
  cbv beta iota zeta delta [obind]. rewrite Hr.
  rewrite bool_decide_eq_true_2 by exact Hs. reflexivity.
Qed.

Lemma path_extension_wins_witness :
  get_file_extension example_env "http://cdn.example.com/photo.JPG?format=png"
  = Some ("." ++ str_lower example_env "JPG")%string.
Proof.
  apply (path_extension_wins example_env
           "http://cdn.example.com/photo.JPG?format=png"
           (mkParseResult "http" (Some "cdn.example.com") "/photo.JPG" "format=png") "JPG").
  - vm_compute. reflexivity.
  - reflexivity.
  - vm_compute. repeat constructor.
Defined.

(** X24.  When the path gives no supported extension, the query decides,
    and its [format] parameter is asked first: if its first value is, in
    lower case and with or without a leading dot, a supported extension,
    that extension is returned whatever [type] and [ext] say. *)
Theorem format_parameter_comes_first (E : Env) (url : string) (parsed : ParseResult)
    (query_params : gmap string (list string)) (value : string) (values : list string) :
  urlparse E url = Return parsed ->
  (forall group1, re_search E "\.([a-zA-Z0-9]+)$" (path parsed) = Some group1 ->
     ("." ++ str_lower E group1)%string ∉ SUPPORTED_FORMATS) ->
  parse_qs E (query parsed) = Return query_params ->
  query_params !! "format" = Some (value :: values) ->
  (if startswith (str_lower E value) "." then str_lower E value
   else "." ++ str_lower E value)%string ∈ SUPPORTED_FORMATS ->
  get_file_extension E url =
    Some (if startswith (str_lower E value) "." then str_lower E value
          else "." ++ str_lower E value)%string.
Proof.
  intros Hp Hr Hq Hf Hs. unfold get_file_extension. rewrite Hp.
  cbv beta iota zeta delta [obind].
  assert (Hnone : match re_search E "\.([a-zA-Z0-9]+)$" (path parsed) with
                  | Some group1 =>
                      if bool_decide (("." ++ str_lower E group1)%string ∈ SUPPORTED_FORMATS)
                      then Some ("." ++ str_lower E group1)%string else None
                  | None => None
                  end = None).
  { destruct (re_search E "\.([a-zA-Z0-9]+)$" (path parsed)) as [g|]; [|reflexivity].
    rewrite bool_decide_eq_false_2 by (apply Hr; reflexivity). reflexivity. }
  rewrite Hnone, Hq. cbv beta iota zeta delta [obind query_extension]. rewrite Hf.
  destruct (startswith (str_lower E value) ".");
    rewrite bool_decide_eq_true_2 by exact Hs; reflexivity.
Qed.

Lemma format_parameter_comes_first_witness :
  get_file_extension example_env "http://cdn.example.com/render?format=png"
  = Some (if startswith (str_lower example_env "png") "."
          then str_lower example_env "png"
          else "." ++ str_lower example_env "png")%string.
Proof.
  apply (format_parameter_comes_first example_env
           "http://cdn.example.com/render?format=png"
           (mkParseResult "http" (Some "cdn.example.com") "/render" "format=png")
           {["format" := ["png"]]} "png" []).
  - vm_compute. reflexivity.
  - intros group1. vm_compute. discriminate.
  - reflexivity.
  - vm_compute. reflexivity.
  - vm_compute. repeat constructor.
Defined.

(** X25.  [validate_image_size] raises nothing, and accepts a file exactly
    when its size can be read and is at most 15 MiB for a path whose
    extension is [.gif], and at most 10 MiB for every other path; an
    accepted file gets the empty message. *)
Theorem validate_image_size_limits (E : Env) (file_path : string) :
  (fst (validate_image_size E file_path) = true <->
   exists file_size,
     getsize E file_path = Return file_size /\
     file_size <= (if bool_decide (get_file_extension E file_path = Some ".gif")
                   then 15 * 1024 * 1024 else 10 * 1024 * 1024)) /\
  (fst (validate_image_size E file_path) = true ->
   snd (validate_image_size E file_path) = "").
Proof.
  unfold validate_image_size.
  destruct (getsize E file_path) as [file_size|e]; simpl.
  2:{ split; [split; [discriminate|intros (s & H & _); discriminate]|discriminate]. }
  change DEFAULT_GIF_SIZE_LIMIT with (15 * 1024 * 1024).
  change DEFAULT_IMAGE_SIZE_LIMIT with (10 * 1024 * 1024).
  set (limit := if bool_decide (get_file_extension E file_path = Some ".gif")
                then 15 * 1024 * 1024 else 10 * 1024 * 1024).
  destruct (Z.gtb_spec file_size limit) as [Hgt|Hle].
  - assert (Hf : forall r : outcome (bool * string),
              (exists m, r = Return (false, m)) \/ (exists e, r = Raise e) ->
              fst match r with
                  | Return r => r
                  | Raise e => (false, ("无法获取文件大小: " ++ str_exn E e)%string)
                  end = false).
    { intros r [(m & ->)|(e & ->)]; reflexivity. }
    rewrite Hf.
    + split; [split; [discriminate|]|discriminate].
      intros (s & [= <-] & Hs). lia.
    + destruct (int_truediv file_size 1024) as [q|e]; simpl; [|eauto].
      destruct (float_div_int q 1024) as [mb|e]; simpl; eauto.
  - simpl. split; [|reflexivity]. split; [|reflexivity].
    intros _. exists file_size. auto.
Qed.

(** X26.  The [base64://] prefix is optional for [decode_base64_image]:
    data that [is_base64_image] recognises decodes, and fails, exactly as
    the same data without the prefix does.  The prefix is taken off once. *)
Theorem base64_prefix_is_optional (E : Env) (data : string) (t : Trace) :
  startswith data "base64://" = false ->
  is_base64_image ("base64://" ++ data) = true /\
  decode_base64_image E ("base64://" ++ data) t = decode_base64_image E data t.
Proof.
  intros Hd. unfold is_base64_image, decode_base64_image.
  assert (Hp : startswith ("base64://" ++ data) "base64://" = true).
  { apply startswith_app. exists data. reflexivity. }
  rewrite Hp, Hd. split; [reflexivity|].
  rewrite (slice_from_app "base64://" data). reflexivity.
Qed.

Lemma base64_prefix_is_optional_witness :
  is_base64_image ("base64://" ++ "R0lG") = true /\
  decode_base64_image example_env ("base64://" ++ "R0lG") [] =
  decode_base64_image example_env "R0lG" [].
Proof.
  apply (base64_prefix_is_optional example_env "R0lG" []).
  reflexivity.
Defined.

End FileUtilsMoreSpec.

(* ===================================================================== *)
(** * Properties of main.py *)
(* ===================================================================== *)

Module MainSpec.
Import Main.

(** ** Lists of characters *)

Definition all (p : N -> bool) (s : str) : Prop := Forall (fun c => p c = true) s.
Definition stops (p : N -> bool) (s : str) : Prop :=
  match s with
  | c :: _ => p c = false
  | [] => True
  end.

Lemma takewhile_app (p : N -> bool) (a b : str) :
  all p a -> stops p b -> takewhile p (a ++ b) = a.
Proof.
  intros Ha Hb. induction Ha as [|c a Hc _ IH]; simpl.
  - destruct b as [|c b]; simpl in *; [reflexivity|rewrite Hb; reflexivity].
  - rewrite Hc, IH. reflexivity.
Qed.

Lemma dropwhile_app (p : N -> bool) (a b : str) :
  all p a -> stops p b -> dropwhile p (a ++ b) = b.
Proof.
  intros Ha Hb. induction Ha as [|c a Hc _ IH]; simpl.
  - destruct b as [|c b]; simpl in *; [reflexivity|rewrite Hb; reflexivity].
  - rewrite Hc, IH. reflexivity.
Qed.

Lemma takewhile_full (p : N -> bool) (s : str) : all p s -> takewhile p s = s.
Proof.
  intros H. rewrite <- (app_nil_r s) at 1. apply takewhile_app; [exact H|exact I].
Qed.

Lemma dropwhile_full (p : N -> bool) (s : str) : all p s -> dropwhile p s = [].
Proof.
  intros H. rewrite <- (app_nil_r s) at 1. apply dropwhile_app; [exact H|exact I].
Qed.

Lemma takewhile_all (p : N -> bool) (s : str) : all p (takewhile p s).
Proof.
  induction s as [|c s IH]; simpl; [constructor|].
  destruct (p c) eqn:Hc; constructor; assumption.
Qed.

Lemma dropwhile_stops (p : N -> bool) (s : str) : stops p (dropwhile p s).
Proof.
  induction s as [|c s IH]; simpl; [exact I|].
  destruct (p c) eqn:Hc; [exact IH|exact Hc].
Qed.

Lemma take_drop_while (p : N -> bool) (s : str) : takewhile p s ++ dropwhile p s = s.
Proof.
  induction s as [|c s IH]; simpl; [reflexivity|].
  destruct (p c); simpl; congruence.
Qed.

Lemma dropwhile_none (p : N -> bool) (s : str) : stops p s -> dropwhile p s = s.
Proof. destruct s as [|c s]; simpl; [reflexivity|]. intros ->. reflexivity. Qed.

Lemma dropwhile_sub (p : N -> bool) (s : str) (x : N) : x ∈ dropwhile p s -> x ∈ s.
Proof.
  rewrite <- (take_drop_while p s) at 2. intros H. apply elem_of_app. auto.
Qed.

Lemma takewhile_sub (p : N -> bool) (s : str) (x : N) : x ∈ takewhile p s -> x ∈ s.
Proof.
  rewrite <- (take_drop_while p s) at 2. intros H. apply elem_of_app. auto.
Qed.

Lemma elem_of_rev (s : str) (x : N) : x ∈ rev s <-> x ∈ s.
Proof. rewrite !list_elem_of_In. symmetry. apply in_rev. Qed.

Lemma strip_sub (s : str) (x : N) : x ∈ strip s -> x ∈ s.
Proof.
  unfold strip. rewrite elem_of_rev. intros H.
  apply dropwhile_sub in H. rewrite elem_of_rev in H.
  exact (dropwhile_sub _ _ _ H).
Qed.

Lemma has_prefix_app (s prefix : str) :
  has_prefix s prefix = true <-> exists r, s = prefix ++ r.
Proof.
  revert s. induction prefix as [|a p IH]; intros s.
  - destruct s; simpl; split; eauto.
  - destruct s as [|c s]; simpl.
    + split; [discriminate|intros (r & H); discriminate].
    + rewrite andb_true_iff, N.eqb_eq, IH. split.
      * intros (-> & r & ->). eauto.
      * intros (r & [= -> ->]). eauto.
Qed.

Lemma contains_infix (needle s : str) :
  contains needle s = true <-> exists a b, s = a ++ needle ++ b.
Proof.
  induction s as [|c s IH].
  - change (contains needle []) with (has_prefix [] needle || false).
    rewrite orb_false_r, has_prefix_app. split.
    + intros (r & H). exists [], r. exact H.
    + intros (a & b & H). destruct a; simpl in H; [eauto|discriminate].
  - change (contains needle (c :: s))
      with (has_prefix (c :: s) needle || contains needle s).
    rewrite orb_true_iff, has_prefix_app, IH. split.
    + intros [(r & ->)|(a & b & ->)]; [exists [], r|exists (c :: a), b]; reflexivity.
    + intros (a & b & H). destruct a as [|c' a]; simpl in H.
      * left. eauto.
      * right. injection H as _ ->. eauto.
Qed.

Lemma contains_elem (needle s : str) (x : N) :
  contains needle s = true -> x ∈ needle -> x ∈ s.
Proof.
  rewrite contains_infix. intros (a & b & ->) H. rewrite !elem_of_app. auto.
Qed.

(** ** White space *)

Definition solid (s : str) : Prop := all (fun c => negb (isspace c)) s.

Lemma solid_stops (s : str) : solid s -> stops isspace s.
Proof.
  destruct s as [|c s]; [intros _; exact I|]. intros H.
  apply Forall_cons in H as [H _]. simpl. apply negb_true_iff, H.
Qed.

Lemma solid_rev (s : str) : solid s -> solid (rev s).
Proof. apply Forall_rev. Qed.

Lemma strip_solid (s : str) : solid s -> strip s = s.
Proof.
  intros H. unfold strip.
  rewrite (dropwhile_none isspace s (solid_stops s H)).
  rewrite (dropwhile_none isspace (rev s) (solid_stops _ (solid_rev s H))).
  apply rev_involutive.
Qed.

Lemma solid_no_space (s : str) : solid s -> 32%N ∉ s.
Proof.
  intros H Hin. unfold solid, all in H. rewrite Forall_forall in H.
  specialize (H _ Hin). discriminate.
Qed.

Lemma split_whitespace_eq (n : nat) (s : str) :
  split_whitespace n s =
    match dropwhile isspace s with
    | [] => []
    | c :: r =>
        match n with
        | O => [c :: r]
        | S n =>
            takewhile (fun c => negb (isspace c)) (c :: r)
            :: split_whitespace n (dropwhile (fun c => negb (isspace c)) (c :: r))
        end
    end.
Proof. destruct n; reflexivity. Qed.

Lemma split_solid (n : nat) (s : str) :
  solid s -> s <> [] -> split_whitespace n s = [s].
Proof.
  intros H Hne. destruct s as [|c r]; [contradiction|].
  rewrite split_whitespace_eq, (dropwhile_none isspace _ (solid_stops _ H)).
  destruct n as [|n]; [reflexivity|].
  rewrite (takewhile_full _ _ H), (dropwhile_full _ _ H).
  destruct n; reflexivity.
Qed.

(** What [_extract_command] does to a string without white space. *)
Lemma extract_solid (s : str) : solid s -> _extract_command s = s.
Proof.
  intros H. unfold _extract_command.
  destruct (contains (lit " @") s) eqn:Hc.
  { exfalso. apply (solid_no_space s H), (contains_elem _ _ _ Hc). left. }
  destruct (has_prefix s (lit "@")); [|reflexivity].
  destruct (decide (s = [])) as [->|Hne]; [reflexivity|].
  rewrite (split_solid 2 s H Hne). reflexivity.
Qed.

Lemma second_part_solid (s : str) :
  solid (nth 1 (split_whitespace 2 s) []).
Proof.
  rewrite split_whitespace_eq.
  destruct (dropwhile isspace s) as [|c r]; [constructor|].
  set (rest := dropwhile (fun c => negb (isspace c)) (c :: r)).
  change (solid (nth 0 (split_whitespace 1 rest) [])).
  rewrite split_whitespace_eq.
  destruct (dropwhile isspace rest) as [|c' r']; [constructor|].
  apply takewhile_all.
Qed.

(** X27.  [_extract_command] is idempotent: what it returns is a command
    it would leave as it is. *)
Theorem extract_command_is_idempotent (message_str : str) :
  _extract_command (_extract_command message_str) = _extract_command message_str.
Proof.
  destruct (contains (lit " @") message_str) eqn:Hc.
  - assert (Hr : _extract_command message_str
                 = strip (nth 0 (split_once 64 message_str) [])).
    { unfold _extract_command. rewrite Hc. reflexivity. }
    rewrite Hr. set (r := strip (nth 0 (split_once 64 message_str) [])).
    assert (Hno : 64%N ∉ r).
    { intros Hin. apply strip_sub in Hin. unfold split_once in Hin.
      set (p := fun c : N => negb (c =? 64)%N) in *.
      assert (Hhead : nth 0 (match dropwhile p message_str with
                             | [] => [message_str]
                             | _ :: after => [takewhile p message_str; after]
                             end) [] = takewhile p message_str).
      { destruct (dropwhile p message_str) eqn:Hd; [|reflexivity].
        simpl. rewrite <- (take_drop_while p message_str) at 1.
        rewrite Hd, app_nil_r. reflexivity. }
      rewrite Hhead in Hin.
      pose proof (takewhile_all p message_str) as Ha.
      unfold all in Ha. rewrite Forall_forall in Ha. specialize (Ha _ Hin).
      discriminate. }
    unfold _extract_command.
    destruct (contains (lit " @") r) eqn:Hc'.
    { exfalso. apply Hno, (contains_elem _ _ _ Hc'). right. left. }
    destruct (has_prefix r (lit "@")) eqn:Hs; [|reflexivity].
    apply has_prefix_app in Hs as (t & Ht). exfalso. apply Hno. rewrite Ht. left.
  - destruct (has_prefix message_str (lit "@")) eqn:Hs.
    + destruct (2 <=? length (split_whitespace 2 message_str))%nat eqn:Hl.
      * assert (Hr : _extract_command message_str
                     = nth 1 (split_whitespace 2 message_str) []).
        { unfold _extract_command. rewrite Hc, Hs. cbv zeta. rewrite Hl.
          apply strip_solid, second_part_solid. }
        rewrite Hr. apply extract_solid, second_part_solid.
      * assert (Hr : _extract_command message_str = message_str).
        { unfold _extract_command. rewrite Hc, Hs. cbv zeta. rewrite Hl. reflexivity. }
        rewrite !Hr. reflexivity.
    + assert (Hr : _extract_command message_str = message_str).
      { unfold _extract_command. rewrite Hc, Hs. reflexivity. }
      rewrite !Hr. reflexivity.
Qed.

Lemma dropwhile_snoc (p : N -> bool) (s : str) (c : N) :
  dropwhile p (s ++ [c]) =
    match dropwhile p s with
    | [] => if p c then [] else [c]
    | d => d ++ [c]
    end.
Proof.
  induction s as [|a s IH]; simpl; [reflexivity|].
  destruct (p a); [exact IH|reflexivity].
Qed.

Lemma strip_trailing_space (s : str) (c : N) :
  isspace c = true -> strip (s ++ [c]) = strip s.
Proof.
  intros Hc. unfold strip. rewrite dropwhile_snoc.
  destruct (dropwhile isspace s) as [|a d]; [rewrite Hc; reflexivity|].
  rewrite rev_app_distr. simpl rev at 1.
  change ([c] ++ rev (a :: d)) with (c :: rev (a :: d)).
  simpl dropwhile at 1. rewrite Hc. reflexivity.
Qed.

Lemma first_part (before after : str) :
  64%N ∉ before ->
  nth 0 (split_once 64 (before ++ 64%N :: after)) [] = before.
Proof.
  intros Hno. unfold split_once.
  assert (Ha : all (fun c => negb (c =? 64)%N) before).
  { apply Forall_forall. intros x Hx. apply negb_true_iff, N.eqb_neq.
    intros ->. contradiction. }
  rewrite (dropwhile_app _ before (64%N :: after) Ha eq_refl).
  rewrite (takewhile_app _ before (64%N :: after) Ha eq_refl). reflexivity.
Qed.

(** X28.  When a message has a mention after a space, the command is what
    stands before the first [@] of the message, stripped: a command
    followed by a mention gives the command. *)
Theorem command_before_a_mention (before after : str) :
  64%N ∉ before ->
  contains (lit " @") (before ++ 64%N :: after) = true ->
  _extract_command (before ++ 64%N :: after) = strip before.
Proof.
  intros Hno Hc. unfold _extract_command. rewrite Hc, (first_part _ _ Hno).
  reflexivity.
Qed.

Lemma command_before_a_mention_witness :
  _extract_command (lit "wm " ++ 64%N :: lit "bot") = strip (lit "wm ").
Proof.
  apply (command_before_a_mention (lit "wm ") (lit "bot")).
  - intros H. apply list_elem_of_In in H. simpl in H. intuition discriminate.
  - vm_compute. reflexivity.
Defined.

(** X29.  A message that begins with a mention and has another mention
    after a space gives the empty command, whatever stands between the
    two: the text before the first [@] is empty. *)
Theorem second_mention_loses_the_command (rest : str) :
  contains (lit " @") (64%N :: rest) = true ->
  _extract_command (64%N :: rest) = [].
Proof.
  intros Hc. unfold _extract_command. rewrite Hc. reflexivity.
Qed.

Lemma second_mention_loses_the_command_witness :
  _extract_command (64%N :: lit "bot wm @you") = [].
Proof.
  apply (second_mention_loses_the_command (lit "bot wm @you")).
  vm_compute. reflexivity.
Defined.

(** X30.  A message that begins with a mention and has no mention after a
    space gives its second word: the command that follows the mention,
    with what comes after it dropped. *)
Theorem command_after_a_leading_mention (bot gap cmd tail : str) :
  solid bot -> all isspace gap -> gap <> [] -> solid cmd -> cmd <> [] ->
  stops (fun c => negb (isspace c)) tail ->
  contains (lit " @") (64%N :: bot ++ gap ++ cmd ++ tail) = false ->
  _extract_command (64%N :: bot ++ gap ++ cmd ++ tail) = cmd.
Proof.
  intros Hbot Hgap Hg Hcmd Hc Htail Hno.
  unfold _extract_command. rewrite Hno.
  assert (Hs : has_prefix (64%N :: bot ++ gap ++ cmd ++ tail) (lit "@") = true).
  { apply has_prefix_app. eexists. reflexivity. }
  rewrite Hs. cbv beta iota zeta.
  assert (Hmention : solid (64%N :: bot)) by (constructor; [reflexivity|exact Hbot]).
  assert (Hstop_gap : stops (fun c => negb (isspace c)) (gap ++ cmd ++ tail)).
  { destruct gap as [|g gap]; [contradiction|]. apply Forall_cons in Hgap as [Hg1 _].
    simpl. rewrite Hg1. reflexivity. }
  assert (Hstop_cmd : stops isspace (cmd ++ tail)).
  { destruct cmd as [|c cmd]; [contradiction|]. apply Forall_cons in Hcmd as [Hc1 _].
    simpl. apply negb_true_iff, Hc1. }
  assert (Hparts : split_whitespace 2 (64%N :: bot ++ gap ++ cmd ++ tail)
                   = (64%N :: bot) :: cmd :: split_whitespace 0 tail).
  { rewrite split_whitespace_eq.
    change (dropwhile isspace (64%N :: bot ++ gap ++ cmd ++ tail))
      with (64%N :: bot ++ gap ++ cmd ++ tail).
    cbv beta iota.
    change (64%N :: bot ++ gap ++ cmd ++ tail)
      with ((64%N :: bot) ++ gap ++ cmd ++ tail).
    rewrite (takewhile_app _ _ _ Hmention Hstop_gap).
    rewrite (dropwhile_app _ _ _ Hmention Hstop_gap).
    rewrite split_whitespace_eq, (dropwhile_app _ _ _ Hgap Hstop_cmd).
    destruct (cmd ++ tail) as [|c r] eqn:Ect.
    { destruct cmd; [contradiction|discriminate]. }
    rewrite <- Ect.
    rewrite (takewhile_app _ _ _ Hcmd Htail), (dropwhile_app _ _ _ Hcmd Htail).
    reflexivity. }
  rewrite Hparts. simpl length. simpl nth.
  apply strip_solid, Hcmd.
Qed.

Lemma command_after_a_leading_mention_witness :
  _extract_command (64%N :: lit "bot" ++ lit " " ++ lit "wm" ++ lit " now") = lit "wm".
Proof.
  apply (command_after_a_leading_mention (lit "bot") (lit " ") (lit "wm") (lit " now")).
  - repeat constructor.
  - repeat constructor.
  - discriminate.
  - repeat constructor.
  - discriminate.
  - reflexivity.
  - vm_compute. reflexivity.
Defined.

End MainSpec.
